(** * Sector-weight rule checker: a shallow embedding of [check_portfolio_rules]

    The program under study is one Python module with two functions:
    [connected_components_from_adj] (an iterative depth-first search over a
    boolean adjacency matrix) and [check_portfolio_rules] (normalisation of
    the sector weights followed by five rule checks and a summary).

    Layout of this file:
    - [Number]: the arithmetic the program performs on weights, and its
      instance [binary64] (IEEE 754 double precision, the [dtype=float] of
      the source);
    - [Py]: the effects of a call (reading the caller's dict, the clock,
      writing to standard output, raising an exception) as a small
      state-and-error monad;
    - the two functions, transcribed statement by statement;
    - the notions the statements use, then lemmas and theorems: first the
      properties C1 to C10, then further properties (X1, X2, ...) of the
      search, of the clusters and of the rules.

    What can fail in the source fails here: [np.argmax] on an empty array
    and [list.index] on an absent name raise [ValueError], a missing key or
    label raises [KeyError].  Positional reads ([sectors[i]], [weights[i]],
    [adj[u, v]], [visited[v]]) are total functions with a default, used only
    at positions shown to be in range. *)

From Stdlib Require Import String Ascii.
From Stdlib Require Import List Bool Arith ZArith QArith Lia Lqa.
From Stdlib Require Import Permutation Sorted Floats.
From Equations Require Import Equations.
Import ListNotations.
Open Scope string_scope.
Open Scope list_scope.
Open Scope nat_scope.

Set Implicit Arguments.
Set Default Proof Using "Type".

(* ===================================================================== *)
(** * Numbers *)
(* ===================================================================== *)

(** The operations the source applies to weights.  [ltb x y] is Python's
    [x < y] (so [a > b] is [ltb b a]); [fromZ] converts an integer literal or
    a count; [np_round] is numpy's [round] on a [float64] scalar and
    [py_round] is the builtin [round] on a Python [float]. *)
Class Number (F : Type) : Type := {
  fromZ : Z -> F;
  add : F -> F -> F;
  mul : F -> F -> F;
  div : F -> F -> F;
  ltb : F -> F -> bool;
  leb : F -> F -> bool;
  is_nan : F -> bool;
  np_round : nat -> F -> F;
  py_round : nat -> F -> F
}.

(** Round [num / den] (with [0 < den]) to the nearest integer, ties to even. *)
Definition round_half_even (num den : Z) : Z :=
  let (q, r) := Z.div_eucl num den in
  match Z.compare (2 * r) den with
  | Lt => q
  | Gt => (q + 1)%Z
  | Eq => if Z.even q then q else (q + 1)%Z
  end.

Module Binary64.

(** Conversion of a Python int to a double: correctly rounded. *)
Definition of_Z (z : Z) : float :=
  SF2Prim (binary_normalize prec emax z 0 false).

Definition two52 : float := of_Z (2 ^ 52).

(** C's [rint] in the default rounding mode: every double of magnitude
    [2^52] or more is an integer; below, adding and subtracting [2^52]
    rounds to the nearest integer, ties to even.  The sign of the argument
    is kept ([rint(-0.3) = -0.0]). *)
Definition rint (x : float) : float :=
  let a := PrimFloat.abs x in
  if PrimFloat.leb two52 a then x
  else
    let r := PrimFloat.sub (PrimFloat.add a two52) two52 in
    if PrimFloat.ltb x PrimFloat.zero then PrimFloat.opp r
    else if PrimFloat.eqb x PrimFloat.zero then x
    else r.

(** numpy rounds to [d] decimals by scaling: [rint(x * 10^d) / 10^d]. *)
Definition np_round (d : nat) (x : float) : float :=
  let f := of_Z (10 ^ Z.of_nat d) in
  PrimFloat.div (rint (PrimFloat.mul x f)) f.

(** CPython's [round(x, d)] for [d >= 0]: the exact value of [x] is rounded
    to [d] decimals, ties to even, and the decimal result is converted back
    to the nearest double.  Infinities, NaN, zeros and integral values
    round to themselves. *)
Definition py_round (d : nat) (x : float) : float :=
  match Prim2SF x with
  | S754_finite s m e =>
      if (0 <=? e)%Z then x
      else
        let p := (10 ^ Z.of_nat d)%Z in
        let n := round_half_even (Zpos m * p) (2 ^ (- e)) in
        if (n =? 0)%Z then SF2Prim (S754_zero s)
        else
          let '(q, e', l) := SFdiv_core_binary prec emax n 0 p 0 in
          SF2Prim (binary_round_aux prec emax s q e' l)
  | _ => x
  end.

End Binary64.

#[export] Instance binary64 : Number float := {
  fromZ := Binary64.of_Z;
  add := PrimFloat.add;
  mul := PrimFloat.mul;
  div := PrimFloat.div;
  ltb := PrimFloat.ltb;
  leb := PrimFloat.leb;
  is_nan := PrimFloat.is_nan;
  np_round := Binary64.np_round;
  py_round := Binary64.py_round
}.

(* ===================================================================== *)
(** * Python values and effects *)
(* ===================================================================== *)

(** The exceptions the two functions can raise. *)
Inductive exn : Type :=
| ValueError (msg : string)
| KeyError (key : string).

Inductive Result (A : Type) : Type :=
| Ok (a : A)
| Raise (e : exn).
Arguments Ok {A} a.
Arguments Raise {A} e.

Definition is_ok {A} (r : Result A) : bool :=
  match r with Ok _ => true | Raise _ => false end.

Definition rbind {A B} (r : Result A) (k : A -> Result B) : Result B :=
  match r with
  | Ok a => k a
  | Raise e => Raise e
  end.

Declare Scope result_scope.
Delimit Scope result_scope with result.
Notation "x <- c ;; k" := (rbind c (fun x => k))
  (at level 61, c at next level, right associativity) : result_scope.

(** [[f(x) for x in l]] where [f] may raise: the first failure wins. *)
Fixpoint rmap {A B} (f : A -> Result B) (l : list A) : Result (list B) :=
  match l with
  | [] => Ok []
  | x :: l' =>
      (y <- f x ;; ys <- rmap f l' ;; Ok (y :: ys))%result
  end.

(** ** Lists indexed by position *)

(** [l[i] = v] for [i] in range; the source only writes at indices below
    [len(l)], where this is Python's item assignment. *)
Fixpoint list_set {A} (l : list A) (i : nat) (v : A) : list A :=
  match l, i with
  | [], _ => []
  | _ :: l', O => v :: l'
  | x :: l', S i' => x :: list_set l' i' v
  end.

Fixpoint index_from (l : list string) (s : string) (i : nat) : option nat :=
  match l with
  | [] => None
  | x :: l' => if String.eqb x s then Some i else index_from l' s (S i)
  end.

(** [repr(s)] of a [str].  CPython puts the text between single quotes, or
    between double quotes when it holds a single quote and no double quote;
    it escapes the quote in use, the backslash, tab, newline and carriage
    return, and writes the other ASCII control characters as [\xhh].  A
    string stands for the UTF-8 bytes of the text; bytes above 127 are
    copied, as CPython copies every printable character. *)
Definition double_quote : ascii := ascii_of_nat 34.
Definition single_quote : ascii := ascii_of_nat 39.
Definition backslash : ascii := ascii_of_nat 92.

Fixpoint has_char (c : ascii) (s : string) : bool :=
  match s with
  | EmptyString => false
  | String c' s' => Ascii.eqb c c' || has_char c s'
  end.

Definition hex_digit (n : nat) : ascii :=
  nth n (list_ascii_of_string "0123456789abcdef") "0"%char.

Definition repr_char (quote c : ascii) : string :=
  let n := nat_of_ascii c in
  if Ascii.eqb c quote || Ascii.eqb c backslash
  then String backslash (String c EmptyString)
  else if n =? 9 then String backslash "t"
  else if n =? 10 then String backslash "n"
  else if n =? 13 then String backslash "r"
  else if (n <? 32) || (n =? 127)
  then String backslash
         (String "x" (String (hex_digit (n / 16))
                         (String (hex_digit (n mod 16)) EmptyString)))
  else String c EmptyString.

Fixpoint repr_body (quote : ascii) (s : string) : string :=
  match s with
  | EmptyString => EmptyString
  | String c s' => String.append (repr_char quote c) (repr_body quote s')
  end.

Definition py_repr (s : string) : string :=
  let quote :=
    if has_char single_quote s && negb (has_char double_quote s)
    then double_quote else single_quote in
  String quote (String.append (repr_body quote s) (String quote EmptyString)).

(** [l.index(s)]: the first position of [s], or [ValueError] with CPython's
    message, the [repr] of [s] followed by [is not in list]. *)
Definition list_index (l : list string) (s : string) : Result nat :=
  match index_from l s 0 with
  | Some i => Ok i
  | None => Raise (ValueError (String.append (py_repr s) " is not in list"))
  end.

(** [s in l] on a list of strings. *)
Definition str_in (s : string) (l : list string) : bool :=
  existsb (String.eqb s) l.

(** [sub in s] on strings: substring test. *)
Definition substring_in (sub s : string) : bool :=
  match String.index 0 sub s with
  | Some _ => true
  | None => false
  end.

(** ** Dicts and labelled series *)

(** A dict with string keys, in insertion order.  A Python dict never holds
    a key twice: a well-formed dict satisfies [NoDup (dict_keys d)]. *)
Definition dict (V : Type) : Type := list (string * V).

Definition dict_keys {V} (d : dict V) : list string := map fst d.

Definition dict_getitem {V} (d : dict V) (k : string) : Result V :=
  match find (fun p => String.eqb (fst p) k) d with
  | Some p => Ok (snd p)
  | None => Raise (KeyError k)
  end.

(* ===================================================================== *)
(** * Connected components *)
(* ===================================================================== *)

Definition adjacency : Type := list (list bool).

(** [adj[u, v]]; the search only reads at [u, v < n], the side of the
    matrix. *)
Definition adj_get (adj : adjacency) (u v : nat) : bool :=
  nth v (nth u adj []) false.

(** [visited[v]]; [visited] has length [n] and [v] ranges over [range(n)]. *)
Definition is_visited (visited : list bool) (v : nat) : bool :=
  nth v visited true.

Definition count_unvisited (visited : list bool) : nat :=
  length (filter negb visited).

(** The inner [for v in range(n)] of the search.  The Python list [stack] is
    kept with its top first: [stack.append(v)] is [v :: stack] and
    [stack.pop()] takes the head. *)
Definition visit_step (adj : adjacency) (u : nat)
    (st : list bool * list nat) (v : nat) : list bool * list nat :=
  let '(visited, stack) := st in
  if adj_get adj u v && negb (is_visited visited v)
  then (list_set visited v true, v :: stack)
  else (visited, stack).

Definition visit_neighbours (adj : adjacency) (n u : nat)
    (visited : list bool) (stack : list nat) : list bool * list nat :=
  fold_left (visit_step adj u) (seq 0 n) (visited, stack).

Lemma count_unvisited_set (visited : list bool) (v : nat) :
  is_visited visited v = false ->
  S (count_unvisited (list_set visited v true)) = count_unvisited visited.
Proof.
  unfold is_visited, count_unvisited.
  revert v. induction visited as [|b visited IH]; intros [|v] H; simpl in *;
    try discriminate.
  - subst b. reflexivity.
  - specialize (IH v H). destruct b; simpl; lia.
Qed.

Lemma visit_step_measure adj u st v :
  count_unvisited (fst (visit_step adj u st v)) + length (snd (visit_step adj u st v))
  = count_unvisited (fst st) + length (snd st).
Proof.
  destruct st as [visited stack]. unfold visit_step.
  destruct (adj_get adj u v); simpl; [|reflexivity].
  destruct (is_visited visited v) eqn:E; simpl; [reflexivity|].
  pose proof (count_unvisited_set visited v E). lia.
Qed.

Lemma visit_fold_measure adj u vs st :
  count_unvisited (fst (fold_left (visit_step adj u) vs st))
    + length (snd (fold_left (visit_step adj u) vs st))
  = count_unvisited (fst st) + length (snd st).
Proof.
  revert st. induction vs as [|v vs IH]; intros st; simpl; [reflexivity|].
  rewrite IH. apply visit_step_measure.
Qed.

Lemma visit_neighbours_measure adj n u visited stack :
  count_unvisited (fst (visit_neighbours adj n u visited stack))
    + length (snd (visit_neighbours adj n u visited stack))
  = count_unvisited visited + length stack.
Proof. unfold visit_neighbours. apply visit_fold_measure. Qed.

(** The [while stack:] loop.  Each round pops one index and pushes only
    indices it marks visited, so the number of unvisited indices plus the
    height of the stack goes down by one. *)
Equations? dfs_loop (adj : adjacency) (n : nat) (visited : list bool)
    (stack comp : list nat) : list bool * list nat
    by wf (count_unvisited visited + length stack) lt :=
  dfs_loop adj n visited [] comp := (visited, comp);
  dfs_loop adj n visited (u :: stack) comp :=
    dfs_loop adj n
      (fst (visit_neighbours adj n u visited stack))
      (snd (visit_neighbours adj n u visited stack))
      (comp ++ [u]).
Proof.
  rewrite visit_neighbours_measure. simpl. lia.
Qed.

(** The outer [for i in range(n)]. *)
Definition component_step (adj : adjacency) (n : nat)
    (st : list bool * list (list nat)) (i : nat) : list bool * list (list nat) :=
  let '(visited, comps) := st in
  if negb (is_visited visited i)
  then
    let r := dfs_loop adj n (list_set visited i true) [i] [] in
    (fst r, comps ++ [snd r])
  else (visited, comps).

Definition connected_components_from_adj (adj : adjacency) : list (list nat) :=
  let n := length adj in
  snd (fold_left (component_step adj n) (seq 0 n) (repeat false n, [])).

(* ===================================================================== *)
(** * The report *)
(* ===================================================================== *)

Inductive Status : Type :=
| OK | ADVISORY | SOFT_WARNING | HARD_VIOLATION | ANALYZED.

Definition status_eqb (a b : Status) : bool :=
  match a, b with
  | OK, OK | ADVISORY, ADVISORY | SOFT_WARNING, SOFT_WARNING
  | HARD_VIOLATION, HARD_VIOLATION | ANALYZED, ANALYZED => true
  | _, _ => false
  end.

Section Evaluator.

Context {F : Type} {N : Number F}.

(** An entry of [comp_infos]. *)
Record Component : Type := {
  members : list string;
  weight_sum : F;
  avg_corr : F
}.

(** An entry of [corr_violations]. *)
Record Violation : Type := {
  viol_status : Status;
  viol_members : list string;
  viol_weight_sum : F;
  viol_avg_corr : F
}.

(** The f-string of each finding, kept as its template and arguments (the
    rendering of a number with [:.2f] is not modelled). *)
Inductive Message : Type :=
| MsgSingleSector (max_sector : string) (max_weight : F)
| MsgClusters (count : nat)
| MsgDefensive (defensive_sum : F)
| MsgReits (reit_sum : F)
| MsgEnergyMaterials (em_sum : F).

(** The keys of a finding besides [rule], [status] and [message]. *)
Inductive Detail : Type :=
| SectorValue (sector : string) (value : F)
| Clusters (components : list Component) (violations : list Violation)
| Value (value : F).

Record Finding : Type := {
  rule : nat;
  status : Status;
  detail : Detail;
  message : Message
}.

Record Summary : Type := {
  hard_violations_count : nat;
  soft_warnings_count : nat;
  hard_violations : list Finding;
  soft_warnings : list Finding
}.

Record Report : Type := {
  timestamp : string;
  input_weights : dict F;
  checks : list Finding;
  summary : Summary
}.

(** ** Effects *)

(** A line written by [print] in verbose mode. *)
Inductive Line : Type :=
| LineHeader
| LineTotals (sectors : nat) (total : F)
| LineRule (rule : nat) (status : Status) (message : Message).

(** What a call can observe or change outside its local variables: the dict
    object passed as [sector_weights], the UTC clock (as the ISO string
    [datetime.utcnow().isoformat()] returns) and standard output. *)
Record World : Type := {
  sector_weights : dict F;
  utc_clock : string;
  stdout : list Line
}.

Definition Py (A : Type) : Type := World -> Result A * World.

Definition ret {A} (a : A) : Py A := fun w => (Ok a, w).

Definition bind {A B} (c : Py A) (k : A -> Py B) : Py B :=
  fun w =>
    match c w with
    | (Ok a, w') => k a w'
    | (Raise e, w') => (Raise e, w')
    end.

(** A computation on local values only. *)
Definition lift {A} (r : Result A) : Py A := fun w => (r, w).

Definition keys_of_sector_weights : Py (list string) :=
  fun w => (Ok (dict_keys (sector_weights w)), w).

Definition getitem_of_sector_weights (s : string) : Py F :=
  fun w => (dict_getitem (sector_weights w) s, w).

Definition utcnow_isoformat : Py string :=
  fun w => (Ok (utc_clock w), w).

Definition print (l : Line) : Py unit :=
  fun w => (Ok tt, {| sector_weights := sector_weights w;
                      utc_clock := utc_clock w;
                      stdout := stdout w ++ [l] |}).

Fixpoint for_each {A B} (f : A -> Py B) (l : list A) : Py (list B) :=
  match l with
  | [] => ret []
  | x :: l' => bind (f x) (fun y => bind (for_each f l') (fun ys => ret (y :: ys)))
  end.

End Evaluator.

Arguments Component : clear implicits.
Arguments Violation : clear implicits.
Arguments Message : clear implicits.
Arguments Detail : clear implicits.
Arguments Finding : clear implicits.
Arguments Summary : clear implicits.
Arguments Report : clear implicits.
Arguments Line : clear implicits.
Arguments World : clear implicits.
Arguments Py : clear implicits.

Declare Scope py_scope.
Delimit Scope py_scope with py.
Notation "x <- c ;; k" := (bind c (fun x => k))
  (at level 61, c at next level, right associativity) : py_scope.
Notation "c ;; k" := (bind c (fun _ => k))
  (at level 61, right associativity) : py_scope.

(* ===================================================================== *)
(** * The rules *)
(* ===================================================================== *)

Section Rules.

Context {F : Type} {N : Number F}.

(** ** numpy and pandas operations *)

(** numpy adds a contiguous array of doubles by pairwise summation
    ([DOUBLE_pairwise_sum]).  Fewer than eight elements are added to a zero
    from left to right.  From eight to 128 elements it keeps eight
    accumulators: they start as the first eight elements, each further
    group of eight is added to them lane by lane, the accumulators are put
    together as [((r0+r1)+(r2+r3))+((r4+r5)+(r6+r7))], and the elements left
    over, fewer than eight, are added to that from left to right.  A longer
    array is cut in two, the first part of [n/2] elements lowered to a
    multiple of eight, and the sums of the parts are added. *)
Definition add_lanes (r chunk : list F) : list F :=
  map (fun p => add (fst p) (snd p)) (combine r chunk).

(** The loop [for (i = 8; i < n - (n % 8); i += 8)], run [k] times. *)
Fixpoint unrolled (k : nat) (r a : list F) : list F * list F :=
  match k with
  | O => (r, a)
  | S k' => unrolled k' (add_lanes r (firstn 8 a)) (skipn 8 a)
  end.

Definition sum_lanes (r : list F) : F :=
  let z := fromZ 0 in
  add (add (add (nth 0 r z) (nth 1 r z)) (add (nth 2 r z) (nth 3 r z)))
      (add (add (nth 4 r z) (nth 5 r z)) (add (nth 6 r z) (nth 7 r z))).

(** The branch for [8 <= n <= 128]. *)
Definition block_sum (a : list F) : F :=
  let '(r, rest) := unrolled (length a / 8 - 1) (firstn 8 a) (skipn 8 a) in
  fold_left add rest (sum_lanes r).

Equations? pairwise_sum (a : list F) : F by wf (length a) lt :=
pairwise_sum a with lt_dec (length a) 8 := {
  | left _ => fold_left add a (fromZ 0)
  | right _ with le_dec (length a) 128 := {
    | left _ => block_sum a
    | right _ =>
        let n2 := length a / 2 - (length a / 2) mod 8 in
        add (pairwise_sum (firstn n2 a)) (pairwise_sum (skipn n2 a)) } }.
Proof.
  - assert (E : n2 = length a / 2 - (length a / 2) mod 8) by reflexivity.
    clearbody n2. rewrite length_firstn.
    assert (length a / 2 < length a) by (apply Nat.div_lt; lia).
    set (k := length a / 2) in *. set (m := k mod 8) in *. lia.
  - assert (E : n2 = length a / 2 - (length a / 2) mod 8) by reflexivity.
    clearbody n2. rewrite length_skipn.
    assert (H8 : (length a / 2) mod 8 < 8) by (apply Nat.mod_upper_bound; lia).
    assert (64 <= length a / 2) by (apply Nat.div_le_lower_bound; lia).
    set (k := length a / 2) in *. set (m := k mod 8) in *. lia.
Qed.

(** [a.sum()] on a one-dimensional array: the reduction starts from the
    identity of the addition and adds the pairwise sum of the elements to
    it. *)
Definition np_sum (a : list F) : F := add (fromZ 0) (pairwise_sum a).

(** [a.mean()] *)
Definition np_mean (a : list F) : F :=
  div (np_sum a) (fromZ (Z.of_nat (length a))).

(** [s.sum()] on a pandas series: NaN entries are skipped. *)
Definition pd_sum (a : list F) : F :=
  np_sum (map (fun x => if is_nan x then fromZ 0 else x) a).

(** [np.argmax(a)]: the first maximum; a NaN counts as maximal; the empty
    array raises. *)
Fixpoint argmax_from (mp : F) (idx i : nat) (a : list F) : nat :=
  match a with
  | [] => idx
  | x :: a' =>
      if negb (leb x mp)
      then (if is_nan x then i else argmax_from x i (S i) a')
      else argmax_from mp idx (S i) a'
  end.

Definition np_argmax (a : list F) : Result nat :=
  match a with
  | [] => Raise (ValueError "attempt to get argmax of an empty sequence")
  | x :: a' => Ok (if is_nan x then 0 else argmax_from x 0 1 a')
  end.

Definition matrix : Type := list (list F).

(** [np.identity(n)] *)
Definition np_identity (n : nat) : matrix :=
  map (fun i => map (fun j => if i =? j then fromZ 1 else fromZ 0) (seq 0 n))
      (seq 0 n).

(** [m[i, j]] and [m[i, j] = v], used at indices inside the matrix only:
    they come from [sectors.index] and from the components of the search
    (lemmas [index_from_spec] and [components_in_range]). *)
Definition matrix_get (m : matrix) (i j : nat) : F :=
  nth j (nth i m []) (fromZ 0).

Definition matrix_set (m : matrix) (i j : nat) (v : F) : matrix :=
  list_set m i (list_set (nth i m []) j v).

(** [np.fill_diagonal(m, v)] *)
Definition fill_diagonal {A} (m : list (list A)) (v : A) : list (list A) :=
  map (fun ir => list_set (snd ir) (fst ir) v) (combine (seq 0 (length m)) m).

(** [pd.Series(weights, index=sectors)], and its [to_dict()]. *)
Definition pd_Series (weights : list F) (index : list string) : dict F :=
  combine index weights.

(** [series[labels]] for a list of labels. *)
Definition series_select (series : dict F) (labels : list string)
  : Result (list F) :=
  rmap (dict_getitem series) labels.

(** The literals [0.7] and [0.6]: the doubles nearest to 7/10 and 6/10. *)
Definition lit_0_7 : F := div (fromZ 7) (fromZ 10).
Definition lit_0_6 : F := div (fromZ 6) (fromZ 10).

(** ** Step 0: normalisation *)

(** [weights / weights.sum() * 100] *)
Definition normalize (weights : list F) : list F :=
  let total := np_sum weights in
  map (fun w => mul (div w total) (fromZ 100)) weights.

(** ** Rule 1: single sector *)

Definition rule1_status (max_weight : F) : Status :=
  if ltb (fromZ 40) max_weight then HARD_VIOLATION
  else if ltb (fromZ 30) max_weight then SOFT_WARNING
  else OK.

Definition rule1 (sectors : list string) (weights : list F)
  : Result (Finding F) :=
  (max_idx <- np_argmax weights ;;
   let max_sector := nth max_idx sectors "" in
   let max_weight := nth max_idx weights (fromZ 0) in
   Ok {| rule := 1;
         status := rule1_status max_weight;
         detail := SectorValue max_sector (np_round 2 max_weight);
         message := MsgSingleSector max_sector max_weight |})%result.

(** ** Rule 2: correlated clusters *)

Definition high_corr_pairs : list (string * string) :=
  [ ("Information Technology", "Communication Services");
    ("Energy", "Materials");
    ("Consumer Staples", "Health Care");
    ("Industrials", "Financials");
    ("Consumer Discretionary", "Communication Services") ].

(** The loop [for s1, s2 in high_corr_pairs]. *)
Fixpoint fill_pairs (sectors : list string) (pairs : list (string * string))
    (corr_matrix : matrix) : Result matrix :=
  match pairs with
  | [] => Ok corr_matrix
  | (s1, s2) :: rest =>
      (i <- list_index sectors s1 ;;
       j <- list_index sectors s2 ;;
       fill_pairs sectors rest
         (matrix_set (matrix_set corr_matrix i j lit_0_7) j i lit_0_7))%result
  end.

(** [adj = (corr_matrix > 0.6).astype(int)], its diagonal cleared, as
    booleans again. *)
Definition adjacency_of (corr_matrix : matrix) : adjacency :=
  fill_diagonal (map (map (fun c => ltb lit_0_6 c)) corr_matrix) false.

(** The index pairs of [np.triu_indices(len(comp), k=1)] taken through
    [np.ix_(comp, comp)], in row-major order. *)
Fixpoint upper_pairs (comp : list nat) : list (nat * nat) :=
  match comp with
  | [] => []
  | a :: rest => map (pair a) rest ++ upper_pairs rest
  end.

(** The local variables of one round of [for comp in comps]; [cl_avg_corr]
    holds [round(avg_corr, 3)], the only form in which the average is
    used. *)
Record Cluster : Type := {
  comp_sectors : list string;
  comp_weight : F;
  cl_avg_corr : F
}.

Definition cluster_of (sectors : list string) (weight_series : dict F)
    (corr_matrix : matrix) (comp : list nat) : Result Cluster :=
  (let comp_sectors := map (fun i => nth i sectors "") comp in
   selected <- series_select weight_series comp_sectors ;;
   let comp_weight := pd_sum selected in
   let avg_corr3 :=
     if 1 <? length comp
     then np_round 3
            (np_mean (map (fun ab => matrix_get corr_matrix (fst ab) (snd ab))
                          (upper_pairs comp)))
     else py_round 3 (fromZ 1) in
   Ok {| comp_sectors := comp_sectors;
         comp_weight := comp_weight;
         cl_avg_corr := avg_corr3 |})%result.

Definition component_of (c : Cluster) : Component F :=
  {| members := comp_sectors c;
     weight_sum := py_round 2 (comp_weight c);
     avg_corr := cl_avg_corr c |}.

Definition cluster_status (comp_weight : F) : option Status :=
  if ltb (fromZ 60) comp_weight then Some HARD_VIOLATION
  else if ltb (fromZ 50) comp_weight then Some SOFT_WARNING
  else None.

Definition violation_of (c : Cluster) : list (Violation F) :=
  match cluster_status (comp_weight c) with
  | Some st =>
      [ {| viol_status := st;
           viol_members := comp_sectors c;
           viol_weight_sum := py_round 2 (comp_weight c);
           viol_avg_corr := cl_avg_corr c |} ]
  | None => []
  end.

(** The clusters of a portfolio: lines 61 to 83 of the source. *)
Definition correlated_clusters (sectors : list string) (weight_series : dict F)
  : Result (list Cluster) :=
  (corr_matrix <- fill_pairs sectors high_corr_pairs
                    (np_identity (length sectors)) ;;
   let comps := connected_components_from_adj (adjacency_of corr_matrix) in
   rmap (cluster_of sectors weight_series corr_matrix) comps)%result.

Definition rule2 (sectors : list string) (weight_series : dict F)
  : Result (Finding F) :=
  (clusters <- correlated_clusters sectors weight_series ;;
   let comp_infos := map component_of clusters in
   let corr_violations := flat_map violation_of clusters in
   Ok {| rule := 2;
         status := ANALYZED;
         detail := Clusters comp_infos corr_violations;
         message := MsgClusters (length comp_infos) |})%result.

(** ** Rule 3: defensive sectors *)

Definition defensive : list string :=
  ["Consumer Staples"; "Health Care"; "Utilities"].

Definition rule3_status (defensive_sum : F) : Status :=
  if ltb defensive_sum (fromZ 5) then HARD_VIOLATION
  else if ltb defensive_sum (fromZ 10) then SOFT_WARNING
  else OK.

Definition rule3 (sectors : list string) (weight_series : dict F)
  : Result (Finding F) :=
  (selected <- series_select weight_series
                 (filter (fun s => str_in s sectors) defensive) ;;
   let defensive_sum := pd_sum selected in
   Ok {| rule := 3;
         status := rule3_status defensive_sum;
         detail := Value (py_round 2 defensive_sum);
         message := MsgDefensive defensive_sum |})%result.

(** ** Rule 4: REITs *)

Definition rule4_status (reit_sum : F) : Status :=
  if ltb (fromZ 20) reit_sum then HARD_VIOLATION
  else if ltb (fromZ 15) reit_sum then SOFT_WARNING
  else OK.

Definition rule4 (sectors : list string) (weight_series : dict F)
  : Result (Finding F) :=
  (let reits := filter (substring_in "Real Estate") sectors in
   reit_sum <- match reits with
               | [] => Ok (fromZ 0)
               | _ => selected <- series_select weight_series reits ;;
                      Ok (pd_sum selected)
               end ;;
   Ok {| rule := 4;
         status := rule4_status reit_sum;
         detail := Value (py_round 2 reit_sum);
         message := MsgReits reit_sum |})%result.

(** ** Rule 5: Energy and Materials *)

Definition rule5_status (em_sum : F) : Status :=
  if ltb (fromZ 25) em_sum then HARD_VIOLATION
  else if ltb (fromZ 20) em_sum then SOFT_WARNING
  else if ltb (fromZ 15) em_sum then ADVISORY
  else OK.

Definition rule5 (sectors : list string) (weight_series : dict F)
  : Result (Finding F) :=
  (let em := filter (fun s => str_in s sectors) ["Energy"; "Materials"] in
   em_sum <- match em with
             | [] => Ok (fromZ 0)
             | _ => selected <- series_select weight_series em ;;
                    Ok (pd_sum selected)
             end ;;
   Ok {| rule := 5;
         status := rule5_status em_sum;
         detail := Value (py_round 2 em_sum);
         message := MsgEnergyMaterials em_sum |})%result.

(** ** Summary *)

Definition with_status (st : Status) (checks : list (Finding F))
  : list (Finding F) :=
  filter (fun c => status_eqb (status c) st) checks.

Definition summarize (checks : list (Finding F)) : Summary F :=
  let hard := with_status HARD_VIOLATION checks in
  let soft := with_status SOFT_WARNING checks in
  {| hard_violations_count := length hard;
     soft_warnings_count := length soft;
     hard_violations := hard;
     soft_warnings := soft |}.

(** ** The evaluator *)

Definition print_summary (sectors : list string) (weights : list F)
    (checks : list (Finding F)) : Py F unit :=
  (print (@LineHeader F) ;;
   print (LineTotals (length sectors) (np_round 2 (np_sum weights))) ;;
   _ <- for_each (fun chk => print (LineRule (rule chk) (status chk) (message chk)))
          checks ;;
   ret tt)%py.

Definition check_portfolio_rules (verbose : bool) : Py F (Report F) :=
  (sectors <- keys_of_sector_weights ;;
   raw <- for_each getitem_of_sector_weights sectors ;;
   let weights := normalize raw in
   let weight_series := pd_Series weights sectors in
   now <- utcnow_isoformat ;;
   c1 <- lift (rule1 sectors weights) ;;
   c2 <- lift (rule2 sectors weight_series) ;;
   c3 <- lift (rule3 sectors weight_series) ;;
   c4 <- lift (rule4 sectors weight_series) ;;
   c5 <- lift (rule5 sectors weight_series) ;;
   let checks := [c1; c2; c3; c4; c5] in
   let report := {| timestamp := String.append now "Z";
                    input_weights := weight_series;
                    checks := checks;
                    summary := summarize checks |} in
   (if verbose then print_summary sectors weights checks else ret tt) ;;
   ret report)%py.

(** A call from a caller holding the dict [d], at clock reading [now], with
    nothing printed yet; [evaluate] is what the call returns or raises. *)
Definition call (d : dict F) (verbose : bool) (now : string)
  : Result (Report F) * World F :=
  check_portfolio_rules verbose
    {| sector_weights := d; utc_clock := now; stdout := [] |}.

Definition evaluate (d : dict F) (verbose : bool) (now : string)
  : Result (Report F) :=
  fst (call d verbose now).

End Rules.

(* ===================================================================== *)
(** * Notions used in the statements *)
(* ===================================================================== *)

Unset Implicit Arguments.

Section Notions.

Context {F : Type} {N : Number F}.

(** The rules as one computation on local values: what the evaluator does
    between reading its inputs and printing. *)
Definition run_rules (sectors : list string) (raw : list F) (now : string)
  : Result (Report F) :=
  (let weights := normalize raw in
   let weight_series := pd_Series weights sectors in
   c1 <- rule1 sectors weights ;;
   c2 <- rule2 sectors weight_series ;;
   c3 <- rule3 sectors weight_series ;;
   c4 <- rule4 sectors weight_series ;;
   c5 <- rule5 sectors weight_series ;;
   let checks := [c1; c2; c3; c4; c5] in
   Ok {| timestamp := String.append now "Z";
         input_weights := weight_series;
         checks := checks;
         summary := summarize checks |})%result.

(** The lines a verbose call prints. *)
Definition trace_of (sectors : list string) (raw : list F) (r : Report F)
  : list (Line F) :=
  @LineHeader F
    :: LineTotals (length sectors) (np_round 2 (np_sum (normalize raw)))
    :: map (fun chk => LineRule (rule chk) (status chk) (message chk)) (checks r).

Definition add_stdout (w : World F) (ls : list (Line F)) : World F :=
  {| sector_weights := sector_weights w;
     utc_clock := utc_clock w;
     stdout := stdout w ++ ls |}.

(** The quantity each rule compares with its thresholds, as the source
    computes it from the normalised weights. *)
Definition max_weight (weights : list F) : Result F :=
  (max_idx <- np_argmax weights ;; Ok (nth max_idx weights (fromZ 0)))%result.

Definition defensive_sum (sectors : list string) (weight_series : dict F)
  : Result F :=
  (selected <- series_select weight_series
                 (filter (fun s => str_in s sectors) defensive) ;;
   Ok (pd_sum selected))%result.

Definition reit_sum (sectors : list string) (weight_series : dict F)
  : Result F :=
  match filter (substring_in "Real Estate") sectors with
  | [] => Ok (fromZ 0)
  | reits => (selected <- series_select weight_series reits ;;
              Ok (pd_sum selected))%result
  end.

Definition em_sum (sectors : list string) (weight_series : dict F)
  : Result F :=
  match filter (fun s => str_in s sectors) ["Energy"; "Materials"] with
  | [] => Ok (fromZ 0)
  | em => (selected <- series_select weight_series em ;;
           Ok (pd_sum selected))%result
  end.

(** The finding of rule [k] in a report, and its status. *)
Definition finding_of (k : nat) (r : Report F) : option (Finding F) :=
  find (fun c => rule c =? k) (checks r).

Definition status_of_rule (k : nat) (r : Report F) : option Status :=
  option_map (@status F) (finding_of k r).

(** Every sector named in [high_corr_pairs] is a key of the portfolio. *)
Definition table_sectors_present (sectors : list string) : bool :=
  forallb (fun p => str_in (fst p) sectors && str_in (snd p) sectors)
          high_corr_pairs.

Definition count_status (st : Status) (checks : list (Finding F)) : nat :=
  length (filter (fun c => status_eqb (status c) st) checks).

(** The findings of the rules other than Rule 2. *)
Definition graded (checks : list (Finding F)) : list (Finding F) :=
  filter (fun c => negb (rule c =? 2)) checks.

(** Two readings of the clock change the timestamp and nothing else. *)
Definition same_but_timestamp (a b : Result (Report F)) : Prop :=
  match a, b with
  | Ok r1, Ok r2 =>
      input_weights r1 = input_weights r2
      /\ checks r1 = checks r2
      /\ summary r1 = summary r2
  | Raise e1, Raise e2 => e1 = e2
  | _, _ => False
  end.

End Notions.

(** The clusters of a portfolio, as Rule 2 computes them. *)
Definition clusters_of {F : Type} {N : Number F} (d : dict F)
  : Result (list (@Cluster F)) :=
  correlated_clusters (dict_keys d)
    (pd_Series (normalize (map snd d)) (dict_keys d)).

(** [seen visited l]: the list [l] enumerates, without repetition, the
    indices below [n] that are marked in [visited]. *)
Definition seen (n : nat) (visited : list bool) (l : list nat) : Prop :=
  length visited = n /\ NoDup l /\
  forall k, In k l <-> (k < n /\ is_visited visited k = true).

(** [plus_signed x]: [x] is not NaN and its sign bit is clear, so [x] is
    [+0], a positive finite double or [+infinity]. *)
Definition plus_signed (x : spec_float) : Prop :=
  match x with
  | S754_nan => False
  | S754_zero s | S754_infinity s | S754_finite s _ _ => s = false
  end.

(** The tolerance the specification allows on a sum of percentages. *)
Definition tolerance : float := PrimFloat.div 1 1000000.

Definition within (tol x y : float) : bool :=
  PrimFloat.leb (PrimFloat.abs (PrimFloat.sub x y)) tol.





(* ===================================================================== *)
(** * Portfolios used in examples *)
(* ===================================================================== *)

Fixpoint nodupb (l : list string) : bool :=
  match l with
  | [] => true
  | x :: l' => negb (str_in x l') && nodupb l'
  end.

Module Portfolios.

Local Open Scope float_scope.

(** The example of the module's [__main__] block. *)
Definition example_weights : dict float :=
  [ ("Information Technology", 28); ("Communication Services", 12);
    ("Consumer Discretionary", 10); ("Consumer Staples", 6);
    ("Health Care", 10); ("Financials", 8); ("Industrials", 10);
    ("Energy", 5); ("Materials", 4); ("Real Estate", 4); ("Utilities", 3) ].

(** A portfolio over exactly the nine sectors of the correlation table. *)
Definition nine (it cs cd st hc fi ind en ma : float) : dict float :=
  [ ("Information Technology", it); ("Communication Services", cs);
    ("Consumer Discretionary", cd); ("Consumer Staples", st);
    ("Health Care", hc); ("Financials", fi); ("Industrials", ind);
    ("Energy", en); ("Materials", ma) ].

Definition only_energy : dict float := [ ("Energy", 100) ].

(** Several metrics sit exactly on a threshold: the largest weight is 40,
    the first cluster weighs 50, the defensive sectors 10, Energy and
    Materials 25. *)
Definition on_thresholds : dict float := nine 40 5 5 5 5 10 5 15 10.

Definition with_negative : dict float := nine 30 20 10 10 10 10 10 (-10) 10.

Definition all_zero : dict float := nine 0 0 0 0 0 0 0 0 0.

(** Two sectors of a cluster hold 35 each: the cluster is above 60 while no
    single sector is above 40. *)
Definition heavy_cluster : dict float := nine 35 35 5 5 5 5 5 3 2.

(** Nine weights of [2^1023]: each is a finite double, their sum is not. *)
Definition huge : dict float :=
  nine 0x1p1023 0x1p1023 0x1p1023 0x1p1023 0x1p1023 0x1p1023 0x1p1023
       0x1p1023 0x1p1023.

Definition noon : string := "2024-01-01T12:00:00".

End Portfolios.

(* ===================================================================== *)
(** * Notions used in the further properties *)
(* ===================================================================== *)

(** ** Paths in an adjacency matrix *)

(** An edge of the matrix between two of its indices, and the paths made of
    such edges. *)
Definition edge (adj : adjacency) (n u v : nat) : Prop :=
  u < n /\ v < n /\ adj_get adj u v = true.

Inductive linked (adj : adjacency) (n : nat) (u : nat) : nat -> Prop :=
| linked_here : linked adj n u u
| linked_step (v w : nat) :
    linked adj n u v -> edge adj n v w -> linked adj n u w.

(** [adj[u, v] = adj[v, u]] at all indices of the matrix. *)
Definition symmetric (adj : adjacency) : Prop :=
  forall u v, u < length adj -> v < length adj ->
    adj_get adj u v = adj_get adj v u.

(** The state of the outer loop of the search when it reaches index [a]:
    every index below [a] has been emitted; each component emitted so far
    begins with its smallest index, holds only indices joined to it, and an
    edge leaving it leads into a component emitted before it; the first
    indices of the components increase. *)
Definition components_so_far (adj : adjacency) (n : nat) (a : nat)
    (st : list bool * list (list nat)) : Prop :=
  seen n (fst st) (concat (snd st))
  /\ (forall k, k < a -> In k (concat (snd st)))
  /\ (forall comp, In comp (snd st) ->
        exists h rest,
          comp = h :: rest /\ h < a /\ (forall k, In k rest -> h < k)
          /\ (forall k, In k comp -> linked adj n h k)
          /\ (forall u v, In u comp -> v < n -> adj_get adj u v = true ->
                In v comp
                \/ exists comp', In comp' (snd st) /\ In v comp'
                                 /\ hd 0 comp' < h))
  /\ StronglySorted lt (map (hd 0) (snd st)).

(** A matrix on four indices with the edges 0-1 and 1-3. *)
Definition path_and_point : adjacency :=
  [ [false; true; false; false];
    [true; false; false; true];
    [false; false; false; false];
    [false; true; false; false] ].

(** ** The correlation table as a graph *)

(** The representative of a sector's correlation group: the table joins
    Information Technology, Communication Services and Consumer
    Discretionary, and pairs Energy with Materials, Consumer Staples with
    Health Care and Industrials with Financials; any other sector is alone. *)
Definition sector_group (s : string) : string :=
  if String.eqb s "Communication Services" then "Information Technology"
  else if String.eqb s "Consumer Discretionary" then "Information Technology"
  else if String.eqb s "Materials" then "Energy"
  else if String.eqb s "Health Care" then "Consumer Staples"
  else if String.eqb s "Financials" then "Industrials"
  else s.

(** The names that occur in the correlation table, in the order in which
    the loop over the table looks them up. *)
Definition table_sectors : list string :=
  flat_map (fun p => [fst p; snd p]) high_corr_pairs.

(** The first sector of the correlation table, in that order, that is not a
    key of the portfolio. *)
Definition first_absent (sectors : list string) : option string :=
  find (fun s => negb (str_in s sectors)) table_sectors.

(** Whether positions [a] and [b] hold the two sectors of a listed pair. *)
Definition pairedb (sectors : list string) (pairs : list (string * string))
    (a b : nat) : bool :=
  existsb (fun p =>
             match list_index sectors (fst p), list_index sectors (snd p) with
             | Ok i, Ok j => (a =? i) && (b =? j) || (a =? j) && (b =? i)
             | _, _ => false
             end) pairs.

(** An [n] by [n] matrix. *)
Definition square {A : Type} (n : nat) (m : list (list A)) : Prop :=
  length m = n /\ Forall (fun row => length row = n) m.

(** ** Average correlation by names *)

(** Whether [s] and [t] are the two sectors of a listed pair, in either
    order. *)
Definition listedb (pairs : list (string * string)) (s t : string) : bool :=
  existsb (fun p => String.eqb s (fst p) && String.eqb t (snd p)
                    || String.eqb s (snd p) && String.eqb t (fst p)) pairs.

(** The pairs of a list's elements, each element with those after it, in
    row-major order. *)
Fixpoint pairs_above {A : Type} (l : list A) : list (A * A) :=
  match l with
  | [] => []
  | a :: rest => map (pair a) rest ++ pairs_above rest
  end.

(** The value [round(avg_corr, 3)] in terms of the member names: the mean of
    0.7 for each listed pair and 0 for each other pair of members, or 1.0
    for a single member. *)
Definition avg_by_names {F : Type} {N : Number F} (names : list string) : F :=
  if 1 <? length names
  then np_round 3
         (np_mean (map (fun st => if listedb high_corr_pairs (fst st) (snd st)
                                  then lit_0_7 else fromZ 0)
                       (pairs_above names)))
  else py_round 3 (fromZ 1).

(** The sectors of the table that share the group of [s], or [s] alone. *)
Definition class_of (s : string) : list string :=
  let g := sector_group s in
  if String.eqb g "Information Technology"
  then ["Information Technology"; "Communication Services";
        "Consumer Discretionary"]
  else if String.eqb g "Energy" then ["Energy"; "Materials"]
  else if String.eqb g "Consumer Staples" then ["Consumer Staples"; "Health Care"]
  else if String.eqb g "Industrials" then ["Industrials"; "Financials"]
  else [s].

(** Whether [s] stands for its own group: every sector but the second names
    of the table's groups. *)
Definition is_rep (s : string) : bool := String.eqb (sector_group s) s.

(** ** The order of binary64 *)

(** A key whose lexicographic order is the order [SFcompare] computes on
    numbers: the class (negative infinity, negative, zero, positive,
    positive infinity), then the exponent and the mantissa, both negated for
    negative numbers. *)
Definition order_key (x : spec_float) : Z * Z * Z :=
  match x with
  | S754_nan => (5, 0, 0)
  | S754_infinity true => (0, 0, 0)
  | S754_finite true m e => (1, - e, - Zpos m)
  | S754_zero _ => (2, 0, 0)
  | S754_finite false m e => (3, e, Zpos m)
  | S754_infinity false => (4, 0, 0)
  end%Z.

Definition key_le (a b : Z * Z * Z) : Prop :=
  let '(a1, a2, a3) := a in
  let '(b1, b2, b3) := b in
  (a1 < b1 \/ (a1 = b1 /\ (a2 < b2 \/ (a2 = b2 /\ a3 <= b3))))%Z.

Definition key_lt (a b : Z * Z * Z) : Prop :=
  let '(a1, a2, a3) := a in
  let '(b1, b2, b3) := b in
  (a1 < b1 \/ (a1 = b1 /\ (a2 < b2 \/ (a2 = b2 /\ a3 < b3))))%Z.

(* ===================================================================== *)
(** * Running a call *)
(* ===================================================================== *)

Section Run.

Context {F : Type} {N : Number F}.

Lemma add_stdout_nil (w : World F) : add_stdout w [] = w.
Proof. destruct w; unfold add_stdout; simpl. now rewrite app_nil_r. Qed.

Lemma add_stdout_app (w : World F) l1 l2 :
  add_stdout (add_stdout w l1) l2 = add_stdout w (l1 ++ l2).
Proof. unfold add_stdout; simpl. now rewrite app_assoc. Qed.

Lemma for_each_getitem (l : list string) (w : World F) :
  for_each getitem_of_sector_weights l w
  = (rmap (dict_getitem (sector_weights w)) l, w).
Proof.
  induction l as [|s l IH]; simpl; [reflexivity|].
  unfold bind, getitem_of_sector_weights at 1.
  destruct (dict_getitem (sector_weights w) s) as [x|e]; simpl; [|reflexivity].
  rewrite IH.
  destruct (rmap (dict_getitem (sector_weights w)) l); reflexivity.
Qed.

Lemma for_each_print {A} (f : A -> Line F) (l : list A) (w : World F) :
  exists us, for_each (fun a => print (f a)) l w = (Ok us, add_stdout w (map f l)).
Proof.
  revert w. induction l as [|a l IH]; intros w; simpl.
  - exists []. unfold ret. now rewrite add_stdout_nil.
  - unfold bind at 1. unfold print at 1.
    destruct (IH (add_stdout w [f a])) as [us Hus].
    unfold add_stdout at 1 in Hus. unfold bind. rewrite Hus.
    exists (tt :: us). unfold ret. now rewrite add_stdout_app.
Qed.

Lemma print_summary_run sectors raw (r : Report F) w :
  print_summary sectors (normalize raw) (checks r) w
  = (Ok tt, add_stdout w (trace_of sectors raw r)).
Proof.
  unfold print_summary.
  unfold bind at 1. unfold print at 1.
  unfold bind at 1. unfold print at 1.
  unfold bind at 1.
  match goal with
  | |- context [for_each _ ?l ?w0] =>
      destruct (for_each_print
                  (fun chk => LineRule (rule chk) (status chk) (message chk))
                  l w0) as [us Hus]
  end.
  rewrite Hus. unfold ret, trace_of, add_stdout. simpl.
  now rewrite <- !app_assoc.
Qed.

(** A call reads the dict and the clock, runs the rules and, on success in
    verbose mode, prints; nothing else happens to the world. *)
Lemma check_portfolio_rules_run (verbose : bool) (w : World F) :
  check_portfolio_rules verbose w
  = match rmap (dict_getitem (sector_weights w)) (dict_keys (sector_weights w)) with
    | Raise e => (Raise e, w)
    | Ok raw =>
        match run_rules (dict_keys (sector_weights w)) raw (utc_clock w) with
        | Raise e => (Raise e, w)
        | Ok r =>
            (Ok r,
             if verbose
             then add_stdout w (trace_of (dict_keys (sector_weights w)) raw r)
             else w)
        end
    end.
Proof.
  unfold check_portfolio_rules.
  unfold bind at 1. unfold keys_of_sector_weights at 1.
  unfold bind at 1. rewrite for_each_getitem.
  destruct (rmap _ _) as [raw|e]; [|reflexivity].
  unfold bind at 1. unfold utcnow_isoformat at 1.
  unfold run_rules, lift, bind, rbind.
  destruct (rule1 _ _) as [c1|e]; [|reflexivity].
  destruct (rule2 _ _) as [c2|e]; [|reflexivity].
  destruct (rule3 _ _) as [c3|e]; [|reflexivity].
  destruct (rule4 _ _) as [c4|e]; [|reflexivity].
  destruct (rule5 _ _) as [c5|e]; [|reflexivity].
  destruct verbose.
  - match goal with
    | |- context [print_summary ?s (normalize ?raw0) ?cs ?w0] =>
        pose proof (print_summary_run s raw0
                      {| timestamp := String.append (utc_clock w) "Z";
                         input_weights := pd_Series (normalize raw0) s;
                         checks := cs;
                         summary := summarize cs |} w0) as Hp
    end.
    simpl in Hp. rewrite Hp. reflexivity.
  - reflexivity.
Qed.

(** Reading every key of a dict back from it never fails. *)
Lemma dict_getitem_ok {V} (d : dict V) (k : string) :
  is_ok (dict_getitem d k) = str_in k (dict_keys d).
Proof.
  unfold dict_getitem, str_in, dict_keys.
  induction d as [|[k' v] d IH]; simpl; [reflexivity|].
  rewrite (String.eqb_sym k k').
  destruct (String.eqb k' k); simpl; [reflexivity|exact IH].
Qed.

Lemma rmap_ok {A B} (f : A -> Result B) (l : list A) :
  is_ok (rmap f l) = forallb (fun a => is_ok (f a)) l.
Proof.
  induction l as [|a l IH]; simpl; [reflexivity|].
  destruct (f a); simpl; [|reflexivity].
  rewrite <- IH. destruct (rmap f l); reflexivity.
Qed.

Lemma rmap_length {A B} (f : A -> Result B) (l : list A) (ys : list B) :
  rmap f l = Ok ys -> length ys = length l.
Proof.
  revert ys. induction l as [|a l IH]; simpl; intros ys H.
  - now inversion H.
  - destruct (f a); simpl in H; [|discriminate].
    destruct (rmap f l) as [ys'|]; simpl in H; [|discriminate].
    inversion H; subst. simpl. f_equal. now apply IH.
Qed.

Lemma str_in_In (s : string) (l : list string) :
  str_in s l = true <-> In s l.
Proof.
  unfold str_in. rewrite existsb_exists. split.
  - intros [x [Hx He]]. apply String.eqb_eq in He. now subst.
  - intros H. exists s. split; [assumption|apply String.eqb_refl].
Qed.

Lemma series_select_ok (series : dict F) (labels : list string) :
  is_ok (series_select series labels)
  = forallb (fun s => str_in s (dict_keys series)) labels.
Proof.
  unfold series_select. rewrite rmap_ok.
  induction labels as [|s labels IH]; simpl; [reflexivity|].
  now rewrite dict_getitem_ok, IH.
Qed.

Lemma read_raw_ok (d : dict F) :
  exists raw, rmap (dict_getitem d) (dict_keys d) = Ok raw
              /\ length raw = length d.
Proof.
  assert (H : is_ok (rmap (dict_getitem d) (dict_keys d)) = true).
  { rewrite rmap_ok. apply forallb_forall. intros s Hs.
    rewrite dict_getitem_ok. now apply str_in_In. }
  destruct (rmap _ _) as [raw|] eqn:E; [|discriminate].
  exists raw. split; [reflexivity|].
  apply rmap_length in E. unfold dict_keys in E. now rewrite length_map in E.
Qed.

(** In a well-formed dict, the values read back are the stored ones. *)
Lemma read_raw_nodup (d : dict F) :
  NoDup (dict_keys d) ->
  rmap (dict_getitem d) (dict_keys d) = Ok (map snd d).
Proof.
  intros Hnd.
  assert (H : forall d0 : dict F,
             (forall p, In p d0 -> dict_getitem d (fst p) = Ok (snd p)) ->
             rmap (dict_getitem d) (dict_keys d0) = Ok (map snd d0)).
  { induction d0 as [|p d0 IH]; intros Hall; simpl; [reflexivity|].
    rewrite (Hall p (or_introl eq_refl)). simpl.
    rewrite IH; [reflexivity|]. intros q Hq. apply Hall. now right. }
  apply H. clear H.
  induction d as [|[k v] d IH]; intros p Hp; [contradiction|].
  simpl in Hnd. inversion Hnd as [|? ? Hnotin Hnd']; subst.
  unfold dict_getitem. simpl.
  destruct Hp as [<-|Hp]; simpl.
  - now rewrite String.eqb_refl.
  - destruct (String.eqb k (fst p)) eqn:E.
    + apply String.eqb_eq in E. subst k. exfalso. apply Hnotin.
      unfold dict_keys. now apply in_map.
    + apply (IH Hnd' p Hp).
Qed.

End Run.

(* ===================================================================== *)
(** * The search visits every index exactly once *)
(* ===================================================================== *)

Section Search.

Lemma list_set_length {A} (l : list A) (i : nat) (v : A) :
  length (list_set l i v) = length l.
Proof.
  revert i. induction l as [|x l IH]; intros [|i]; simpl; auto.
Qed.

Lemma list_set_nth {A} (l : list A) (i k : nat) (v dflt : A) :
  i < length l ->
  nth k (list_set l i v) dflt = if k =? i then v else nth k l dflt.
Proof.
  revert i k. induction l as [|x l IH]; intros i k Hi; simpl in Hi; [lia|].
  destruct i as [|i], k as [|k]; simpl; try reflexivity.
  apply IH. lia.
Qed.

Lemma is_visited_range (visited : list bool) (v : nat) :
  is_visited visited v = false -> v < length visited.
Proof.
  unfold is_visited. intros H.
  destruct (Nat.lt_ge_cases v (length visited)) as [Hlt|Hge]; [assumption|].
  rewrite nth_overflow in H by assumption. discriminate.
Qed.

Variable adj : adjacency.
Variable n : nat.

Lemma seen_perm visited l l' :
  Permutation l l' -> seen n visited l -> seen n visited l'.
Proof.
  intros Hp (Hlen & Hnd & Hin). split; [|split].
  - assumption.
  - eapply Permutation_NoDup; eassumption.
  - intros k. rewrite <- Hin. split; intros H.
    + eapply Permutation_in; [symmetry|]; eassumption.
    + eapply Permutation_in; eassumption.
Qed.

Lemma seen_mark visited l v :
  seen n visited l -> is_visited visited v = false ->
  seen n (list_set visited v true) (v :: l).
Proof.
  intros (Hlen & Hnd & Hin) Hv.
  pose proof (is_visited_range _ _ Hv) as Hr.
  assert (Hset : forall k, is_visited (list_set visited v true) k
                           = if k =? v then true else is_visited visited k).
  { intros k. unfold is_visited. now apply list_set_nth. }
  split; [|split].
  - now rewrite list_set_length.
  - constructor; [|assumption].
    intros Hc. apply Hin in Hc. destruct Hc as [_ Hc]. congruence.
  - intros k. rewrite Hset. split.
    + intros [<-|H]; [rewrite Nat.eqb_refl; split; [lia|reflexivity]|].
      apply Hin in H. destruct H as [Hk Hm]. split; [assumption|].
      now destruct (k =? v).
    + intros [Hk Hm].
      destruct (Nat.eqb_spec k v) as [->|Hne]; [now left|].
      right. apply Hin. now split.
Qed.

Lemma visit_step_seen u visited stack rest v :
  seen n visited (stack ++ rest) ->
  seen n (fst (visit_step adj u (visited, stack) v))
       (snd (visit_step adj u (visited, stack) v) ++ rest)
  /\ incl stack (snd (visit_step adj u (visited, stack) v)).
Proof.
  intros H. unfold visit_step.
  destruct (adj_get adj u v); simpl; [|split; [assumption|apply incl_refl]].
  destruct (is_visited visited v) eqn:E; simpl;
    [split; [assumption|apply incl_refl]|].
  split; [now apply seen_mark|]. apply incl_tl, incl_refl.
Qed.

Lemma visit_fold_seen u vs visited stack rest :
  seen n visited (stack ++ rest) ->
  seen n (fst (fold_left (visit_step adj u) vs (visited, stack)))
       (snd (fold_left (visit_step adj u) vs (visited, stack)) ++ rest)
  /\ incl stack (snd (fold_left (visit_step adj u) vs (visited, stack))).
Proof.
  revert visited stack.
  induction vs as [|v vs IH]; intros visited stack H; cbn [fold_left].
  - split; [assumption|apply incl_refl].
  - destruct (visit_step_seen u visited stack rest v H) as [H1 H2].
    destruct (visit_step adj u (visited, stack) v) as [visited1 stack1].
    simpl in H1, H2.
    destruct (IH visited1 stack1 H1) as [H3 H4].
    split; [assumption|]. eapply incl_tran; eassumption.
Qed.

(** The [while] loop: everything on the stack or already in [comp] ends up
    in the component, and the visited marks stay in step with what has been
    emitted. *)
Lemma dfs_loop_seen visited stack comp rest :
  seen n visited (stack ++ comp ++ rest) ->
  seen n (fst (dfs_loop adj n visited stack comp))
       (snd (dfs_loop adj n visited stack comp) ++ rest)
  /\ incl (stack ++ comp) (snd (dfs_loop adj n visited stack comp)).
Proof.
  funelim (dfs_loop adj n visited stack comp); intros Hs.
  - simpl in *. split; [assumption|apply incl_refl].
  - assert (Hs' : seen n visited (stack ++ (comp ++ [u]) ++ rest)).
    { eapply seen_perm; [|exact Hs]. simpl.
      rewrite <- !app_assoc. simpl.
      rewrite !app_assoc. apply Permutation_middle. }
    destruct (visit_fold_seen u (seq 0 n) visited stack
                ((comp ++ [u]) ++ rest) Hs') as [H1 H2].
    fold (visit_neighbours adj n u visited stack) in H1, H2.
    specialize (H rest H1). destruct H as [H3 H4].
    clear Heqcall.
    split; [assumption|].
    intros k Hk. apply H4. simpl in Hk.
    rewrite !in_app_iff in *.
    destruct Hk as [<-|[Hk|Hk]].
    + right. right. now left.
    + left. now apply H2.
    + right. left. assumption.
Qed.

Lemma component_step_seen st i :
  i < n ->
  seen n (fst st) (concat (snd st)) ->
  seen n (fst (component_step adj n st i)) (concat (snd (component_step adj n st i)))
  /\ incl (concat (snd st)) (concat (snd (component_step adj n st i)))
  /\ In i (concat (snd (component_step adj n st i))).
Proof.
  destruct st as [visited comps]. simpl. intros Hi Hs.
  unfold component_step.
  destruct (is_visited visited i) eqn:E; simpl.
  - split; [exact Hs|]. split; [apply incl_refl|].
    destruct Hs as (_ & _ & Hin). apply Hin. now split.
  - pose proof (seen_mark _ _ _ Hs E) as Hm.
    destruct (dfs_loop_seen (list_set visited i true) [i] [] (concat comps))
      as [H1 H2]; [exact Hm|].
    rewrite concat_app. simpl. rewrite app_nil_r.
    split; [|split].
    + eapply seen_perm; [apply Permutation_app_comm|exact H1].
    + apply incl_appl, incl_refl.
    + apply in_or_app. right. apply H2. now left.
Qed.

Lemma components_fold_seen l st :
  (forall i, In i l -> i < n) ->
  seen n (fst st) (concat (snd st)) ->
  seen n (fst (fold_left (component_step adj n) l st))
       (concat (snd (fold_left (component_step adj n) l st)))
  /\ incl (concat (snd st)) (concat (snd (fold_left (component_step adj n) l st)))
  /\ incl l (concat (snd (fold_left (component_step adj n) l st))).
Proof.
  revert st. induction l as [|i l IH]; intros st Hl Hs; cbn [fold_left].
  - split; [exact Hs|]. split; [apply incl_refl|intros k []].
  - destruct (component_step_seen st i (Hl i (or_introl eq_refl)) Hs)
      as (H1 & H2 & H3).
    destruct (IH (component_step adj n st i)
                (fun k Hk => Hl k (or_intror Hk)) H1) as (H4 & H5 & H6).
    split; [assumption|]. split.
    + eapply incl_tran; eassumption.
    + intros k [<-|Hk]; [now apply H5|now apply H6].
Qed.

End Search.

Lemma seen_initial (n : nat) : seen n (repeat false n) [].
Proof.
  split; [|split].
  - apply repeat_length.
  - constructor.
  - intros k. split; [intros []|].
    intros [Hk Hv]. unfold is_visited in Hv.
    rewrite nth_repeat_lt in Hv by assumption. discriminate.
Qed.

(** The components list every index of the matrix exactly once. *)
Lemma connected_components_partition (adj : adjacency) :
  Permutation (concat (connected_components_from_adj adj)) (seq 0 (length adj)).
Proof.
  unfold connected_components_from_adj.
  set (n := length adj).
  destruct (components_fold_seen adj n (seq 0 n) (repeat false n, []))
    as ((_ & Hnd & Hin) & _ & Hall).
  - intros i Hi. apply in_seq in Hi. lia.
  - apply seen_initial.
  - apply NoDup_Permutation; [assumption|apply seq_NoDup|].
    intros k. split.
    + intros Hk. apply Hin in Hk. apply in_seq. lia.
    + intros Hk. now apply Hall.
Qed.

(* ===================================================================== *)
(** * The shape of a report *)
(* ===================================================================== *)

Section Shape.

Context {F : Type} {N : Number F}.

Lemma rule1_inv sectors weights c :
  rule1 sectors weights = Ok c ->
  exists x, max_weight weights = Ok x /\ rule c = 1
            /\ status c = rule1_status x.
Proof.
  unfold rule1, max_weight, rbind.
  destruct (np_argmax weights) as [i|]; [|discriminate].
  intros H. inversion H; subst; clear H. simpl. eauto.
Qed.

Lemma rule2_inv sectors series c :
  rule2 sectors series = Ok c ->
  exists clusters,
    correlated_clusters sectors series = Ok clusters
    /\ rule c = 2 /\ status c = ANALYZED
    /\ detail c = Clusters (map component_of clusters)
                           (flat_map violation_of clusters).
Proof.
  unfold rule2, rbind.
  destruct (correlated_clusters sectors series) as [cl|]; [|discriminate].
  intros H. inversion H; subst; clear H. simpl. eauto.
Qed.

Lemma rule3_inv sectors series c :
  rule3 sectors series = Ok c ->
  exists x, defensive_sum sectors series = Ok x /\ rule c = 3
            /\ status c = rule3_status x.
Proof.
  unfold rule3, defensive_sum, rbind.
  destruct (series_select _ _) as [sel|]; [|discriminate].
  intros H. inversion H; subst; clear H. simpl. eauto.
Qed.

Lemma rule4_inv sectors series c :
  rule4 sectors series = Ok c ->
  exists x, reit_sum sectors series = Ok x /\ rule c = 4
            /\ status c = rule4_status x.
Proof.
  unfold rule4, reit_sum, rbind.
  destruct (filter _ sectors) as [|s reits].
  - intros H. inversion H; subst; clear H. simpl. eauto.
  - destruct (series_select _ _) as [sel|]; [|discriminate].
    intros H. inversion H; subst; clear H. simpl. eauto.
Qed.

Lemma rule5_inv sectors series c :
  rule5 sectors series = Ok c ->
  exists x, em_sum sectors series = Ok x /\ rule c = 5
            /\ status c = rule5_status x.
Proof.
  unfold rule5, em_sum, rbind.
  destruct (filter _ _) as [|s em].
  - intros H. inversion H; subst; clear H. simpl. eauto.
  - destruct (series_select _ _) as [sel|]; [|discriminate].
    intros H. inversion H; subst; clear H. simpl. eauto.
Qed.

Lemma run_rules_inv sectors raw now r :
  run_rules sectors raw now = Ok r ->
  exists c1 c2 c3 c4 c5,
    rule1 sectors (normalize raw) = Ok c1
    /\ rule2 sectors (pd_Series (normalize raw) sectors) = Ok c2
    /\ rule3 sectors (pd_Series (normalize raw) sectors) = Ok c3
    /\ rule4 sectors (pd_Series (normalize raw) sectors) = Ok c4
    /\ rule5 sectors (pd_Series (normalize raw) sectors) = Ok c5
    /\ r = {| timestamp := String.append now "Z";
              input_weights := pd_Series (normalize raw) sectors;
              checks := [c1; c2; c3; c4; c5];
              summary := summarize [c1; c2; c3; c4; c5] |}.
Proof.
  unfold run_rules, rbind.
  destruct (rule1 _ _) as [c1|]; [|discriminate].
  destruct (rule2 _ _) as [c2|]; [|discriminate].
  destruct (rule3 _ _) as [c3|]; [|discriminate].
  destruct (rule4 _ _) as [c4|]; [|discriminate].
  destruct (rule5 _ _) as [c5|]; [|discriminate].
  intros H. inversion H; subst; clear H.
  exists c1, c2, c3, c4, c5. repeat split; reflexivity.
Qed.

Lemma evaluate_run d verbose now :
  evaluate d verbose now
  = match rmap (dict_getitem d) (dict_keys d) with
    | Raise e => Raise e
    | Ok raw => run_rules (dict_keys d) raw now
    end.
Proof.
  unfold evaluate, call. rewrite check_portfolio_rules_run. simpl.
  destruct (rmap _ _) as [raw|]; [|reflexivity].
  destruct (run_rules _ _ _); reflexivity.
Qed.

Lemma evaluate_inv d verbose now r :
  evaluate d verbose now = Ok r ->
  exists raw, rmap (dict_getitem d) (dict_keys d) = Ok raw
              /\ length raw = length d
              /\ run_rules (dict_keys d) raw now = Ok r.
Proof.
  rewrite evaluate_run.
  destruct (read_raw_ok d) as [raw [Hraw Hlen]]. rewrite Hraw.
  intros H. exists raw. auto.
Qed.

Lemma evaluate_nodup d verbose now :
  NoDup (dict_keys d) ->
  evaluate d verbose now = run_rules (dict_keys d) (map snd d) now.
Proof.
  intros Hnd. rewrite evaluate_run. now rewrite read_raw_nodup.
Qed.

End Shape.

(* ===================================================================== *)
(** * When a call returns a report *)
(* ===================================================================== *)

Section Success.

Context {F : Type} {N : Number F}.

Lemma normalize_length (raw : list F) :
  length (normalize raw) = length raw.
Proof. unfold normalize. apply length_map. Qed.

Lemma pd_Series_keys (weights : list F) (sectors : list string) :
  length weights = length sectors ->
  dict_keys (pd_Series weights sectors) = sectors.
Proof.
  unfold dict_keys, pd_Series. revert weights.
  induction sectors as [|s sectors IH]; intros [|w weights] H;
    simpl in *; try discriminate; try reflexivity.
  f_equal. apply IH. lia.
Qed.

Lemma index_from_spec (l : list string) (s : string) (k i : nat) :
  index_from l s k = Some i ->
  k <= i /\ i - k < length l /\ nth (i - k) l "" = s.
Proof.
  revert k. induction l as [|x l IH]; intros k H; simpl in H; [discriminate|].
  destruct (String.eqb_spec x s) as [->|Hne].
  - inversion H; subst. rewrite Nat.sub_diag. simpl. repeat split; lia.
  - apply IH in H. destruct H as (H1 & H2 & H3).
    replace (i - k) with (S (i - S k)) by lia. simpl. repeat split; try lia.
    assumption.
Qed.

Lemma index_from_none (l : list string) (s : string) (k : nat) :
  index_from l s k = None <-> str_in s l = false.
Proof.
  unfold str_in. revert k. induction l as [|x l IH]; intros k; simpl.
  - tauto.
  - rewrite (String.eqb_sym s x).
    destruct (String.eqb x s); simpl; [split; discriminate|apply IH].
Qed.

Lemma list_index_ok (l : list string) (s : string) :
  is_ok (list_index l s) = str_in s l.
Proof.
  unfold list_index. destruct (index_from l s 0) eqn:E; simpl.
  - destruct (str_in s l) eqn:E'; [reflexivity|].
    apply index_from_none with (k := 0) in E'. congruence.
  - apply index_from_none in E. now rewrite E.
Qed.

Lemma list_index_raise (l : list string) (s : string) e :
  list_index l s = Raise e -> exists msg, e = ValueError msg.
Proof.
  unfold list_index. destruct (index_from l s 0); [discriminate|].
  intros H. inversion H. eauto.
Qed.

Lemma matrix_set_length (m : @matrix F) i j v :
  length (matrix_set m i j v) = length m.
Proof. unfold matrix_set. apply list_set_length. Qed.

Lemma fill_pairs_ok sectors pairs (m : @matrix F) :
  is_ok (fill_pairs sectors pairs m)
  = forallb (fun p => str_in (fst p) sectors && str_in (snd p) sectors) pairs.
Proof.
  revert m. induction pairs as [|[s1 s2] pairs IH]; intros m; simpl;
    [reflexivity|].
  rewrite <- !list_index_ok.
  destruct (list_index sectors s1) as [i|]; simpl; [|reflexivity].
  destruct (list_index sectors s2) as [j|]; simpl; [|reflexivity].
  apply IH.
Qed.

Lemma fill_pairs_length sectors pairs (m m' : @matrix F) :
  fill_pairs sectors pairs m = Ok m' -> length m' = length m.
Proof.
  revert m. induction pairs as [|[s1 s2] pairs IH]; intros m; simpl.
  - intros H. now inversion H.
  - destruct (list_index sectors s1) as [i|]; simpl; [|discriminate].
    destruct (list_index sectors s2) as [j|]; simpl; [|discriminate].
    intros H. apply IH in H. now rewrite !matrix_set_length in H.
Qed.

Lemma fill_pairs_raise sectors pairs (m : @matrix F) e :
  fill_pairs sectors pairs m = Raise e -> exists msg, e = ValueError msg.
Proof.
  revert m. induction pairs as [|[s1 s2] pairs IH]; intros m; simpl;
    [discriminate|].
  destruct (list_index sectors s1) as [i|] eqn:E1; simpl;
    [|intros H; inversion H; subst; eapply list_index_raise; eassumption].
  destruct (list_index sectors s2) as [j|] eqn:E2; simpl;
    [|intros H; inversion H; subst; eapply list_index_raise; eassumption].
  apply IH.
Qed.

Lemma np_identity_length (n : nat) : length (np_identity n) = n.
Proof. unfold np_identity. now rewrite length_map, length_seq. Qed.

Lemma adjacency_of_length (m : @matrix F) :
  length (adjacency_of m) = length m.
Proof.
  unfold adjacency_of, fill_diagonal.
  rewrite length_map, length_combine, length_seq, length_map. lia.
Qed.

(** Every index the search emits is an index of the matrix. *)
Lemma components_in_range (adj : adjacency) (comp : list nat) (i : nat) :
  In comp (connected_components_from_adj adj) -> In i comp ->
  i < length adj.
Proof.
  intros Hc Hi.
  assert (H : In i (concat (connected_components_from_adj adj))).
  { apply in_concat. eauto. }
  eapply Permutation_in in H; [|apply connected_components_partition].
  apply in_seq in H. lia.
Qed.

Lemma cluster_of_ok sectors (series : dict F) (m : @matrix F) comp :
  dict_keys series = sectors ->
  (forall i, In i comp -> i < length sectors) ->
  is_ok (cluster_of sectors series m comp) = true.
Proof.
  intros Hk Hr. unfold cluster_of, rbind.
  assert (H : is_ok (series_select series
                       (map (fun i => nth i sectors "") comp)) = true).
  { rewrite series_select_ok, Hk. apply forallb_forall.
    intros s Hs. apply in_map_iff in Hs. destruct Hs as [i [<- Hi]].
    apply str_in_In. apply nth_In. now apply Hr. }
  destruct (series_select _ _); [reflexivity|discriminate].
Qed.

Lemma clusters_rmap_ok sectors (series : dict F) pairs (m : @matrix F) :
  dict_keys series = sectors ->
  fill_pairs sectors pairs (np_identity (length sectors)) = Ok m ->
  is_ok (rmap (cluster_of sectors series m)
              (connected_components_from_adj (adjacency_of m))) = true.
Proof.
  intros Hk E. rewrite rmap_ok. apply forallb_forall. intros comp Hc.
  apply cluster_of_ok; [assumption|].
  intros i Hi. pose proof (components_in_range _ _ _ Hc Hi) as H.
  rewrite adjacency_of_length in H.
  apply fill_pairs_length in E. rewrite np_identity_length in E. lia.
Qed.

Lemma correlated_clusters_ok sectors (series : dict F) :
  dict_keys series = sectors ->
  is_ok (correlated_clusters sectors series) = table_sectors_present sectors.
Proof.
  intros Hk. unfold correlated_clusters, table_sectors_present, rbind.
  rewrite <- (fill_pairs_ok sectors high_corr_pairs
                (np_identity (length sectors))).
  destruct (fill_pairs _ _ _) as [m|] eqn:E; [|reflexivity].
  simpl. eapply clusters_rmap_ok; eassumption.
Qed.

Lemma correlated_clusters_raise sectors (series : dict F) e :
  dict_keys series = sectors ->
  correlated_clusters sectors series = Raise e ->
  exists msg, e = ValueError msg.
Proof.
  intros Hk. unfold correlated_clusters, rbind.
  destruct (fill_pairs _ _ _) as [m|e'] eqn:E.
  - pose proof (clusters_rmap_ok _ _ _ _ Hk E) as H.
    destruct (rmap _ _); [discriminate|discriminate].
  - intros H. inversion H; subst. eapply fill_pairs_raise; eassumption.
Qed.

Lemma select_present_ok (series : dict F) (sectors labels : list string) :
  dict_keys series = sectors ->
  is_ok (series_select series (filter (fun s => str_in s sectors) labels))
  = true.
Proof.
  intros Hk. rewrite series_select_ok, Hk. apply forallb_forall.
  intros s Hs. apply filter_In in Hs. tauto.
Qed.

Lemma rule2_ok sectors (series : dict F) :
  dict_keys series = sectors ->
  is_ok (rule2 sectors series) = table_sectors_present sectors.
Proof.
  intros Hk. rewrite <- (correlated_clusters_ok sectors series Hk).
  unfold rule2, rbind. now destruct (correlated_clusters _ _).
Qed.

Lemma rule3_ok sectors (series : dict F) :
  dict_keys series = sectors -> is_ok (rule3 sectors series) = true.
Proof.
  intros Hk. unfold rule3, rbind.
  pose proof (select_present_ok series sectors defensive Hk) as H.
  destruct (series_select _ _); [reflexivity|discriminate].
Qed.

Lemma rule4_ok sectors (series : dict F) :
  dict_keys series = sectors -> is_ok (rule4 sectors series) = true.
Proof.
  intros Hk. unfold rule4, rbind.
  destruct (filter _ sectors) as [|s reits] eqn:E; [reflexivity|].
  assert (H : is_ok (series_select series (s :: reits)) = true).
  { rewrite series_select_ok, Hk, <- E. apply forallb_forall.
    intros x Hx. apply filter_In in Hx. apply str_in_In. tauto. }
  destruct (series_select _ _); [reflexivity|discriminate].
Qed.

Lemma rule5_ok sectors (series : dict F) :
  dict_keys series = sectors -> is_ok (rule5 sectors series) = true.
Proof.
  intros Hk. unfold rule5, rbind.
  pose proof (select_present_ok series sectors ["Energy"; "Materials"] Hk) as H.
  destruct (filter _ _) as [|s em]; [reflexivity|].
  destruct (series_select _ _); [reflexivity|discriminate].
Qed.

Lemma rule1_ok sectors (weights : list F) :
  is_ok (rule1 sectors weights) = negb (length weights =? 0).
Proof. unfold rule1. destruct weights; reflexivity. Qed.

Lemma run_rules_ok sectors (raw : list F) now :
  length raw = length sectors ->
  is_ok (run_rules sectors raw now)
  = negb (length sectors =? 0) && table_sectors_present sectors.
Proof.
  intros Hlen.
  assert (Hk : dict_keys (pd_Series (normalize raw) sectors) = sectors).
  { apply pd_Series_keys. now rewrite normalize_length. }
  pose proof (rule1_ok sectors (normalize raw)) as H1.
  pose proof (rule2_ok _ _ Hk) as H2.
  pose proof (rule3_ok _ _ Hk) as H3.
  pose proof (rule4_ok _ _ Hk) as H4.
  pose proof (rule5_ok _ _ Hk) as H5.
  rewrite normalize_length, Hlen in H1.
  unfold run_rules, rbind. rewrite <- H1, <- H2.
  destruct (rule1 _ _); [|reflexivity].
  destruct (rule2 _ _); [|reflexivity].
  destruct (rule3 _ _); [|discriminate].
  destruct (rule4 _ _); [|discriminate].
  destruct (rule5 _ _); [|discriminate].
  reflexivity.
Qed.

(** A call returns a report exactly when the portfolio is not empty and
    holds every sector of the correlation table; the weights play no part
    in it. *)
Lemma evaluate_ok d verbose now :
  is_ok (evaluate d verbose now)
  = negb (length d =? 0) && table_sectors_present (dict_keys d).
Proof.
  rewrite evaluate_run.
  destruct (read_raw_ok d) as [raw [Hraw Hlen]]. rewrite Hraw.
  rewrite run_rules_ok; unfold dict_keys; rewrite length_map; auto.
Qed.

(** Whatever a call raises is a [ValueError]. *)
Lemma evaluate_raise d verbose now e :
  evaluate d verbose now = Raise e -> exists msg, e = ValueError msg.
Proof.
  rewrite evaluate_run.
  destruct (read_raw_ok d) as [raw [Hraw Hlen]]. rewrite Hraw.
  assert (Hk : dict_keys (pd_Series (normalize raw) (dict_keys d)) = dict_keys d).
  { apply pd_Series_keys. rewrite normalize_length.
    unfold dict_keys. now rewrite length_map. }
  pose proof (rule3_ok _ _ Hk) as H3.
  pose proof (rule4_ok _ _ Hk) as H4.
  pose proof (rule5_ok _ _ Hk) as H5.
  unfold run_rules, rbind.
  destruct (rule1 _ _) as [c1|e1] eqn:E1.
  - destruct (rule2 _ _) as [c2|e2] eqn:E2.
    + destruct (rule3 _ _); [|discriminate].
      destruct (rule4 _ _); [|discriminate].
      destruct (rule5 _ _); discriminate.
    + intros H; inversion H; subst; clear H.
      unfold rule2, rbind in E2.
      destruct (correlated_clusters _ _) as [cl|e2] eqn:E; [discriminate|].
      inversion E2; subst; clear E2.
      eapply correlated_clusters_raise; eassumption.
  - intros H; inversion H; subst; clear H.
    unfold rule1, rbind in E1.
    destruct (normalize raw); simpl in E1; [|discriminate].
    inversion E1. eauto.
Qed.

End Success.

Lemma nodupb_NoDup (l : list string) : nodupb l = true -> NoDup l.
Proof.
  induction l as [|x l IH]; simpl; intros H; constructor.
  - apply andb_prop in H. destruct H as [H _].
    intros Hin. apply str_in_In in Hin. rewrite Hin in H. discriminate.
  - apply IH. apply andb_prop in H. tauto.
Qed.

(* ===================================================================== *)
(** * Input checking, missing sectors *)
(* ===================================================================== *)

(** C1 (as stated, refuted).  A mapping with a negative weight, and one whose
    weights sum to zero, are both evaluated to a full report: nothing is
    raised. *)
Lemma invalid_weights_are_evaluated :
  existsb (fun p => ltb (snd p) (fromZ 0)) Portfolios.with_negative = true
  /\ is_ok (evaluate Portfolios.with_negative false Portfolios.noon) = true
  /\ np_sum (map snd Portfolios.all_zero) = 0%float
  /\ is_ok (evaluate Portfolios.all_zero false Portfolios.noon) = true.
Proof. vm_compute. repeat split; reflexivity. Qed.

(** C1 (amended).  The evaluator does not check the weights: whether a call
    returns a report or raises depends on the sector names only, so two
    mappings with the same keys both succeed or both fail whatever their
    weights are; whatever is raised is a [ValueError]; and the empty mapping
    fails with the [ValueError] of Rule 1's [argmax]. *)
Theorem weights_are_not_validated {F : Type} {N : Number F}
    (d d' : dict F) (verbose verbose' : bool) (now now' : string) :
  dict_keys d = dict_keys d' ->
  is_ok (evaluate d verbose now) = is_ok (evaluate d' verbose' now')
  /\ (forall e, evaluate d verbose now = Raise e -> exists msg, e = ValueError msg)
  /\ evaluate (@nil (string * F)) verbose now
     = Raise (ValueError "attempt to get argmax of an empty sequence").
Proof.
  intros Hk. split; [|split].
  - rewrite !evaluate_ok, <- Hk.
    assert (Hl : length d = length d').
    { apply (f_equal (@length string)) in Hk. unfold dict_keys in Hk.
      now rewrite !length_map in Hk. }
    now rewrite Hl.
  - intros e. apply evaluate_raise.
  - destruct verbose; reflexivity.
Qed.

Lemma weights_are_not_validated_witness :
  is_ok (evaluate Portfolios.on_thresholds false Portfolios.noon)
  = is_ok (evaluate Portfolios.with_negative true Portfolios.noon).
Proof.
  apply (weights_are_not_validated Portfolios.on_thresholds
           Portfolios.with_negative false true Portfolios.noon Portfolios.noon).
  reflexivity.
Defined.

(** C2.  A portfolio that lacks a sector named in the correlation table is
    not evaluated at all: the lookup [sectors.index] of the absent name
    raises [ValueError], where the claim expects the pair to be skipped. *)
Theorem absent_table_sector_raises {F : Type} {N : Number F}
    (d : dict F) (verbose : bool) (now : string) :
  table_sectors_present (dict_keys d) = false ->
  exists msg, evaluate d verbose now = Raise (ValueError msg).
Proof.
  intros Habs.
  pose proof (evaluate_ok d verbose now) as Hok.
  rewrite Habs, andb_false_r in Hok.
  destruct (evaluate d verbose now) as [r|e] eqn:E; [discriminate|].
  destruct (evaluate_raise _ _ _ _ E) as [msg ->]. eauto.
Qed.

Lemma absent_table_sector_raises_witness :
  exists msg,
    evaluate Portfolios.only_energy false Portfolios.noon = Raise (ValueError msg).
Proof.
  apply (absent_table_sector_raises Portfolios.only_energy false Portfolios.noon).
  reflexivity.
Defined.

(** C7.  On the single-sector input [{Energy: 100}] no report is returned:
    the call raises [ValueError] at the first pair of the correlation table,
    in either verbosity and at any time. *)
Theorem single_energy_raises (verbose : bool) (now : string) :
  evaluate Portfolios.only_energy verbose now
  = Raise (ValueError "'Information Technology' is not in list").
Proof. rewrite evaluate_run. reflexivity. Qed.

(* ===================================================================== *)
(** * Summary counts, verbosity, the caller's dict *)
(* ===================================================================== *)

Section Frame.

Context {F : Type} {N : Number F}.

Lemma count_status_cons st (c : Finding F) checks :
  count_status st (c :: checks)
  = (if status_eqb (status c) st then 1 else 0) + count_status st checks.
Proof.
  unfold count_status. simpl. now destruct (status_eqb (status c) st).
Qed.

Lemma run_rules_checks sectors raw now (r : Report F) :
  run_rules sectors raw now = Ok r ->
  exists c1 c2 c3 c4 c5,
    checks r = [c1; c2; c3; c4; c5]
    /\ summary r = summarize (checks r)
    /\ rule c1 = 1 /\ rule c2 = 2 /\ rule c3 = 3 /\ rule c4 = 4 /\ rule c5 = 5
    /\ status c2 = ANALYZED.
Proof.
  intros H. apply run_rules_inv in H.
  destruct H as (c1 & c2 & c3 & c4 & c5 & H1 & H2 & H3 & H4 & H5 & ->).
  apply rule1_inv in H1. destruct H1 as (? & _ & R1 & _).
  apply rule2_inv in H2. destruct H2 as (? & _ & R2 & S2 & _).
  apply rule3_inv in H3. destruct H3 as (? & _ & R3 & _).
  apply rule4_inv in H4. destruct H4 as (? & _ & R4 & _).
  apply rule5_inv in H5. destruct H5 as (? & _ & R5 & _).
  exists c1, c2, c3, c4, c5. simpl. repeat split; assumption.
Qed.

Lemma run_rules_clock sectors raw now1 now2 :
  same_but_timestamp (run_rules sectors raw now1) (run_rules sectors raw now2).
Proof.
  unfold run_rules, rbind.
  destruct (rule1 _ _); [|reflexivity].
  destruct (rule2 _ _); [|reflexivity].
  destruct (rule3 _ _); [|reflexivity].
  destruct (rule4 _ _); [|reflexivity].
  destruct (rule5 _ _); [|reflexivity].
  simpl. auto.
Qed.

End Frame.

(** C6.  In every report Rule 2's finding has status ANALYZED, and the two
    counts of the summary are the numbers of top-level findings with status
    HARD_VIOLATION and SOFT_WARNING; these are the same numbers counted over
    the findings of rules 1, 3, 4 and 5 alone, so nothing nested in Rule 2's
    finding is counted. *)
Theorem summary_counts_top_level {F : Type} {N : Number F}
    (d : dict F) (verbose : bool) (now : string) (r : Report F) :
  evaluate d verbose now = Ok r ->
  map (@rule F) (checks r) = [1; 2; 3; 4; 5]
  /\ status_of_rule 2 r = Some ANALYZED
  /\ (forall c, In c (checks r) -> rule c = 2 -> status c = ANALYZED)
  /\ hard_violations_count (summary r) = count_status HARD_VIOLATION (checks r)
  /\ soft_warnings_count (summary r) = count_status SOFT_WARNING (checks r)
  /\ hard_violations_count (summary r)
     = count_status HARD_VIOLATION (graded (checks r))
  /\ soft_warnings_count (summary r)
     = count_status SOFT_WARNING (graded (checks r)).
Proof.
  intros H. apply evaluate_inv in H. destruct H as (raw & _ & _ & H).
  apply run_rules_checks in H.
  destruct H as (c1 & c2 & c3 & c4 & c5 & Hc & Hs & R1 & R2 & R3 & R4 & R5 & S2).
  assert (Hg : graded (checks r) = [c1; c3; c4; c5]).
  { unfold graded. rewrite Hc. simpl. now rewrite R1, R2, R3, R4, R5. }
  assert (Hcount : forall st, st <> ANALYZED ->
            count_status st (checks r) = count_status st (graded (checks r))).
  { intros st Hst. rewrite Hg, Hc. rewrite !count_status_cons, S2.
    destruct st; try reflexivity. congruence. }
  split; [rewrite Hc; simpl; congruence|].
  split; [unfold status_of_rule, finding_of; rewrite Hc; simpl;
          rewrite R1, R2; simpl; congruence|].
  split.
  { rewrite Hc. intros c [<-|[<-|[<-|[<-|[<-|[]]]]]] Hr; congruence. }
  rewrite <- !Hcount by discriminate.
  rewrite Hs. unfold summarize, with_status, count_status. simpl.
  repeat split.
Qed.

Lemma summary_counts_top_level_witness :
  exists r,
    evaluate Portfolios.heavy_cluster false Portfolios.noon = Ok r
    /\ hard_violations_count (summary r)
       = count_status HARD_VIOLATION (graded (checks r)).
Proof.
  eexists. split.
  - vm_compute. reflexivity.
  - eapply (summary_counts_top_level Portfolios.heavy_cluster false Portfolios.noon).
    vm_compute. reflexivity.
Defined.

(** A cluster-level HARD_VIOLATION that the summary does not count: in
    [heavy_cluster] the first cluster weighs 75 and is reported as a hard
    violation inside Rule 2's finding, while [hard_violations_count] is 0. *)
Example nested_violation_not_counted :
  exists r c2 comps viols,
    evaluate Portfolios.heavy_cluster false Portfolios.noon = Ok r
    /\ finding_of 2 r = Some c2
    /\ detail c2 = Clusters comps viols
    /\ map (@viol_status float) viols = [HARD_VIOLATION]
    /\ hard_violations_count (summary r) = 0.
Proof.
  do 4 eexists. split; [vm_compute; reflexivity|].
  split; [vm_compute; reflexivity|].
  split; [vm_compute; reflexivity|].
  split; vm_compute; reflexivity.
Qed.

(** C9.  The verbose flag has no effect on what a call returns or raises; two
    calls that differ in the flag and in the time of the call return reports
    that differ in the timestamp at most. *)
Theorem verbose_does_not_change_report {F : Type} {N : Number F}
    (d : dict F) (now now' : string) :
  evaluate d true now = evaluate d false now
  /\ same_but_timestamp (evaluate d true now) (evaluate d false now').
Proof.
  rewrite !evaluate_run.
  destruct (rmap _ _) as [raw|e]; [|split; reflexivity].
  split; [reflexivity|apply run_rules_clock].
Qed.

(** C10.  A call leaves the dict it was given as it found it (and the clock
    too); all it may change is standard output, and only in verbose mode. *)
Theorem caller_dict_unchanged {F : Type} {N : Number F}
    (verbose : bool) (w : World F) :
  sector_weights (snd (check_portfolio_rules verbose w)) = sector_weights w
  /\ utc_clock (snd (check_portfolio_rules verbose w)) = utc_clock w
  /\ (verbose = false -> snd (check_portfolio_rules verbose w) = w).
Proof.
  rewrite check_portfolio_rules_run.
  destruct (rmap _ _) as [raw|e]; [|repeat split].
  destruct (run_rules _ _ _) as [r|e]; [|repeat split].
  destruct verbose; simpl; repeat split. discriminate.
Qed.

(* ===================================================================== *)
(** * The order of binary64 *)
(* ===================================================================== *)

Section FloatOrder.

Local Open Scope Z_scope.


Lemma SFleb_key (x y : spec_float) :
  x <> S754_nan -> y <> S754_nan ->
  (SFleb x y = true <-> key_le (order_key x) (order_key y)).
Proof.
  intros Hx Hy. unfold SFleb.
  destruct x as [sx|sx| |sx mx ex], y as [sy|sy| |sy my ey];
    try congruence; try destruct sx; try destruct sy; simpl;
    try (split; [intros _; lia|reflexivity]);
    try (split; [discriminate|intros H; exfalso; lia]).
  - destruct (Z.compare_spec ex ey) as [E|E|E]; simpl;
      try (split; [intros _; lia|reflexivity]);
      try (split; [discriminate|intros H; exfalso; lia]).
    subst. change (Pos.compare_cont Eq mx my) with (Pos.compare mx my).
    destruct (Pos.compare_spec mx my) as [E'|E'|E']; simpl;
      try (split; [intros _; lia|reflexivity]);
      try (split; [discriminate|intros H; exfalso; lia]).
  - destruct (Z.compare_spec ex ey) as [E|E|E]; simpl;
      try (split; [intros _; lia|reflexivity]);
      try (split; [discriminate|intros H; exfalso; lia]).
    subst. change (Pos.compare_cont Eq mx my) with (Pos.compare mx my).
    destruct (Pos.compare_spec mx my) as [E'|E'|E']; simpl;
      try (split; [intros _; lia|reflexivity]);
      try (split; [discriminate|intros H; exfalso; lia]).
Qed.

Lemma key_le_trans (a b c : Z * Z * Z) :
  key_le a b -> key_le b c -> key_le a c.
Proof.
  destruct a as [[a1 a2] a3], b as [[b1 b2] b3], c as [[c1 c2] c3].
  unfold key_le. lia.
Qed.

Lemma key_le_total (a b : Z * Z * Z) : key_le a b \/ key_le b a.
Proof.
  destruct a as [[a1 a2] a3], b as [[b1 b2] b3]. unfold key_le. lia.
Qed.

End FloatOrder.

Lemma is_nan_spec (x : float) :
  PrimFloat.is_nan x = false <-> Prim2SF x <> S754_nan.
Proof.
  unfold PrimFloat.is_nan. rewrite FloatAxioms.eqb_spec. unfold SFeqb.
  destruct (Prim2SF x) as [s|s| |s m e]; simpl.
  - split; [discriminate|reflexivity].
  - destruct s; split; try discriminate; reflexivity.
  - split; [discriminate|congruence].
  - rewrite Z.compare_refl.
    change (Pos.compare_cont Eq m m) with (Pos.compare m m).
    rewrite Pos.compare_refl.
    destruct s; split; try discriminate; reflexivity.
Qed.

(** On doubles that are not NaN, [<=] is transitive and total. *)
Lemma leb_trans (x y z : float) :
  PrimFloat.is_nan x = false -> PrimFloat.is_nan y = false ->
  PrimFloat.is_nan z = false ->
  PrimFloat.leb x y = true -> PrimFloat.leb y z = true ->
  PrimFloat.leb x z = true.
Proof.
  rewrite !is_nan_spec, !leb_spec. intros Hx Hy Hz.
  rewrite !SFleb_key by assumption. apply key_le_trans.
Qed.

Lemma leb_total (x y : float) :
  PrimFloat.is_nan x = false -> PrimFloat.is_nan y = false ->
  PrimFloat.leb x y = false -> PrimFloat.leb y x = true.
Proof.
  rewrite !is_nan_spec, !leb_spec. intros Hx Hy H.
  apply SFleb_key; try assumption.
  destruct (key_le_total (order_key (Prim2SF x)) (order_key (Prim2SF y)))
    as [K|K]; [|assumption].
  apply SFleb_key in K; try assumption. congruence.
Qed.

Lemma SFltb_key (x y : spec_float) :
  x <> S754_nan -> y <> S754_nan ->
  (SFltb x y = true <-> key_lt (order_key x) (order_key y)).
Proof.
  intros Hx Hy. unfold SFltb.
  destruct x as [sx|sx| |sx mx ex], y as [sy|sy| |sy my ey];
    try congruence; try destruct sx; try destruct sy; simpl;
    try (split; [intros _; lia|reflexivity]);
    try (split; [discriminate|intros H; exfalso; lia]).
  - destruct (Z.compare_spec ex ey) as [E|E|E]; simpl;
      try (split; [intros _; lia|reflexivity]);
      try (split; [discriminate|intros H; exfalso; lia]).
    subst. change (Pos.compare_cont Eq mx my) with (Pos.compare mx my).
    destruct (Pos.compare_spec mx my) as [E'|E'|E']; simpl;
      try (split; [intros _; lia|reflexivity]);
      try (split; [discriminate|intros H; exfalso; lia]).
  - destruct (Z.compare_spec ex ey) as [E|E|E]; simpl;
      try (split; [intros _; lia|reflexivity]);
      try (split; [discriminate|intros H; exfalso; lia]).
    subst. change (Pos.compare_cont Eq mx my) with (Pos.compare mx my).
    destruct (Pos.compare_spec mx my) as [E'|E'|E']; simpl;
      try (split; [intros _; lia|reflexivity]);
      try (split; [discriminate|intros H; exfalso; lia]).
Qed.

(** On doubles that are not NaN, [not (x <= y)] is [y < x]. *)
Lemma ltb_of_not_leb (x y : float) :
  PrimFloat.is_nan x = false -> PrimFloat.is_nan y = false ->
  PrimFloat.leb x y = false -> PrimFloat.ltb y x = true.
Proof.
  rewrite !is_nan_spec, leb_spec, ltb_spec. intros Hx Hy H.
  apply SFltb_key; try assumption.
  assert (K : ~ key_le (order_key (Prim2SF x)) (order_key (Prim2SF y))).
  { intros K. apply SFleb_key in K; try assumption. congruence. }
  revert K. destruct (order_key (Prim2SF x)) as [[a1 a2] a3].
  destruct (order_key (Prim2SF y)) as [[b1 b2] b3].
  unfold key_le, key_lt. lia.
Qed.

Lemma leb_not_nan (x y : float) :
  PrimFloat.leb x y = true -> PrimFloat.is_nan y = false.
Proof.
  rewrite leb_spec, is_nan_spec. unfold SFleb. intros H E. rewrite E in H.
  destruct (Prim2SF x); discriminate.
Qed.



(* ===================================================================== *)
(** * Thresholds *)
(* ===================================================================== *)

Section Tiers.

Context {F : Type} {N : Number F}.


End Tiers.










(* ===================================================================== *)
(** * Clusters *)
(* ===================================================================== *)

Section Clusters.

Context {F : Type} {N : Number F}.

Lemma rmap_inv {A B} (f : A -> Result B) (l : list A) (ys : list B) :
  rmap f l = Ok ys -> Forall2 (fun x y => f x = Ok y) l ys.
Proof.
  revert ys. induction l as [|x l IH]; simpl; intros ys H.
  - inversion H. constructor.
  - destruct (f x) as [y|] eqn:E; simpl in H; [|discriminate].
    destruct (rmap f l) as [ys'|]; simpl in H; [|discriminate].
    inversion H; subst. constructor; auto.
Qed.

Lemma nth_all {A} (l : list A) (dflt : A) :
  map (fun i => nth i l dflt) (seq 0 (length l)) = l.
Proof.
  induction l as [|x l IH]; simpl; [reflexivity|].
  f_equal. rewrite <- seq_shift, map_map. exact IH.
Qed.

(** In a series with distinct labels, the label at position [i] selects the
    value at position [i]. *)
Lemma series_getitem_nth (sectors : list string) (weights : list F) (i : nat) :
  NoDup sectors -> length weights = length sectors -> i < length sectors ->
  dict_getitem (pd_Series weights sectors) (nth i sectors "")
  = Ok (nth i weights (fromZ 0)).
Proof.
  unfold pd_Series, dict_getitem. revert weights i.
  induction sectors as [|s sectors IH]; intros [|w weights] i Hnd Hlen Hi;
    simpl in *; try lia.
  inversion Hnd as [|? ? Hnotin Hnd']; subst.
  destruct i as [|i].
  - now rewrite String.eqb_refl.
  - destruct (String.eqb_spec s (nth i sectors "")) as [->|Hne].
    + exfalso. apply Hnotin. apply nth_In. lia.
    + apply IH; auto; lia.
Qed.

Lemma series_select_nth (sectors : list string) (weights : list F)
    (comp : list nat) :
  NoDup sectors -> length weights = length sectors ->
  (forall i, In i comp -> i < length sectors) ->
  series_select (pd_Series weights sectors)
                (map (fun i => nth i sectors "") comp)
  = Ok (map (fun i => nth i weights (fromZ 0)) comp).
Proof.
  intros Hnd Hlen. unfold series_select.
  induction comp as [|i comp IH]; intros Hr; simpl; [reflexivity|].
  rewrite (series_getitem_nth sectors weights i Hnd Hlen (Hr i (or_introl eq_refl))).
  simpl. rewrite (IH (fun k Hk => Hr k (or_intror Hk))). reflexivity.
Qed.

(** What the grouping step computes, in terms of the components of the
    search: the member names and the member weights of each cluster are read
    off the portfolio at the indices of one component. *)
Lemma correlated_clusters_inv (sectors : list string) (weights : list F)
    (clusters : list (@Cluster F)) :
  NoDup sectors -> length weights = length sectors ->
  correlated_clusters sectors (pd_Series weights sectors) = Ok clusters ->
  exists comps,
    Permutation (concat comps) (seq 0 (length sectors))
    /\ map (@comp_sectors F) clusters
       = map (map (fun i => nth i sectors "")) comps
    /\ map (@comp_weight F) clusters
       = map (fun comp => pd_sum (map (fun i => nth i weights (fromZ 0)) comp))
             comps.
Proof.
  intros Hnd Hlen. unfold correlated_clusters, rbind.
  destruct (fill_pairs _ _ _) as [m|] eqn:Em; [|discriminate].
  intros H.
  pose proof (connected_components_partition (adjacency_of m)) as Hp.
  rewrite adjacency_of_length in Hp.
  apply fill_pairs_length in Em. rewrite np_identity_length in Em.
  rewrite Em in Hp.
  set (comps := connected_components_from_adj (adjacency_of m)) in *.
  exists comps. split; [exact Hp|].
  assert (Hr : forall comp, In comp comps ->
                 forall i, In i comp -> i < length sectors).
  { intros comp Hc i Hi.
    assert (Hin : In i (concat comps)) by (apply in_concat; eauto).
    eapply Permutation_in in Hin; [|exact Hp]. apply in_seq in Hin. lia. }
  apply rmap_inv in H. clearbody comps. clear Hp.
  induction H as [|comp c comps clusters Hc _ IH]; [split; reflexivity|].
  destruct IH as [IH1 IH2];
    [intros comp' Hc' i Hi; exact (Hr comp' (or_intror Hc') i Hi)|].
  unfold cluster_of, rbind in Hc.
  rewrite (series_select_nth sectors weights comp Hnd Hlen
             (Hr comp (or_introl eq_refl))) in Hc.
  inversion Hc; subst c; clear Hc. simpl.
  rewrite IH1, IH2. split; reflexivity.
Qed.

(** In lists without a common element, an element of their concatenation
    lies in exactly one of them. *)
Lemma in_exactly_one (ls : list (list string)) (s : string) :
  NoDup (concat ls) -> In s (concat ls) ->
  length (filter (fun l => str_in s l) ls) = 1.
Proof.
  induction ls as [|l ls IH]; simpl; intros Hnd Hin; [contradiction|].
  assert (Hdisj : forall x, In x l -> ~ In x (concat ls)).
  { clear -Hnd. induction l as [|y l IHl]; simpl in *; intros x Hx; [contradiction|].
    inversion Hnd as [|? ? Hy Hnd']; subst. destruct Hx as [<-|Hx].
    - intros Hc. apply Hy. apply in_or_app. now right.
    - now apply IHl. }
  apply NoDup_app_remove_l in Hnd as Hnd'.
  destruct (str_in s l) eqn:E.
  - apply str_in_In in E. simpl. f_equal.
    assert (Hnone : forall l', In l' ls -> str_in s l' = false).
    { intros l' Hl'. destruct (str_in s l') eqn:E'; [|reflexivity].
      apply str_in_In in E'. exfalso. apply (Hdisj s E).
      apply in_concat. eauto. }
    clear -Hnone. induction ls as [|l' ls IH']; simpl; [reflexivity|].
    rewrite (Hnone l') by now left. apply IH'. intros; apply Hnone. now right.
  - apply IH; [assumption|].
    apply in_app_or in Hin. destruct Hin as [Hin|Hin]; [|assumption].
    apply str_in_In in Hin. congruence.
Qed.

(** Clusters partition the sectors, and carry every weight once. *)
Lemma clusters_partition (sectors : list string) (weights : list F)
    (clusters : list (@Cluster F)) :
  NoDup sectors -> length weights = length sectors ->
  correlated_clusters sectors (pd_Series weights sectors) = Ok clusters ->
  Permutation (concat (map (@comp_sectors F) clusters)) sectors
  /\ (forall s, In s sectors ->
        length (filter (fun c => str_in s (comp_sectors c)) clusters) = 1)
  /\ exists parts,
       Permutation (concat parts) weights
       /\ map (@comp_weight F) clusters = map pd_sum parts
       /\ Forall2 (fun c part =>
                     series_select (pd_Series weights sectors) (comp_sectors c)
                     = Ok part)
                  clusters parts.
Proof.
  intros Hnd Hlen H.
  destruct (correlated_clusters_inv _ _ _ Hnd Hlen H) as (comps & Hp & Hs & Hw).
  assert (Hperm : Permutation (concat (map (@comp_sectors F) clusters)) sectors).
  { rewrite Hs, <- concat_map.
    apply Permutation_trans
      with (map (fun i => nth i sectors "") (seq 0 (length sectors))).
    - now apply Permutation_map.
    - rewrite nth_all. apply Permutation_refl. }
  split; [exact Hperm|]. split.
  - intros s Hin.
    assert (Hf : length (filter (fun c => str_in s (comp_sectors c)) clusters)
                 = length (filter (fun l => str_in s l)
                                  (map (@comp_sectors F) clusters))).
    { clear. induction clusters as [|c cs IHc]; simpl; [reflexivity|].
      destruct (str_in s (comp_sectors c)); simpl; now rewrite IHc. }
    rewrite Hf. apply in_exactly_one.
    + eapply Permutation_NoDup; [symmetry; exact Hperm|exact Hnd].
    + eapply Permutation_in; [symmetry; exact Hperm|exact Hin].
  - exists (map (map (fun i => nth i weights (fromZ 0))) comps).
    split; [|split].
    + rewrite <- concat_map.
      apply Permutation_trans
        with (map (fun i => nth i weights (fromZ 0)) (seq 0 (length weights))).
      * rewrite Hlen. now apply Permutation_map.
      * rewrite nth_all. apply Permutation_refl.
    + now rewrite Hw, map_map.
    + assert (Hr : forall comp, In comp comps ->
                     forall i, In i comp -> i < length sectors).
      { intros comp Hc i Hi.
        assert (Hin : In i (concat comps)) by (apply in_concat; eauto).
        eapply Permutation_in in Hin; [|exact Hp]. apply in_seq in Hin. lia. }
      clear Hp Hw Hperm H. revert clusters Hs.
      induction comps as [|comp comps IH]; intros [|c clusters] Hs;
        simpl in Hs; try discriminate; constructor.
      * inversion Hs as [[Hc Hrest]]. rewrite Hc.
        apply series_select_nth; auto.
        exact (Hr comp (or_introl eq_refl)).
      * apply IH;
          [intros comp' Hc' i Hi; exact (Hr comp' (or_intror Hc') i Hi)|].
        now inversion Hs.
Qed.

End Clusters.

(* ===================================================================== *)
(** * Pairwise summation *)
(* ===================================================================== *)

Section Pairwise.

Context {F : Type} {N : Number F}.

(** The three branches of [DOUBLE_pairwise_sum]. *)
Lemma pairwise_sum_eq (a : list F) :
  pairwise_sum a
  = if length a <? 8 then fold_left add a (fromZ 0)
    else if length a <=? 128 then block_sum a
    else let n2 := length a / 2 - (length a / 2) mod 8 in
         add (pairwise_sum (firstn n2 a)) (pairwise_sum (skipn n2 a)).
Proof.
  funelim (pairwise_sum a).
  - destruct (Nat.ltb_spec (length a) 8); [reflexivity|lia].
  - destruct (Nat.ltb_spec (length a) 8); [lia|].
    destruct (Nat.leb_spec (length a) 128); [reflexivity|lia].
  - destruct (Nat.ltb_spec (length a) 8); [lia|].
    destruct (Nat.leb_spec (length a) 128); [lia|]. reflexivity.
Qed.

(** A sum of fewer than eight elements is the left-to-right sum. *)
Lemma pairwise_sum_short (a : list F) :
  length a < 8 -> pairwise_sum a = fold_left add a (fromZ 0).
Proof.
  intros H. rewrite pairwise_sum_eq.
  destruct (Nat.ltb_spec (length a) 8); [reflexivity|lia].
Qed.

Section Closed.

(** A set of numbers that holds zero and is closed under addition holds
    every sum of its members. *)
Variable P : F -> Prop.
Hypothesis P_zero : P (fromZ 0).
Hypothesis P_add : forall x y, P x -> P y -> P (add x y).

Lemma fold_left_closed (a : list F) (acc : F) :
  P acc -> Forall P a -> P (fold_left add a acc).
Proof using P_add.
  revert acc. induction a as [|x a IH]; intros acc Hacc Ha; simpl;
    [assumption|].
  inversion Ha; subst. apply IH; auto.
Qed.

Lemma add_lanes_closed (r chunk : list F) :
  Forall P r -> Forall P chunk -> Forall P (add_lanes r chunk).
Proof using P_add.
  unfold add_lanes. revert chunk.
  induction r as [|x r IH]; intros [|y chunk] Hr Hc; simpl; constructor;
    inversion Hr; inversion Hc; subst; auto.
Qed.

Lemma Forall_firstn {A} (Q : A -> Prop) (n : nat) (l : list A) :
  Forall Q l -> Forall Q (firstn n l).
Proof.
  intros H. rewrite <- (firstn_skipn n l) in H. apply Forall_app in H. tauto.
Qed.

Lemma Forall_skipn {A} (Q : A -> Prop) (n : nat) (l : list A) :
  Forall Q l -> Forall Q (skipn n l).
Proof.
  intros H. rewrite <- (firstn_skipn n l) in H. apply Forall_app in H. tauto.
Qed.

Lemma unrolled_closed (k : nat) (r a : list F) :
  Forall P r -> Forall P a ->
  Forall P (fst (unrolled k r a)) /\ Forall P (snd (unrolled k r a)).
Proof using P_add.
  revert r a. induction k as [|k IH]; intros r a Hr Ha; cbn [unrolled];
    [now split|].
  apply IH.
  - apply add_lanes_closed; [assumption|now apply Forall_firstn].
  - now apply Forall_skipn.
Qed.

Lemma nth_closed (r : list F) (i : nat) :
  Forall P r -> P (nth i r (fromZ 0)).
Proof using P_zero.
  intros H. destruct (Nat.lt_ge_cases i (length r)) as [Hi|Hi].
  - rewrite Forall_forall in H. apply H. now apply nth_In.
  - now rewrite nth_overflow.
Qed.

Lemma block_sum_closed (a : list F) :
  Forall P a -> P (block_sum a).
Proof using P_zero P_add.
  intros Ha. unfold block_sum.
  destruct (unrolled_closed (length a / 8 - 1) (firstn 8 a) (skipn 8 a))
    as [Hr Hrest];
    [now apply Forall_firstn|now apply Forall_skipn|].
  destruct (unrolled _ _ _) as [r rest]. simpl in Hr, Hrest.
  apply fold_left_closed; [|assumption].
  unfold sum_lanes. repeat apply P_add; now apply nth_closed.
Qed.

Lemma pairwise_sum_closed (a : list F) :
  Forall P a -> P (pairwise_sum a).
Proof using P_zero P_add.
  remember (length a) as n eqn:En. revert a En.
  induction n as [n IH] using lt_wf_ind. intros a En Ha.
  rewrite pairwise_sum_eq.
  destruct (Nat.ltb_spec (length a) 8); [now apply fold_left_closed|].
  destruct (Nat.leb_spec (length a) 128); [now apply block_sum_closed|].
  cbv zeta.
  assert (H2 : length a / 2 < length a) by (apply Nat.div_lt; lia).
  assert (H8 : (length a / 2) mod 8 < 8) by (apply Nat.mod_upper_bound; lia).
  assert (H64 : 64 <= length a / 2) by (apply Nat.div_le_lower_bound; lia).
  set (n2 := length a / 2 - (length a / 2) mod 8) in *.
  apply P_add.
  - apply (IH (length (firstn n2 a))); [|reflexivity|now apply Forall_firstn].
    rewrite length_firstn. subst n. lia.
  - apply (IH (length (skipn n2 a))); [|reflexivity|now apply Forall_skipn].
    rewrite length_skipn. subst n. lia.
Qed.

Lemma np_sum_closed (a : list F) :
  Forall P a -> P (np_sum a).
Proof using P_zero P_add.
  intros Ha. unfold np_sum. apply P_add; [assumption|].
  now apply pairwise_sum_closed.
Qed.

End Closed.

End Pairwise.

(* ===================================================================== *)
(** * Signs in binary64 *)
(* ===================================================================== *)

Section Signs.

Lemma shr_1_nonneg (mrs : shr_record) :
  (0 <= shr_m mrs)%Z -> (0 <= shr_m (shr_1 mrs))%Z.
Proof.
  destruct mrs as [m r s]. simpl.
  destruct m as [|p|p]; simpl; intros H; try lia.
  - destruct p; simpl; lia.
Qed.

Lemma iter_pos_nonneg (p : positive) (mrs : shr_record) :
  (0 <= shr_m mrs)%Z -> (0 <= shr_m (iter_pos shr_1 p mrs))%Z.
Proof.
  revert mrs. induction p as [p IH|p IH|]; intros mrs H; simpl.
  - apply IH, IH. now apply shr_1_nonneg.
  - now apply IH, IH.
  - now apply shr_1_nonneg.
Qed.

Lemma shr_fexp_nonneg (m e : Z) (l : location) :
  (0 <= m)%Z -> (0 <= shr_m (fst (shr_fexp prec emax m e l)))%Z.
Proof.
  intros H. unfold shr_fexp, shr.
  assert (H0 : (0 <= shr_m (shr_record_of_loc m l))%Z).
  { destruct l as [|[| |]]; simpl; assumption. }
  destruct (fexp prec emax (Zdigits2 m + e) - e)%Z; simpl; try assumption.
  now apply iter_pos_nonneg.
Qed.

Lemma round_nearest_even_nonneg (m : Z) (l : location) :
  (0 <= m)%Z -> (0 <= round_nearest_even m l)%Z.
Proof.
  intros H. unfold round_nearest_even.
  destruct l as [|[| |]]; try lia. destruct (Z.even m); lia.
Qed.

Lemma binary_round_aux_plus (mx ex : Z) (lx : location) :
  (0 <= mx)%Z -> plus_signed (binary_round_aux prec emax false mx ex lx).
Proof.
  intros H. unfold binary_round_aux.
  pose proof (shr_fexp_nonneg mx ex lx H) as H1.
  destruct (shr_fexp prec emax mx ex lx) as [mrs' e']. simpl in H1.
  pose proof (shr_fexp_nonneg _ e' loc_Exact
                (round_nearest_even_nonneg _ (loc_of_shr_record mrs') H1)) as H2.
  destruct (shr_fexp prec emax _ e' loc_Exact) as [mrs'' e'']. simpl in H2.
  destruct (shr_m mrs'') as [|m|m]; simpl; try reflexivity; [|lia].
  destruct (e'' <=? _)%Z; exact eq_refl.
Qed.

Lemma SFadd_plus (x y : spec_float) :
  plus_signed x -> plus_signed y -> plus_signed (SFadd prec emax x y).
Proof.
  destruct x as [sx|sx| |sx mx ex], y as [sy|sy| |sy my ey]; simpl;
    intros Hx Hy; subst; try contradiction; try reflexivity.
  unfold binary_normalize, cond_Zopp.
  match goal with
  | |- plus_signed (match ?z with _ => _ end) =>
      assert (Hz : (0 < z)%Z) by lia; destruct z as [|mz|mz]
  end; try lia.
  unfold binary_round.
  destruct (shl_align _ _ _) as [mz' ez]. now apply binary_round_aux_plus.
Qed.

Lemma SFmul_plus (x : spec_float) (my : positive) (ey : Z) :
  plus_signed x ->
  plus_signed (SFmul prec emax x (S754_finite false my ey)).
Proof.
  destruct x as [sx|sx| |sx mx ex]; simpl; intros Hx; subst;
    try contradiction; try exact eq_refl.
  apply binary_round_aux_plus. lia.
Qed.

Lemma SFdiv_plus (mx : positive) (ex : Z) (y : spec_float) :
  plus_signed y ->
  plus_signed (SFdiv prec emax (S754_finite false mx ex) y).
Proof.
  destruct y as [sy|sy| |sy my ey]; simpl; intros Hy; subst;
    try contradiction; try reflexivity.
  unfold SFdiv_core_binary.
  set (s := (ex - ey - _)%Z).
  set (m' := match s with Z.pos _ => Z.shiftl (Z.pos mx) s | 0%Z => Z.pos mx
                        | Z.neg _ => 0%Z end).
  assert (Hm : (0 <= m')%Z).
  { unfold m'. destruct s; try lia. apply Z.shiftl_nonneg. lia. }
  pose proof (Z.div_pos m' (Z.pos my) Hm ltac:(lia)) as Hq.
  unfold Z.div in Hq.
  destruct (Z.div_eucl m' (Z.pos my)) as [q r].
  now apply binary_round_aux_plus.
Qed.

Lemma positive_finite (w : float) :
  PrimFloat.ltb 0 w = true -> PrimFloat.ltb w infinity = true ->
  exists m e, Prim2SF w = S754_finite false m e.
Proof.
  rewrite !ltb_spec. change (Prim2SF 0) with (S754_zero false).
  change (Prim2SF infinity) with (S754_infinity false).
  destruct (Prim2SF w) as [s|s| |s m e]; simpl; try discriminate.
  - destruct s; discriminate.
  - destruct s; [discriminate|]. eauto.
Qed.

Lemma plus_signed_leb (x : float) :
  plus_signed (Prim2SF x) -> PrimFloat.leb 0 x = true.
Proof.
  rewrite leb_spec. change (Prim2SF 0) with (S754_zero false).
  destruct (Prim2SF x) as [s|s| |s m e]; simpl; intros H; subst;
    try contradiction; reflexivity.
Qed.

Lemma np_sum_plus (ws : list float) :
  (forall w, In w ws -> plus_signed (Prim2SF w)) ->
  plus_signed (Prim2SF (np_sum ws)).
Proof.
  intros Hw.
  apply (np_sum_closed (fun x : float => plus_signed (Prim2SF x))).
  - reflexivity.
  - intros x y Hx Hy. simpl add. rewrite add_spec. now apply SFadd_plus.
  - apply Forall_forall. exact Hw.
Qed.

(** Positive finite weights have non-negative normalised weights, whatever
    rounding or overflow occurs on the way. *)
Lemma normalize_nonneg (ws : list float) :
  (forall w, In w ws ->
     PrimFloat.ltb 0 w = true /\ PrimFloat.ltb w infinity = true) ->
  forall x, In x (normalize ws) -> PrimFloat.leb 0 x = true.
Proof.
  intros Hpos x Hx. unfold normalize in Hx.
  apply in_map_iff in Hx. destruct Hx as (w & <- & Hw).
  destruct (Hpos w Hw) as [H0 Hinf].
  destruct (positive_finite w H0 Hinf) as (m & e & Ew).
  assert (Hs : plus_signed (Prim2SF (np_sum ws))).
  { apply np_sum_plus.
    intros w' Hw'. destruct (Hpos w' Hw') as [H0' Hinf'].
    destruct (positive_finite w' H0' Hinf') as (m' & e' & ->). reflexivity. }
  pose proof (SFdiv_plus m e _ Hs) as Hd.
  rewrite <- Ew in Hd. change (SFdiv prec emax) with SF64div in Hd.
  rewrite <- div_spec in Hd.
  apply plus_signed_leb. simpl mul. rewrite mul_spec.
  change (Prim2SF (fromZ 100)) with (S754_finite false 7036874417766400 (-46)).
  now apply SFmul_plus.
Qed.

End Signs.

(* ===================================================================== *)
(** * Normalisation *)
(* ===================================================================== *)

(** Nine positive weights of [2^1023] have an infinite binary64 total; every
    normalised weight is then 0 and their sum is 0, not 100. *)
Lemma normalized_sum_lost_on_overflow :
  forallb (fun p => ltb (fromZ 0) (snd p)) Portfolios.huge = true
  /\ np_sum (map snd Portfolios.huge) = infinity
  /\ normalize (map snd Portfolios.huge) = repeat 0%float 9
  /\ within tolerance (np_sum (normalize (map snd Portfolios.huge))) 100 = false.
Proof. vm_compute. repeat split; reflexivity. Qed.

(** Whenever the total of positive finite weights overflows, every
    normalised weight is 0. *)
Lemma normalize_of_overflow (raw : list float) :
  (forall w, In w raw ->
     PrimFloat.ltb 0 w = true /\ PrimFloat.ltb w infinity = true) ->
  np_sum raw = infinity ->
  normalize raw = map (fun _ => 0%float) raw.
Proof.
  intros Hpos Hinf. unfold normalize. rewrite Hinf.
  apply map_ext_in. intros w Hw. destruct (Hpos w Hw) as [H0 H1].
  destruct (positive_finite w H0 H1) as (m & e & Ew).
  assert (Hd : PrimFloat.div w infinity = 0%float).
  { rewrite <- (SF2Prim_Prim2SF (PrimFloat.div w infinity)).
    rewrite div_spec, Ew. reflexivity. }
  simpl div. simpl mul. rewrite Hd. reflexivity.
Qed.




(* ===================================================================== *)
(** * Clusters partition the portfolio *)
(* ===================================================================== *)

(** For the nine positive weights of [2^1023] the grouping step yields four
    clusters whose weight sums are all 0: they add up to 0, not to 100. *)
Lemma cluster_sums_lost_on_overflow :
  forallb (fun p => ltb (fromZ 0) (snd p)) Portfolios.huge = true
  /\ exists clusters,
       clusters_of Portfolios.huge = Ok clusters
       /\ map (@comp_weight float) clusters = repeat 0%float 4
       /\ within tolerance (np_sum (map (@comp_weight float) clusters)) 100
          = false.
Proof.
  split; [reflexivity|]. eexists. split; [vm_compute; reflexivity|].
  split; vm_compute; reflexivity.
Qed.

(* ===================================================================== *)
(** * The module's example *)
(* ===================================================================== *)

(** The run of the [__main__] block: no rule is violated, the cluster of
    Information Technology, Communication Services and Consumer
    Discretionary weighs exactly 50 and is therefore not reported, and the
    normalised weights add up to 100 within the tolerance. *)
Example example_run :
  exists r,
    evaluate Portfolios.example_weights true Portfolios.noon = Ok r
    /\ map (@status float) (checks r) = [OK; ANALYZED; OK; OK; OK]
    /\ hard_violations_count (summary r) = 0
    /\ soft_warnings_count (summary r) = 0
    /\ (exists c2 comps, finding_of 2 r = Some c2
                         /\ detail c2 = Clusters comps []
                         /\ length comps = 6)
    /\ within tolerance (np_sum (map snd (input_weights r))) 100 = true.
Proof.
  eexists. split; [vm_compute; reflexivity|].
  split; [reflexivity|]. split; [reflexivity|]. split; [reflexivity|].
  split; [do 2 eexists; repeat split; vm_compute; reflexivity|].
  vm_compute. reflexivity.
Qed.

(** The lines printed by that run: a header, the totals and one line per
    rule. *)
Example example_trace :
  length (stdout (snd (call Portfolios.example_weights true Portfolios.noon)))
  = 7
  /\ stdout (snd (call Portfolios.example_weights false Portfolios.noon)) = [].
Proof. split; vm_compute; reflexivity. Qed.

(* ===================================================================== *)
(** * The components are the connectivity classes *)
(* ===================================================================== *)


Section Connectivity.

Variable adj : adjacency.
Variable n : nat.

Lemma linked_trans (u v w : nat) :
  linked adj n u v -> linked adj n v w -> linked adj n u w.
Proof.
  intros Huv Hvw. induction Hvw as [|x y Hvx IH Hxy]; [assumption|].
  eapply linked_step; eassumption.
Qed.

Lemma linked_sym (u v : nat) :
  symmetric adj -> n = length adj -> linked adj n u v -> linked adj n v u.
Proof.
  intros Hsym Hn H. induction H as [|x y Hux IH Hxy]; [constructor|].
  apply linked_trans with (v := x); [|assumption].
  destruct Hxy as (Hx & Hy & Ha).
  apply linked_step with (v := y); [constructor|].
  repeat split; try assumption. rewrite Hsym; [assumption|lia|lia].
Qed.

(** A property of the three loop variables that every round of the [while]
    loop keeps holds when the loop ends. *)
Lemma dfs_loop_invariant (P : list bool -> list nat -> list nat -> Prop) :
  (forall visited u stack comp,
     P visited (u :: stack) comp ->
     P (fst (visit_neighbours adj n u visited stack))
       (snd (visit_neighbours adj n u visited stack))
       (comp ++ [u])) ->
  forall visited stack comp,
    P visited stack comp ->
    P (fst (dfs_loop adj n visited stack comp)) []
      (snd (dfs_loop adj n visited stack comp)).
Proof.
  intros Hstep visited stack comp.
  funelim (dfs_loop adj n visited stack comp); intros HP.
  - exact HP.
  - apply (H P Hstep). now apply Hstep.
Qed.

Lemma visit_step_mono u st v k :
  is_visited (fst st) k = true ->
  is_visited (fst (visit_step adj u st v)) k = true.
Proof.
  destruct st as [visited stack]. unfold visit_step. simpl.
  destruct (adj_get adj u v); simpl; [|auto].
  destruct (is_visited visited v) eqn:E; simpl; [auto|].
  intros Hk. unfold is_visited.
  rewrite list_set_nth by now apply is_visited_range.
  destruct (k =? v); [reflexivity|exact Hk].
Qed.

Lemma visit_fold_mono u vs st k :
  is_visited (fst st) k = true ->
  is_visited (fst (fold_left (visit_step adj u) vs st)) k = true.
Proof.
  revert st. induction vs as [|v vs IH]; intros st H; cbn [fold_left];
    [assumption|].
  apply IH. now apply visit_step_mono.
Qed.

Lemma visit_fold_length u vs st :
  length (fst (fold_left (visit_step adj u) vs st)) = length (fst st).
Proof.
  revert st. induction vs as [|v vs IH]; intros st; cbn [fold_left];
    [reflexivity|].
  rewrite IH. destruct st as [visited stack]. unfold visit_step.
  destruct (adj_get adj u v && negb (is_visited visited v)); simpl;
    [apply list_set_length|reflexivity].
Qed.

(** After the inner loop every neighbour of [u] is marked. *)
Lemma visit_fold_marks u vs st v :
  In v vs -> adj_get adj u v = true ->
  is_visited (fst (fold_left (visit_step adj u) vs st)) v = true.
Proof.
  revert st. induction vs as [|x vs IH]; intros st Hin Ha; [contradiction|].
  cbn [fold_left]. destruct Hin as [->|Hin]; [|now apply IH].
  apply visit_fold_mono. destruct st as [visited stack].
  unfold visit_step. rewrite Ha. simpl.
  destruct (is_visited visited v) eqn:E; simpl; [assumption|].
  unfold is_visited. rewrite list_set_nth by now apply is_visited_range.
  now rewrite Nat.eqb_refl.
Qed.

(** What the inner loop pushes are neighbours of [u]. *)
Lemma visit_fold_pushed u vs st k :
  In k (snd (fold_left (visit_step adj u) vs st)) ->
  In k (snd st) \/ (In k vs /\ adj_get adj u k = true).
Proof.
  revert st. induction vs as [|v vs IH]; intros st H; cbn [fold_left] in H;
    [now left|].
  apply IH in H. destruct H as [H|[H1 H2]]; [|right; split; [now right|assumption]].
  destruct st as [visited stack]. unfold visit_step in H.
  destruct (adj_get adj u v) eqn:Ea; simpl in H; [|now left].
  destruct (is_visited visited v); simpl in H; [now left|].
  destruct H as [<-|H]; [|now left].
  right. split; [now left|assumption].
Qed.

(** The search from a fresh root [i]: the component starts with [i], holds
    only indices linked to [i], and every neighbour of its members is
    marked when it is emitted. *)
Lemma dfs_from_root (visited : list bool) (i : nat) :
  i < n -> length visited = n ->
  let r := dfs_loop adj n (list_set visited i true) [i] [] in
  (exists rest, snd r = i :: rest)
  /\ (forall k, In k (snd r) -> linked adj n i k)
  /\ (forall u v, In u (snd r) -> v < n -> adj_get adj u v = true ->
        is_visited (fst r) v = true).
Proof.
  intros Hi Hlen r.
  set (P := fun (vis : list bool) (stack comp : list nat) =>
              ((comp = [] /\ stack = [i]) \/ exists rest, comp = i :: rest)
              /\ (forall k, In k (stack ++ comp) -> k < n /\ linked adj n i k)
              /\ (forall u v, In u comp -> v < n -> adj_get adj u v = true ->
                    is_visited vis v = true)).
  assert (HP : P (fst r) [] (snd r)).
  { unfold r. apply (dfs_loop_invariant P).
    - unfold P. intros vis u stack comp (Hhead & Hlink & Hclosed).
      unfold visit_neighbours. split; [|split].
      + right. destruct Hhead as [[-> Hs]|[rest ->]].
        * inversion Hs; subst. now exists [].
        * now exists (rest ++ [u]).
      + intros k Hk. destruct (Hlink u) as [Hu Hlu]; [now left|].
        rewrite !in_app_iff in Hk. destruct Hk as [Hk|[Hk|Hk]].
        * apply visit_fold_pushed in Hk. simpl in Hk.
          destruct Hk as [Hk|[Hk Ha]].
          -- apply Hlink. simpl. right. apply in_or_app. now left.
          -- apply in_seq in Hk. split; [lia|].
             eapply linked_step; [exact Hlu|]. repeat split; auto. lia.
        * apply Hlink. simpl. right. apply in_or_app. now right.
        * destruct Hk as [<-|[]]. now split.
      + intros x v Hx Hv Ha. rewrite in_app_iff in Hx.
        destruct Hx as [Hx|[<-|[]]].
        * apply visit_fold_mono. simpl. now apply (Hclosed x v).
        * apply visit_fold_marks; [|assumption]. apply in_seq. lia.
    - unfold P. split; [|split].
      + left. now split.
      + intros k [<-|[]]. split; [assumption|constructor].
      + intros u v []. }
  destruct HP as (Hhead & Hlink & Hclosed).
  split; [|split].
  - destruct Hhead as [[_ Hs]|H]; [discriminate|exact H].
  - intros k Hk. now apply Hlink.
  - exact Hclosed.
Qed.


Lemma StronglySorted_snoc (l : list nat) (x : nat) :
  StronglySorted lt l -> (forall y, In y l -> y < x) ->
  StronglySorted lt (l ++ [x]).
Proof.
  induction 1 as [|y l Hl IH Hy]; intros Hx; simpl.
  - repeat constructor.
  - constructor.
    + apply IH. intros z Hz. apply Hx. now right.
    + apply Forall_app. split; [assumption|].
      constructor; [|constructor]. apply Hx. now left.
Qed.

Lemma component_step_so_far (a : nat) st :
  a < n -> components_so_far adj n a st ->
  components_so_far adj n (S a) (component_step adj n st a).
Proof.
  intros Ha (Hseen & Hdone & Hcomps & Hsorted).
  destruct st as [visited comps]. simpl in *.
  unfold component_step.
  destruct (is_visited visited a) eqn:E; cbn [negb].
  - unfold components_so_far. cbn [fst snd].
    split; [assumption|]. split; [|split; [|assumption]].
    + intros k Hk. destruct (Nat.eq_dec k a) as [->|Hne].
      * destruct Hseen as (_ & _ & Hin). apply Hin. now split.
      * apply Hdone. lia.
    + intros comp Hc. destruct (Hcomps comp Hc)
        as (h & rest & -> & Hh & Hmin & Hlink & Hcl).
      exists h, rest.
      split; [reflexivity|]. split; [lia|]. split; [exact Hmin|].
      split; [exact Hlink|exact Hcl].
  - pose proof (component_step_seen adj n (visited, comps) a Ha Hseen)
      as (Hseen' & _ & _).
    unfold component_step in Hseen'. simpl in Hseen'. rewrite E in Hseen'.
    simpl in Hseen'.
    assert (Hlen : length visited = n) by apply Hseen.
    destruct (dfs_from_root visited a Ha Hlen) as ((rest & Hr) & Hlink & Hclosed).
    set (r := dfs_loop adj n (list_set visited a true) [a] []) in *.
    rewrite concat_app in Hseen'. simpl in Hseen'. rewrite app_nil_r in Hseen'.
    assert (Hnd : NoDup (concat comps ++ snd r)) by apply Hseen'.
    assert (Hfresh : forall k, In k (snd r) -> ~ In k (concat comps)).
    { intros k Hk Hc. apply NoDup_app_remove_l in Hnd as Hnd2.
      clear -Hnd Hk Hc. induction (concat comps) as [|x l IH]; [contradiction|].
      simpl in Hnd. inversion Hnd as [|? ? Hx Hnd']; subst.
      destruct Hc as [->|Hc]; [|now apply IH].
      apply Hx. apply in_or_app. now right. }
    assert (Hrest : forall k, In k rest -> a < k).
    { intros k Hk.
      assert (Hk' : In k (snd r)) by (rewrite Hr; now right).
      destruct (Nat.lt_trichotomy k a) as [Hlt|[->|Hgt]]; [| |assumption].
      - exfalso. apply (Hfresh k Hk'). now apply Hdone.
      - exfalso. apply NoDup_app_remove_l in Hnd. rewrite Hr in Hnd.
        inversion Hnd; subst. contradiction. }
    unfold components_so_far. cbn [fst snd].
    split; [|split; [|split]].
    + rewrite concat_app. simpl. now rewrite app_nil_r.
    + intros k Hk. rewrite concat_app. simpl. rewrite app_nil_r.
      apply in_or_app. destruct (Nat.eq_dec k a) as [->|Hne].
      * right. rewrite Hr. now left.
      * left. apply Hdone. lia.
    + intros comp Hc. apply in_app_or in Hc. destruct Hc as [Hc|[<-|[]]].
      * destruct (Hcomps comp Hc) as (h & rest' & -> & Hh & Hmin & Hl & Hcl).
        exists h, rest'.
        split; [reflexivity|]. split; [lia|]. split; [exact Hmin|].
        split; [exact Hl|].
        intros u v Hu Hv Hadj. destruct (Hcl u v Hu Hv Hadj) as [H|H];
          [now left|].
        right. destruct H as (comp' & H1 & H2 & H3).
        exists comp'. split; [apply in_or_app; now left|]. now split.
      * exists a, rest.
        split; [exact Hr|]. split; [lia|]. split; [exact Hrest|].
        split; [exact Hlink|].
        intros u v Hu Hv Hadj.
        pose proof (Hclosed u v Hu Hv Hadj) as Hvis.
        destruct Hseen' as (_ & _ & Hin').
        assert (Hv' : In v (concat comps ++ snd r)) by (apply Hin'; now split).
        apply in_app_or in Hv'. destruct Hv' as [Hv'|Hv']; [|now left].
        right. apply in_concat in Hv'. destruct Hv' as (comp' & H1 & H2).
        exists comp'. split; [apply in_or_app; now left|]. split; [assumption|].
        destruct (Hcomps comp' H1) as (h & rest' & -> & Hh & _).
        simpl. exact Hh.
    + rewrite map_app. simpl. apply StronglySorted_snoc; [assumption|].
      intros y Hy. apply in_map_iff in Hy. destruct Hy as (comp & <- & Hc).
      destruct (Hcomps comp Hc) as (h & rest' & -> & Hh & _).
      rewrite Hr. simpl. exact Hh.
Qed.

Lemma components_fold_so_far (len a : nat) st :
  a + len <= n -> components_so_far adj n a st ->
  components_so_far adj n (a + len)
    (fold_left (component_step adj n) (seq a len) st).
Proof.
  revert a st. induction len as [|len IH]; intros a st Hle H; simpl.
  - now rewrite Nat.add_0_r.
  - rewrite <- Nat.add_succ_comm. apply IH; [lia|].
    apply component_step_so_far; [lia|assumption].
Qed.

End Connectivity.

Lemma components_at_end (adj : adjacency) :
  components_so_far adj (length adj) (length adj)
    (fold_left (component_step adj (length adj)) (seq 0 (length adj))
               (repeat false (length adj), [])).
Proof.
  apply (components_fold_so_far adj (length adj) (length adj) 0); [lia|].
  split; [apply seen_initial|]. split; [intros k Hk; lia|].
  split; [intros comp []|constructor].
Qed.

(** X1.  Every component is non-empty and begins with its smallest index,
    and the components come in increasing order of that index. *)
Theorem components_ordered (adj : adjacency) :
  (forall comp, In comp (connected_components_from_adj adj) ->
     exists h rest, comp = h :: rest /\ forall k, In k rest -> h < k)
  /\ StronglySorted lt (map (hd 0) (connected_components_from_adj adj)).
Proof.
  destruct (components_at_end adj) as (_ & _ & Hcomps & Hsorted).
  split; [|exact Hsorted].
  intros comp Hc. destruct (Hcomps comp Hc) as (h & rest & -> & _ & Hmin & _).
  eauto.
Qed.

(** X2.  Every member of a component is joined to the component's first
    index by a path of edges of the matrix, whatever the matrix. *)
Theorem component_members_linked (adj : adjacency) (comp : list nat) (k : nat) :
  In comp (connected_components_from_adj adj) -> In k comp ->
  linked adj (length adj) (hd 0 comp) k.
Proof.
  intros Hc Hk.
  destruct (components_at_end adj) as (_ & _ & Hcomps & _).
  destruct (Hcomps comp Hc) as (h & rest & -> & _ & _ & Hlink & _).
  simpl. now apply Hlink.
Qed.

Lemma in_one_component (comps : list (list nat)) (c1 c2 : list nat) (x : nat) :
  NoDup (concat comps) -> In c1 comps -> In c2 comps ->
  In x c1 -> In x c2 -> c1 = c2.
Proof.
  induction comps as [|c comps IH]; intros Hnd H1 H2 Hx1 Hx2; [contradiction|].
  simpl in Hnd.
  assert (Hsplit : forall c', In c' comps -> In x c' -> In x c -> False).
  { intros c' Hc' Hxc' Hxc.
    assert (Hin : In x (concat comps)) by (apply in_concat; eauto).
    clear -Hnd Hxc Hin. induction c as [|z c IHc]; [contradiction|].
    simpl in Hnd. inversion Hnd as [|? ? Hz Hnd']; subst.
    destruct Hxc as [->|Hxc]; [|now apply IHc].
    apply Hz. apply in_or_app. now right. }
  destruct H1 as [->|H1], H2 as [->|H2].
  - reflexivity.
  - exfalso. now apply (Hsplit c2).
  - exfalso. now apply (Hsplit c1).
  - apply IH; auto. now apply NoDup_app_remove_l in Hnd.
Qed.

(** On a symmetric matrix, a path joins two indices exactly when one
    component holds both. *)
Lemma linked_iff_component (adj : adjacency) (u v : nat) :
  symmetric adj -> u < length adj ->
  (linked adj (length adj) u v
   <-> exists comp, In comp (connected_components_from_adj adj)
                    /\ In u comp /\ In v comp).
Proof.
  intros Hsym Hu.
  destruct (components_at_end adj) as (Hseen & Hdone & Hcomps & _).
  change (snd (fold_left (component_step adj (length adj))
                 (seq 0 (length adj)) (repeat false (length adj), [])))
    with (connected_components_from_adj adj) in *.
  set (comps := connected_components_from_adj adj) in *.
  destruct Hseen as (_ & Hnd & _).
  assert (Hclosed : forall comp x y, In comp comps -> In x comp ->
                      edge adj (length adj) x y -> In y comp).
  { intros comp x y Hc Hx (Hxn & Hyn & Ha).
    destruct (Hcomps comp Hc) as (h & rest & Heq & _ & _ & _ & Hcl).
    destruct (Hcl x y Hx Hyn Ha) as [H|(comp' & Hc' & Hy' & Hlt)]; [assumption|].
    exfalso.
    destruct (Hcomps comp' Hc') as (h' & rest' & Heq' & _ & _ & _ & Hcl').
    assert (Hback : adj_get adj y x = true) by (rewrite Hsym; assumption).
    destruct (Hcl' y x Hy' Hxn Hback) as [Hx'|(comp'' & Hc'' & Hx'' & Hlt')].
    - assert (E : comp = comp') by (eapply in_one_component; eassumption).
      rewrite <- E, Heq in Hlt. simpl in Hlt. lia.
    - assert (E : comp = comp'') by (eapply in_one_component; eassumption).
      rewrite <- E, Heq in Hlt'. rewrite Heq' in Hlt.
      simpl in Hlt, Hlt'. lia. }
  split.
  - intros Hl.
    assert (Hin : In u (concat comps)) by now apply Hdone.
    apply in_concat in Hin. destruct Hin as (comp & Hc & Huc).
    exists comp. split; [assumption|]. split; [assumption|].
    induction Hl as [|x y Hux IH Hxy]; [assumption|].
    eapply Hclosed; eassumption.
  - intros (comp & Hc & Huc & Hvc).
    destruct (Hcomps comp Hc) as (h & rest & Heq & _ & _ & Hlink & _).
    apply linked_trans with (v := h).
    + apply linked_sym; auto.
    + now apply Hlink.
Qed.


(** X3.  On a symmetric matrix the components are the connectivity classes:
    two indices lie in the same component exactly when a path of edges joins
    them. *)
Theorem components_are_classes (adj : adjacency) (u v : nat) :
  symmetric adj -> u < length adj ->
  (linked adj (length adj) u v
   <-> exists comp, In comp (connected_components_from_adj adj)
                    /\ In u comp /\ In v comp).
Proof. apply linked_iff_component. Qed.

Lemma component_members_linked_witness : linked path_and_point 4 0 3.
Proof.
  apply (component_members_linked path_and_point [0; 1; 3] 3).
  - vm_compute. left. reflexivity.
  - right. right. left. reflexivity.
Defined.

Lemma components_are_classes_witness :
  linked path_and_point 4 3 0
  <-> exists comp, In comp (connected_components_from_adj path_and_point)
                   /\ In 3 comp /\ In 0 comp.
Proof.
  apply (components_are_classes path_and_point 3 0).
  - intros u v Hu Hv. simpl in Hu, Hv.
    destruct u as [|[|[|[|u]]]]; try lia;
      destruct v as [|[|[|[|v]]]]; try lia; reflexivity.
  - simpl. lia.
Defined.

(* ===================================================================== *)
(** * The graph of the correlation table *)
(* ===================================================================== *)


Section TableGraph.

Context {F : Type} {N : Number F}.

(** What the statements below need of the arithmetic: 0.7 is above the
    threshold 0.6 and 0 is not. *)
Hypothesis above : ltb lit_0_6 lit_0_7 = true.
Hypothesis below : ltb lit_0_6 (fromZ 0) = false.


Lemma square_row (n : nat) (m : @matrix F) (a : nat) :
  square n m -> a < n -> length (nth a m []) = n.
Proof.
  intros [Hlen Hrows] Ha. rewrite Forall_forall in Hrows.
  apply Hrows. apply nth_In. lia.
Qed.

Lemma np_identity_square (n : nat) : square n (np_identity n).
Proof.
  split; [apply np_identity_length|].
  unfold np_identity. apply Forall_forall. intros row Hrow.
  apply in_map_iff in Hrow. destruct Hrow as (i & <- & _).
  now rewrite length_map, length_seq.
Qed.

Lemma np_identity_get (n a b : nat) :
  a < n -> b < n ->
  matrix_get (np_identity n) a b = if a =? b then fromZ 1 else fromZ 0.
Proof.
  intros Ha Hb. unfold matrix_get, np_identity.
  rewrite nth_indep with (d' := (fun i => map (fun j => if i =? j then fromZ 1 else fromZ 0) (seq 0 n)) 0)
    by now rewrite length_map, length_seq.
  rewrite (map_nth (fun i => map (fun j => if i =? j then fromZ 1 else fromZ 0) (seq 0 n))).
  rewrite seq_nth by assumption. simpl.
  rewrite nth_indep with (d' := (fun j => if a =? j then fromZ 1 else fromZ 0) 0)
    by now rewrite length_map, length_seq.
  rewrite (map_nth (fun j => if a =? j then fromZ 1 else fromZ 0)).
  now rewrite seq_nth by assumption.
Qed.

Lemma matrix_set_square (n : nat) (m : @matrix F) i j v :
  square n m -> square n (matrix_set m i j v).
Proof.
  intros [Hlen Hrows]. split; [now rewrite matrix_set_length|].
  unfold matrix_set. apply Forall_forall. intros row Hrow.
  rewrite Forall_forall in Hrows.
  destruct (Nat.lt_ge_cases i (length m)) as [Hi|Hi].
  - apply In_nth with (d := []) in Hrow. destruct Hrow as (k & Hk & <-).
    rewrite list_set_length in Hk. rewrite list_set_nth by assumption.
    destruct (k =? i).
    + rewrite list_set_length. apply Hrows. apply nth_In. lia.
    + apply Hrows. now apply nth_In.
  - assert (E : list_set m i (list_set (nth i m []) j v) = m).
    { clear -Hi. revert i Hi. induction m as [|r m IH]; intros [|i] Hi;
        simpl in *; try reflexivity; try lia.
      f_equal. apply IH. lia. }
    rewrite E in Hrow. now apply Hrows.
Qed.

Lemma matrix_set_get (n : nat) (m : @matrix F) i j v a b :
  square n m -> i < n -> j < n ->
  matrix_get (matrix_set m i j v) a b
  = if (a =? i) && (b =? j) then v else matrix_get m a b.
Proof.
  intros Hsq Hi Hj. unfold matrix_get, matrix_set.
  destruct Hsq as [Hlen Hrows].
  rewrite list_set_nth by lia.
  destruct (a =? i) eqn:E; simpl; [|reflexivity].
  apply Nat.eqb_eq in E. subst a.
  rewrite list_set_nth; [reflexivity|].
  rewrite (square_row n m i (conj Hlen Hrows) Hi). exact Hj.
Qed.

Lemma list_index_range (sectors : list string) (s : string) (i : nat) :
  list_index sectors s = Ok i -> i < length sectors /\ nth i sectors "" = s.
Proof.
  unfold list_index. destruct (index_from sectors s 0) as [k|] eqn:E;
    [|discriminate].
  intros H. inversion H; subst. apply index_from_spec in E.
  rewrite Nat.sub_0_r in E. tauto.
Qed.

(** The correlation matrix after the loop over the pairs. *)
Lemma fill_pairs_get (sectors : list string) (pairs : list (string * string))
    (m m' : @matrix F) (a b : nat) :
  square (length sectors) m ->
  fill_pairs sectors pairs m = Ok m' ->
  square (length sectors) m'
  /\ matrix_get m' a b
     = if pairedb sectors pairs a b then lit_0_7 else matrix_get m a b.
Proof.
  revert m. induction pairs as [|[s1 s2] pairs IH]; intros m Hsq H; simpl in *.
  - inversion H; subst. now split.
  - destruct (list_index sectors s1) as [i|] eqn:E1; simpl in H; [|discriminate].
    destruct (list_index sectors s2) as [j|] eqn:E2; simpl in H; [|discriminate].
    destruct (list_index_range _ _ _ E1) as [Hi _].
    destruct (list_index_range _ _ _ E2) as [Hj _].
    assert (Hsq1 : square (length sectors) (matrix_set m i j lit_0_7))
      by now apply matrix_set_square.
    assert (Hsq2 : square (length sectors)
                     (matrix_set (matrix_set m i j lit_0_7) j i lit_0_7))
      by now apply matrix_set_square.
    destruct (IH _ Hsq2 H) as [Hsq' Hget]. split; [assumption|].
    rewrite Hget.
    rewrite (matrix_set_get (length sectors)) by assumption.
    rewrite (matrix_set_get (length sectors)) by assumption.
    destruct (pairedb sectors pairs a b); [now rewrite orb_true_r|].
    rewrite orb_false_r.
    destruct ((a =? i) && (b =? j)); simpl;
      destruct ((a =? j) && (b =? i)); reflexivity.
Qed.

Lemma adjacency_of_get (n : nat) (m : @matrix F) (a b : nat) :
  square n m -> a < n -> b < n ->
  adj_get (adjacency_of m) a b
  = if a =? b then false else ltb lit_0_6 (matrix_get m a b).
Proof.
  intros Hsq Ha Hb. pose proof Hsq as [Hlen Hrows].
  unfold adj_get, adjacency_of, fill_diagonal, matrix_get.
  set (f := fun c : F => ltb lit_0_6 c).
  set (g := fun ir : nat * list bool => list_set (snd ir) (fst ir) false).
  assert (Hnth : nth a (map g (combine (seq 0 (length (map (map f) m)))
                                       (map (map f) m))) []
                 = list_set (map f (nth a m [])) a false).
  { rewrite nth_indep with (d' := g (0, []))
      by (rewrite length_map, length_combine, length_seq, !length_map; lia).
    rewrite (map_nth g). rewrite combine_nth by now rewrite length_seq.
    rewrite seq_nth by (rewrite length_map; lia).
    unfold g. simpl.
    rewrite nth_indep with (d' := map f []) by (rewrite length_map; lia).
    now rewrite (map_nth (map f)). }
  rewrite Hnth.
  pose proof (square_row n m a Hsq Ha) as Hrow.
  rewrite list_set_nth by (rewrite length_map; lia).
  rewrite (Nat.eqb_sym b a).
  destruct (a =? b); [reflexivity|].
  rewrite nth_indep with (d' := f (fromZ 0)) by (rewrite length_map; lia).
  now rewrite (map_nth f).
Qed.

(** The adjacency matrix of a portfolio: two distinct positions are adjacent
    exactly when they hold the two sectors of a listed pair. *)
Lemma table_adjacency (sectors : list string) (m : @matrix F) (a b : nat) :
  fill_pairs sectors high_corr_pairs (np_identity (length sectors)) = Ok m ->
  a < length sectors -> b < length sectors ->
  adj_get (adjacency_of m) a b
  = negb (a =? b) && pairedb sectors high_corr_pairs a b.
Proof using above below.
  intros Hm Ha Hb.
  destruct (fill_pairs_get sectors high_corr_pairs _ m a b
              (np_identity_square _) Hm) as [Hsq Hget].
  rewrite (adjacency_of_get (length sectors)) by assumption.
  destruct (Nat.eqb_spec a b) as [->|Hne]; [reflexivity|]. cbn [negb andb].
  rewrite Hget.
  destruct (pairedb sectors high_corr_pairs a b) eqn:Ep; [exact above|].
  rewrite np_identity_get by assumption.
  destruct (Nat.eqb_spec a b); [congruence|exact below].
Qed.

Lemma pairedb_sym (sectors : list string) pairs (a b : nat) :
  pairedb sectors pairs a b = pairedb sectors pairs b a.
Proof.
  unfold pairedb. induction pairs as [|p pairs IH]; simpl; [reflexivity|].
  rewrite IH. f_equal.
  destruct (list_index sectors (fst p)); [|reflexivity].
  destruct (list_index sectors (snd p)); [|reflexivity].
  rewrite orb_comm. f_equal; apply andb_comm.
Qed.

Lemma table_adjacency_symmetric (sectors : list string) (m : @matrix F) :
  fill_pairs sectors high_corr_pairs (np_identity (length sectors)) = Ok m ->
  symmetric (adjacency_of m).
Proof using above below.
  intros Hm u v Hu Hv. rewrite adjacency_of_length in Hu, Hv.
  apply fill_pairs_length in Hm as Hlen. rewrite np_identity_length in Hlen.
  rewrite Hlen in Hu, Hv.
  rewrite !(table_adjacency sectors m) by assumption.
  now rewrite pairedb_sym, (Nat.eqb_sym u v).
Qed.

(** Adjacent positions hold sectors of one group. *)
Lemma pairedb_group (sectors : list string) (a b : nat) :
  pairedb sectors high_corr_pairs a b = true ->
  sector_group (nth a sectors "") = sector_group (nth b sectors "").
Proof.
  unfold pairedb. rewrite existsb_exists. intros ((s1 & s2) & Hin & H).
  simpl in H.
  destruct (list_index sectors s1) as [i|] eqn:E1; [|discriminate].
  destruct (list_index sectors s2) as [j|] eqn:E2; [|discriminate].
  apply list_index_range in E1. apply list_index_range in E2.
  destruct E1 as [_ E1], E2 as [_ E2].
  assert (G : sector_group s1 = sector_group s2).
  { simpl in Hin.
    repeat (destruct Hin as [Hin|Hin];
            [inversion Hin; subst; reflexivity|]).
    contradiction. }
  apply orb_prop in H. destruct H as [H|H]; apply andb_prop in H;
    destruct H as [Ha Hb]; apply Nat.eqb_eq in Ha, Hb; subst a b;
    rewrite E1, E2; congruence.
Qed.

Lemma linked_group (sectors : list string) (m : @matrix F) (a b : nat) :
  fill_pairs sectors high_corr_pairs (np_identity (length sectors)) = Ok m ->
  linked (adjacency_of m) (length sectors) a b ->
  sector_group (nth a sectors "") = sector_group (nth b sectors "").
Proof using above below.
  intros Hm H. induction H as [|x y Hax IH (Hx & Hy & Hxy)]; [reflexivity|].
  rewrite IH. rewrite (table_adjacency sectors m) in Hxy by assumption.
  apply andb_prop in Hxy. now apply pairedb_group.
Qed.

(** The two sectors of a listed pair are adjacent. *)
Lemma pair_edge (sectors : list string) (m : @matrix F) (s1 s2 : string) :
  fill_pairs sectors high_corr_pairs (np_identity (length sectors)) = Ok m ->
  In (s1, s2) high_corr_pairs ->
  exists i j, nth i sectors "" = s1 /\ nth j sectors "" = s2
              /\ edge (adjacency_of m) (length sectors) i j.
Proof using above below.
  intros Hm Hin.
  assert (Hok : is_ok (fill_pairs sectors high_corr_pairs
                         (np_identity (length sectors))) = true)
    by now rewrite Hm.
  rewrite fill_pairs_ok in Hok. rewrite forallb_forall in Hok.
  pose proof (Hok _ Hin) as H. simpl in H. apply andb_prop in H.
  destruct H as [H1 H2]. rewrite <- list_index_ok in H1, H2.
  destruct (list_index sectors s1) as [i|] eqn:E1; [|discriminate].
  destruct (list_index sectors s2) as [j|] eqn:E2; [|discriminate].
  destruct (list_index_range _ _ _ E1) as [Hi Hs1].
  destruct (list_index_range _ _ _ E2) as [Hj Hs2].
  exists i, j. split; [assumption|]. split; [assumption|].
  split; [assumption|]. split; [assumption|].
  rewrite (table_adjacency sectors m) by assumption.
  apply andb_true_intro. split.
  - apply negb_true_iff, Nat.eqb_neq. intros ->.
    assert (Hne : s1 <> s2).
    { simpl in Hin.
      repeat (destruct Hin as [Hin|Hin];
              [inversion Hin; subst; discriminate|]).
      contradiction. }
    congruence.
  - unfold pairedb. apply existsb_exists. exists (s1, s2).
    split; [assumption|]. simpl. rewrite E1, E2.
    now rewrite !Nat.eqb_refl.
Qed.

End TableGraph.

Section ClustersByGroup.

Context {F : Type} {N : Number F}.

Hypothesis above : ltb lit_0_6 lit_0_7 = true.
Hypothesis below : ltb lit_0_6 (fromZ 0) = false.

(** The member names of the clusters are read off the components of the
    table's adjacency matrix. *)
Lemma correlated_clusters_comps (sectors : list string) (weights : list F)
    (clusters : list (@Cluster F)) :
  NoDup sectors -> length weights = length sectors ->
  correlated_clusters sectors (pd_Series weights sectors) = Ok clusters ->
  exists m,
    fill_pairs sectors high_corr_pairs (np_identity (length sectors)) = Ok m
    /\ map (@comp_sectors F) clusters
       = map (map (fun i => nth i sectors ""))
             (connected_components_from_adj (adjacency_of m)).
Proof.
  intros Hnd Hlen. unfold correlated_clusters, rbind.
  destruct (fill_pairs _ _ _) as [m|] eqn:Em; [|discriminate].
  intros H. exists m. split; [reflexivity|].
  assert (Hr : forall comp, In comp (connected_components_from_adj (adjacency_of m)) ->
                 forall i, In i comp -> i < length sectors).
  { intros comp Hc i Hi. pose proof (components_in_range _ _ _ Hc Hi) as Hlt.
    rewrite adjacency_of_length in Hlt.
    apply fill_pairs_length in Em. rewrite np_identity_length in Em. lia. }
  apply rmap_inv in H.
  induction H as [|comp c comps clusters Hc _ IH]; [reflexivity|].
  simpl. rewrite IH by (intros comp' Hc' i Hi; exact (Hr comp' (or_intror Hc') i Hi)).
  f_equal. unfold cluster_of, rbind in Hc.
  rewrite (series_select_nth sectors weights comp Hnd Hlen
             (Hr comp (or_introl eq_refl))) in Hc.
  now inversion Hc.
Qed.

(** Every sector of a portfolio is joined to the representative of its
    group. *)
Lemma linked_to_group (sectors : list string) (m : @matrix F) (a : nat) :
  NoDup sectors ->
  fill_pairs sectors high_corr_pairs (np_identity (length sectors)) = Ok m ->
  a < length sectors ->
  exists r, r < length sectors
            /\ nth r sectors "" = sector_group (nth a sectors "")
            /\ linked (adjacency_of m) (length sectors) a r.
Proof using above below.
  intros Hnd Hm Ha.
  pose proof (table_adjacency_symmetric above below sectors m Hm) as Hsym.
  assert (Hn : length sectors = length (adjacency_of m)).
  { rewrite adjacency_of_length. apply fill_pairs_length in Hm.
    now rewrite np_identity_length in Hm. }
  assert (Hpos : forall i, i < length sectors ->
                   nth i sectors "" = nth a sectors "" -> i = a).
  { intros i Hi E. now apply (proj1 (NoDup_nth sectors "") Hnd). }
  assert (Hback : forall i j, edge (adjacency_of m) (length sectors) i j ->
                    edge (adjacency_of m) (length sectors) j i).
  { intros i j (Hi & Hj & He). repeat split; try assumption.
    rewrite Hsym; [assumption|lia|lia]. }
  assert (Hpair : forall s1 s2, In (s1, s2) high_corr_pairs ->
                    exists i j, nth i sectors "" = s1 /\ nth j sectors "" = s2
                                /\ edge (adjacency_of m) (length sectors) i j)
    by (intros; now apply (pair_edge above below)).
  unfold sector_group.
  destruct (String.eqb_spec (nth a sectors "") "Communication Services") as [E|_].
  { destruct (Hpair "Information Technology" "Communication Services")
      as (i & j & Hi & Hj & He); [simpl; tauto|].
    assert (j = a) by (apply Hpos; [apply He|congruence]). subst j.
    exists i. split; [apply He|]. split; [assumption|].
    eapply linked_step; [constructor|now apply Hback]. }
  destruct (String.eqb_spec (nth a sectors "") "Consumer Discretionary") as [E|_].
  { destruct (Hpair "Consumer Discretionary" "Communication Services")
      as (i & j & Hi & Hj & He); [simpl; tauto|].
    destruct (Hpair "Information Technology" "Communication Services")
      as (i' & j' & Hi' & Hj' & He'); [simpl; tauto|].
    assert (i = a) by (apply Hpos; [apply He|congruence]). subst i.
    assert (j' = j).
    { apply (proj1 (NoDup_nth sectors "") Hnd); [apply He'|apply He|congruence]. }
    subst j'.
    exists i'. split; [apply He'|]. split; [assumption|].
    eapply linked_step; [eapply linked_step; [constructor|exact He]|].
    now apply Hback. }
  destruct (String.eqb_spec (nth a sectors "") "Materials") as [E|_].
  { destruct (Hpair "Energy" "Materials") as (i & j & Hi & Hj & He);
      [simpl; tauto|].
    assert (j = a) by (apply Hpos; [apply He|congruence]). subst j.
    exists i. split; [apply He|]. split; [assumption|].
    eapply linked_step; [constructor|now apply Hback]. }
  destruct (String.eqb_spec (nth a sectors "") "Health Care") as [E|_].
  { destruct (Hpair "Consumer Staples" "Health Care") as (i & j & Hi & Hj & He);
      [simpl; tauto|].
    assert (j = a) by (apply Hpos; [apply He|congruence]). subst j.
    exists i. split; [apply He|]. split; [assumption|].
    eapply linked_step; [constructor|now apply Hback]. }
  destruct (String.eqb_spec (nth a sectors "") "Financials") as [E|_].
  { destruct (Hpair "Industrials" "Financials") as (i & j & Hi & Hj & He);
      [simpl; tauto|].
    assert (j = a) by (apply Hpos; [apply He|congruence]). subst j.
    exists i. split; [apply He|]. split; [assumption|].
    eapply linked_step; [constructor|now apply Hback]. }
  exists a. split; [assumption|]. split; [reflexivity|constructor].
Qed.

(** Two sectors of a portfolio share a cluster exactly when they belong to
    the same group of the table. *)
Lemma clusters_by_group (sectors : list string) (weights : list F)
    (clusters : list (@Cluster F)) (s t : string) :
  NoDup sectors -> length weights = length sectors ->
  correlated_clusters sectors (pd_Series weights sectors) = Ok clusters ->
  In s sectors -> In t sectors ->
  ((exists c, In c clusters /\ In s (comp_sectors c) /\ In t (comp_sectors c))
   <-> sector_group s = sector_group t).
Proof using above below.
  intros Hnd Hlen H Hs Ht.
  destruct (correlated_clusters_comps _ _ _ Hnd Hlen H) as (m & Hm & Hmap).
  pose proof (table_adjacency_symmetric above below sectors m Hm) as Hsym.
  assert (Hn : length (adjacency_of m) = length sectors).
  { rewrite adjacency_of_length. apply fill_pairs_length in Hm.
    now rewrite np_identity_length in Hm. }
  set (comps := connected_components_from_adj (adjacency_of m)) in *.
  apply In_nth with (d := "") in Hs. destruct Hs as (a & Ha & <-).
  apply In_nth with (d := "") in Ht. destruct Ht as (b & Hb & <-).
  assert (Hmember : forall comp k, In comp comps -> k < length sectors ->
                      In (nth k sectors "") (map (fun i => nth i sectors "") comp) ->
                      In k comp).
  { intros comp k Hc Hk Hin. apply in_map_iff in Hin.
    destruct Hin as (k' & E & Hk').
    assert (k' < length sectors).
    { pose proof (components_in_range _ _ _ Hc Hk'). lia. }
    assert (k' = k) by now apply (proj1 (NoDup_nth sectors "") Hnd).
    now subst. }
  assert (Hclass := fun u v Hu =>
            linked_iff_component (adjacency_of m) u v Hsym Hu).
  rewrite Hn in Hclass. fold comps in Hclass.
  split.
  - intros (c & Hc & Hsc & Htc).
    assert (Hin : In (comp_sectors c) (map (@comp_sectors F) clusters))
      by now apply in_map.
    rewrite Hmap in Hin. apply in_map_iff in Hin.
    destruct Hin as (comp & E & Hcomp). rewrite <- E in Hsc, Htc.
    apply (linked_group above below sectors m a b Hm).
    apply Hclass; [lia|]. exists comp. split; [assumption|].
    split; now apply Hmember.
  - intros G.
    destruct (linked_to_group sectors m a Hnd Hm Ha) as (ra & Hra & Era & La).
    destruct (linked_to_group sectors m b Hnd Hm Hb) as (rb & Hrb & Erb & Lb).
    assert (ra = rb).
    { apply (proj1 (NoDup_nth sectors "") Hnd); try assumption. congruence. }
    subst rb.
    assert (Lab : linked (adjacency_of m) (length sectors) a b).
    { apply linked_trans with (v := ra); [assumption|].
      apply linked_sym; auto. }
    apply Hclass in Lab; [|lia]. destruct Lab as (comp & Hc & Hac & Hbc).
    assert (Hin : In (map (fun i => nth i sectors "") comp)
                     (map (@comp_sectors F) clusters)).
    { rewrite Hmap. now apply in_map. }
    apply in_map_iff in Hin. destruct Hin as (c & E & Hc').
    exists c. split; [assumption|]. rewrite E.
    split; [exact (in_map (fun i => nth i sectors "") comp a Hac)
           |exact (in_map (fun i => nth i sectors "") comp b Hbc)].
Qed.

Lemma all_equal_singleton (l : list string) (s : string) :
  NoDup l -> In s l -> (forall t, In t l -> t = s) -> l = [s].
Proof.
  intros Hnd Hin Hall. destruct l as [|x l]; [contradiction|].
  assert (x = s) by (apply Hall; now left). subst x.
  destruct l as [|y l]; [reflexivity|].
  assert (y = s) by (apply Hall; right; now left). subst y.
  inversion Hnd as [|? ? Hx _]; subst. exfalso. apply Hx. now left.
Qed.

(** A sector that the table does not name forms a cluster of its own. *)
Lemma unlisted_sector_alone (sectors : list string) (weights : list F)
    (clusters : list (@Cluster F)) (s : string) :
  NoDup sectors -> length weights = length sectors ->
  correlated_clusters sectors (pd_Series weights sectors) = Ok clusters ->
  In s sectors -> ~ In s table_sectors ->
  exists c, In c clusters /\ comp_sectors c = [s].
Proof using above below.
  intros Hnd Hlen H Hs Hout.
  destruct (clusters_partition _ _ _ Hnd Hlen H) as (Hperm & _ & _).
  assert (Hin : In s (concat (map (@comp_sectors F) clusters))).
  { eapply Permutation_in; [symmetry; exact Hperm|exact Hs]. }
  apply in_concat in Hin. destruct Hin as (l & Hl & Hsl).
  apply in_map_iff in Hl. destruct Hl as (c & <- & Hc).
  exists c. split; [assumption|].
  assert (Hndc : NoDup (concat (map (@comp_sectors F) clusters))).
  { eapply Permutation_NoDup; [symmetry; exact Hperm|exact Hnd]. }
  apply all_equal_singleton.
  - clear -Hndc Hc. induction clusters as [|c' cs IH]; [contradiction|].
    simpl in Hndc. destruct Hc as [->|Hc].
    + now apply NoDup_app_remove_r in Hndc.
    + apply IH; try assumption. now apply NoDup_app_remove_l in Hndc.
  - assumption.
  - intros t Ht.
    assert (Htin : In t sectors).
    { eapply Permutation_in; [exact Hperm|]. apply in_concat.
      exists (comp_sectors c). split; [now apply in_map|assumption]. }
    assert (G : sector_group s = sector_group t).
    { apply (clusters_by_group sectors weights clusters s t); auto.
      exists c. auto. }
    assert (Gs : sector_group s = s).
    { unfold sector_group. unfold table_sectors in Hout. simpl in Hout.
      repeat match goal with
             | |- context [String.eqb s ?x] =>
                 destruct (String.eqb_spec s x) as [->|_]; [tauto|]
             end.
      reflexivity. }
    rewrite Gs in G. unfold table_sectors in Hout. simpl in Hout.
    unfold sector_group in G.
    repeat match type of G with
           | context [String.eqb t ?x] =>
               destruct (String.eqb_spec t x) as [->|_]; [subst s; tauto|]
           end.
    now symmetry.
Qed.

End ClustersByGroup.

Lemma binary64_correlation_levels :
  ltb (@lit_0_6 float binary64) lit_0_7 = true
  /\ ltb (@lit_0_6 float binary64) (fromZ 0) = false.
Proof. split; reflexivity. Qed.

(** X4.  In every portfolio for which the clusters are computed, two sectors
    share a cluster exactly when the table puts them in the same group:
    Information Technology, Communication Services and Consumer
    Discretionary together, Energy with Materials, Consumer Staples with
    Health Care, Industrials with Financials. *)
Theorem clusters_follow_table
    (d : dict float) (clusters : list (@Cluster float)) (s t : string) :
  NoDup (dict_keys d) ->
  clusters_of d = Ok clusters ->
  In s (dict_keys d) -> In t (dict_keys d) ->
  ((exists c, In c clusters /\ In s (comp_sectors c) /\ In t (comp_sectors c))
   <-> sector_group s = sector_group t).
Proof.
  intros Hnd H Hs Ht.
  destruct binary64_correlation_levels as [Ha Hb].
  apply (clusters_by_group Ha Hb (dict_keys d) (normalize (map snd d)));
    auto.
  rewrite normalize_length. unfold dict_keys. now rewrite !length_map.
Qed.

Lemma clusters_follow_table_witness :
  exists clusters,
    clusters_of Portfolios.example_weights = Ok clusters
    /\ ((exists c, In c clusters
                   /\ In "Consumer Discretionary" (comp_sectors c)
                   /\ In "Information Technology" (comp_sectors c))
        <-> sector_group "Consumer Discretionary"
            = sector_group "Information Technology").
Proof.
  assert (Hnd : NoDup (dict_keys Portfolios.example_weights))
    by (apply nodupb_NoDup; reflexivity).
  destruct (clusters_of Portfolios.example_weights) as [clusters|e] eqn:E;
    [|vm_compute in E; discriminate].
  exists clusters. split; [reflexivity|].
  apply (clusters_follow_table Portfolios.example_weights clusters _ _ Hnd E).
  - apply str_in_In. reflexivity.
  - apply str_in_In. reflexivity.
Defined.

(** X5.  A sector that the correlation table does not name always forms a
    cluster of its own. *)
Theorem unlisted_sector_is_singleton
    (d : dict float) (clusters : list (@Cluster float)) (s : string) :
  NoDup (dict_keys d) ->
  clusters_of d = Ok clusters ->
  In s (dict_keys d) -> ~ In s table_sectors ->
  exists c, In c clusters /\ comp_sectors c = [s].
Proof.
  intros Hnd H Hs Hout.
  destruct binary64_correlation_levels as [Ha Hb].
  apply (unlisted_sector_alone Ha Hb (dict_keys d) (normalize (map snd d)));
    auto.
  rewrite normalize_length. unfold dict_keys. now rewrite !length_map.
Qed.

Lemma unlisted_sector_is_singleton_witness :
  exists clusters,
    clusters_of Portfolios.example_weights = Ok clusters
    /\ exists c, In c clusters /\ comp_sectors c = ["Utilities"].
Proof.
  assert (Hnd : NoDup (dict_keys Portfolios.example_weights))
    by (apply nodupb_NoDup; reflexivity).
  destruct (clusters_of Portfolios.example_weights) as [clusters|e] eqn:E;
    [|vm_compute in E; discriminate].
  exists clusters. split; [reflexivity|].
  apply (unlisted_sector_is_singleton Portfolios.example_weights clusters
           "Utilities" Hnd E).
  - apply str_in_In. reflexivity.
  - intros Hin. apply str_in_In in Hin. discriminate.
Defined.

(* ===================================================================== *)
(** * The first maximum *)
(* ===================================================================== *)

Section Argmax.

Context {F : Type} {N : Number F}.

(** The numbers on which [<=] is an order, and what is needed of it. *)
Variable number : F -> Prop.
Hypothesis number_nan : forall x, number x -> is_nan x = false.
Hypothesis number_trans : forall x y z,
  number x -> number y -> number z ->
  leb x y = true -> leb y z = true -> leb x z = true.
Hypothesis number_total : forall x y,
  number x -> number y -> leb x y = false -> leb y x = true.

Lemma argmax_from_split (a : list F) (mp : F) (idx i : nat) :
  number mp -> Forall number a ->
  (argmax_from mp idx i a = idx /\ forall y, In y a -> leb y mp = true)
  \/ exists a1 x a2,
       a = a1 ++ x :: a2
       /\ argmax_from mp idx i a = i + length a1
       /\ leb x mp = false
       /\ (forall y, In y a1 -> leb y x = true /\ leb x y = false)
       /\ (forall y, In y a2 -> leb y x = true).
Proof using number_nan number_trans number_total.
  revert mp idx i. induction a as [|x a IH]; intros mp idx i Hmp Ha.
  - left. split; [reflexivity|intros y []].
  - inversion Ha as [|? ? Hx Ha']; subst. simpl.
    destruct (leb x mp) eqn:E; simpl.
    + destruct (IH mp idx (S i) Hmp Ha') as [[Hr Hall]|H].
      * left. split; [assumption|]. intros y [<-|Hy]; auto.
      * right. destruct H as (a1 & x' & a2 & -> & Hr & Hgt & H1 & H2).
        assert (Hx' : number x').
        { rewrite Forall_forall in Ha'. apply Ha'. apply in_or_app.
          right. now left. }
        exists (x :: a1), x', a2. split; [reflexivity|].
        split; [rewrite Hr; simpl; lia|]. split; [assumption|].
        split; [|assumption].
        intros y [<-|Hy]; [|now apply H1].
        split.
        -- apply (number_trans x mp x'); auto.
        -- destruct (leb x' x) eqn:E'; [|reflexivity].
           rewrite (number_trans x' x mp) in Hgt; auto.
    + rewrite (number_nan x Hx).
      destruct (IH x i (S i) Hx Ha') as [[Hr Hall]|H].
      * right. exists [], x, a. split; [reflexivity|].
        split; [rewrite Hr; simpl; lia|]. split; [assumption|].
        split; [intros y []|assumption].
      * right. destruct H as (a1 & x' & a2 & -> & Hr & Hgt & H1 & H2).
        assert (Hx' : number x').
        { rewrite Forall_forall in Ha'. apply Ha'. apply in_or_app.
          right. now left. }
        exists (x :: a1), x', a2. split; [reflexivity|].
        split; [rewrite Hr; simpl; lia|].
        split.
        -- destruct (leb x' mp) eqn:E'; [|reflexivity].
           rewrite (number_trans x x' mp) in E; auto.
        -- split; [|assumption].
           intros y [<-|Hy]; [|now apply H1].
           split; [now apply number_total|assumption].
Qed.

(** [np.argmax] on numbers returns the position of an element that no other
    exceeds and that every earlier element stays strictly below. *)
Lemma np_argmax_first_maximum (ws : list F) (r : nat) :
  Forall number ws -> np_argmax ws = Ok r ->
  exists pre x post,
    ws = pre ++ x :: post /\ r = length pre
    /\ (forall y, In y pre -> leb y x = true /\ leb x y = false)
    /\ (forall y, In y post -> leb y x = true).
Proof using number_nan number_trans number_total.
  intros Hws H. destruct ws as [|x0 ws]; [discriminate|].
  inversion Hws as [|? ? Hx0 Hws']; subst. simpl in H.
  rewrite (number_nan x0 Hx0) in H. inversion H; subst; clear H.
  destruct (argmax_from_split ws x0 0 1 Hx0 Hws') as [[Hr Hall]|Hsplit].
  - exists [], x0, ws. rewrite Hr.
    split; [reflexivity|]. split; [reflexivity|]. split; [intros y []|].
    assumption.
  - destruct Hsplit as (a1 & x & a2 & -> & Hr & Hgt & H1 & H2).
    assert (Hx : number x).
    { rewrite Forall_forall in Hws'. apply Hws'. apply in_or_app.
      right. now left. }
    exists (x0 :: a1), x, a2. rewrite Hr.
    split; [reflexivity|]. split; [reflexivity|]. split; [|assumption].
    intros y [<-|Hy]; [|now apply H1].
    split; [now apply number_total|assumption].
Qed.

End Argmax.

Lemma combine_split (ks : list string) {A} (w1 : list A) (x : A) (w2 : list A) :
  length ks = length (w1 ++ x :: w2) ->
  exists k1 s k2,
    ks = k1 ++ s :: k2 /\ length k1 = length w1
    /\ combine ks (w1 ++ x :: w2) = combine k1 w1 ++ (s, x) :: combine k2 w2.
Proof.
  revert ks. induction w1 as [|w w1 IH]; intros [|k ks] H; simpl in H;
    try discriminate.
  - exists [], k, ks. repeat split.
  - destruct (IH ks) as (k1 & s & k2 & -> & Hlen & Hc); [lia|].
    exists (k :: k1), s, k2. simpl. rewrite Hc, Hlen. repeat split.
Qed.

(** X6.  In binary64, on a portfolio of positive finite weights, Rule 1
    reports the first sector whose normalised weight is the largest: every
    sector listed before it is strictly lighter, none after it is heavier,
    and the finding carries that sector, its weight rounded to two decimals
    and the tier of its weight. *)
Theorem rule1_reports_first_maximum
    (d : dict float) (verbose : bool) (now : string) (r : Report float) :
  NoDup (dict_keys d) ->
  (forall p, In p d ->
     PrimFloat.ltb 0 (snd p) = true /\ PrimFloat.ltb (snd p) infinity = true) ->
  evaluate d verbose now = Ok r ->
  exists pre s w post c1,
    input_weights r = pre ++ (s, w) :: post
    /\ (forall p, In p pre -> PrimFloat.ltb (snd p) w = true)
    /\ (forall p, In p post -> PrimFloat.leb (snd p) w = true)
    /\ finding_of 1 r = Some c1
    /\ detail c1 = SectorValue s (np_round 2 w)
    /\ status c1 = rule1_status w.
Proof.
  intros Hnd Hpos H. rewrite evaluate_nodup in H by assumption.
  apply run_rules_inv in H.
  destruct H as (c1 & c2 & c3 & c4 & c5 & H1 & _ & _ & _ & _ & ->).
  set (weights := normalize (map snd d)) in *.
  assert (Hgood : Forall (fun x => PrimFloat.is_nan x = false) weights).
  { apply Forall_forall. intros x Hx. apply (leb_not_nan 0).
    apply (normalize_nonneg (map snd d)); [|assumption].
    intros w Hw. apply in_map_iff in Hw. destruct Hw as (p & <- & Hp). auto. }
  unfold rule1, rbind in H1.
  destruct (np_argmax weights) as [idx|] eqn:Ea; [|discriminate].
  inversion H1; subst c1; clear H1.
  destruct (@np_argmax_first_maximum float binary64
              (fun x => PrimFloat.is_nan x = false)
              (fun x Hx => Hx) leb_trans leb_total weights idx Hgood Ea)
    as (pre & x & post & Hw & -> & Hpre & Hpost).
  assert (Hlen : length (dict_keys d) = length (pre ++ x :: post)).
  { rewrite <- Hw. unfold weights. rewrite normalize_length.
    unfold dict_keys. now rewrite !length_map. }
  destruct (combine_split (dict_keys d) pre x post Hlen)
    as (k1 & s & k2 & Hk & Hk1 & Hc).
  assert (Hgx : PrimFloat.is_nan x = false).
  { rewrite Forall_forall in Hgood. apply Hgood. rewrite Hw.
    apply in_or_app. right. now left. }
  exists (combine k1 pre), s, x, (combine k2 post).
  eexists. simpl. unfold pd_Series. rewrite Hw, Hc.
  split; [reflexivity|].
  split; [|split; [|split; [reflexivity|]]].
  - intros p Hp. destruct p as [k y]. apply in_combine_r in Hp. simpl.
    apply ltb_of_not_leb; [assumption| |now apply Hpre].
    rewrite Forall_forall in Hgood. apply Hgood. rewrite Hw.
    apply in_or_app. now left.
  - intros p Hp. destruct p as [k y]. apply in_combine_r in Hp. simpl.
    now apply Hpost.
  - simpl. rewrite Hk, !nth_middle, <- Hk1, nth_middle.
    split; reflexivity.
Qed.

Lemma rule1_reports_first_maximum_witness :
  exists r pre s w post c1,
    evaluate Portfolios.heavy_cluster false Portfolios.noon = Ok r
    /\ input_weights r = pre ++ (s, w) :: post
    /\ (forall p, In p pre -> PrimFloat.ltb (snd p) w = true)
    /\ (forall p, In p post -> PrimFloat.leb (snd p) w = true)
    /\ finding_of 1 r = Some c1
    /\ detail c1 = SectorValue s (np_round 2 w)
    /\ status c1 = rule1_status w.
Proof.
  assert (Hnd : NoDup (dict_keys Portfolios.heavy_cluster))
    by (apply nodupb_NoDup; reflexivity).
  assert (Hpos : forall p, In p Portfolios.heavy_cluster ->
            PrimFloat.ltb 0 (snd p) = true
            /\ PrimFloat.ltb (snd p) infinity = true).
  { intros p Hp. simpl in Hp.
    repeat (destruct Hp as [<-|Hp]; [split; reflexivity|]). contradiction. }
  destruct (evaluate Portfolios.heavy_cluster false Portfolios.noon)
    as [r|e] eqn:E; [|vm_compute in E; discriminate].
  destruct (rule1_reports_first_maximum Portfolios.heavy_cluster false
              Portfolios.noon r Hnd Hpos E)
    as (pre & s & w & post & c1 & H).
  exists r, pre, s, w, post, c1. split; [reflexivity|exact H].
Defined.

(* ===================================================================== *)
(** * What each rule adds up *)
(* ===================================================================== *)


Section Sums.

Context {F : Type} {N : Number F}.

Lemma present_of_table (sectors : list string) (s : string) :
  table_sectors_present sectors = true -> In s table_sectors ->
  str_in s sectors = true.
Proof.
  unfold table_sectors_present, table_sectors. intros H Hs.
  rewrite forallb_forall in H. apply in_flat_map in Hs.
  destruct Hs as (p & Hp & Hs). apply H in Hp. apply andb_prop in Hp.
  destruct Hs as [<-|[<-|[]]]; tauto.
Qed.

Lemma getitem_present (series : dict F) (s : string) :
  str_in s (dict_keys series) = true -> exists x, dict_getitem series s = Ok x.
Proof.
  intros H. rewrite <- dict_getitem_ok in H.
  destruct (dict_getitem series s) as [x|]; [eauto|discriminate].
Qed.

Lemma getitem_absent (series : dict F) (s : string) :
  str_in s (dict_keys series) = false ->
  exists e, dict_getitem series s = Raise e.
Proof.
  intros H. rewrite <- dict_getitem_ok in H.
  destruct (dict_getitem series s) as [x|e]; [discriminate|eauto].
Qed.

(** What a successful call has computed, rule by rule. *)
Lemma evaluate_findings (d : dict F) verbose now (r : Report F) :
  evaluate d verbose now = Ok r ->
  table_sectors_present (dict_keys d) = true
  /\ dict_keys (input_weights r) = dict_keys d
  /\ exists c1 c2 c3 c4 c5,
       checks r = [c1; c2; c3; c4; c5]
       /\ rule3 (dict_keys d) (input_weights r) = Ok c3
       /\ rule4 (dict_keys d) (input_weights r) = Ok c4
       /\ rule5 (dict_keys d) (input_weights r) = Ok c5
       /\ rule c1 = 1 /\ rule c2 = 2.
Proof.
  intros H.
  assert (Hok : is_ok (evaluate d verbose now) = true) by now rewrite H.
  rewrite evaluate_ok in Hok. apply andb_prop in Hok. destruct Hok as [_ Hp].
  split; [assumption|].
  apply evaluate_inv in H. destruct H as (raw & _ & Hlen & H).
  apply run_rules_inv in H.
  destruct H as (c1 & c2 & c3 & c4 & c5 & H1 & H2 & H3 & H4 & H5 & ->).
  simpl. split.
  - apply pd_Series_keys. rewrite normalize_length. unfold dict_keys.
    now rewrite length_map.
  - exists c1, c2, c3, c4, c5.
    apply rule1_inv in H1. destruct H1 as (x1 & _ & R1 & _).
    apply rule2_inv in H2. destruct H2 as (cl & _ & R2 & _).
    repeat split; assumption.
Qed.


Lemma fill_pairs_first_absent (sectors : list string)
    (pairs : list (string * string)) (m : @matrix F) (s : string) :
  find (fun s => negb (str_in s sectors))
       (flat_map (fun p => [fst p; snd p]) pairs) = Some s ->
  exists e, list_index sectors s = Raise e
            /\ fill_pairs sectors pairs m = Raise e.
Proof.
  revert m. induction pairs as [|[s1 s2] pairs IH]; intros m H; simpl in H;
    [discriminate|].
  simpl. unfold rbind.
  pose proof (list_index_ok sectors s1) as H1.
  destruct (str_in s1 sectors); simpl in H.
  - destruct (list_index sectors s1) as [i|]; [|discriminate].
    pose proof (list_index_ok sectors s2) as H2.
    destruct (str_in s2 sectors); simpl in H.
    + destruct (list_index sectors s2) as [j|]; [|discriminate].
      now apply IH.
    + inversion H; subst.
      destruct (list_index sectors s) as [j|e]; [discriminate|]. eauto.
  - inversion H; subst.
    destruct (list_index sectors s) as [i|e]; [discriminate|]. eauto.
Qed.

End Sums.

(** X7.  Whenever a report is returned, the portfolio holds Consumer Staples,
    Health Care, Energy and Materials, so the fallbacks of Rules 3 and 5 for
    missing sectors are never taken: Rule 3 grades the sum of the normalised
    weights of Consumer Staples, Health Care and, when it is a key,
    Utilities, and Rule 5 the sum of those of Energy and Materials; each
    finding carries its sum rounded to two decimals. *)
Theorem defensive_and_energy_sums {F : Type} {N : Number F}
    (d : dict F) (verbose : bool) (now : string) (r : Report F) :
  evaluate d verbose now = Ok r ->
  exists cs hc en ma c3 c5,
    dict_getitem (input_weights r) "Consumer Staples" = Ok cs
    /\ dict_getitem (input_weights r) "Health Care" = Ok hc
    /\ dict_getitem (input_weights r) "Energy" = Ok en
    /\ dict_getitem (input_weights r) "Materials" = Ok ma
    /\ finding_of 3 r = Some c3
    /\ finding_of 5 r = Some c5
    /\ let utilities :=
         match dict_getitem (input_weights r) "Utilities" with
         | Ok u => [u]
         | Raise _ => []
         end in
       let defensive_sum := pd_sum (cs :: hc :: utilities) in
       let em_sum := pd_sum [en; ma] in
       status c3 = rule3_status defensive_sum
       /\ detail c3 = Value (py_round 2 defensive_sum)
       /\ status c5 = rule5_status em_sum
       /\ detail c5 = Value (py_round 2 em_sum).
Proof.
  intros H. destruct (evaluate_findings d verbose now r H)
    as (Hp & Hk & c1 & c2 & c3 & c4 & c5 & Hc & H3 & H4 & H5 & R1 & R2).
  assert (Hin : forall s, In s table_sectors ->
                  exists x, dict_getitem (input_weights r) s = Ok x).
  { intros s Hs. apply getitem_present. rewrite Hk.
    now apply present_of_table. }
  assert (Hs : forall s, In s table_sectors ->
                 str_in s (dict_keys d) = true).
  { intros s. now apply present_of_table. }
  destruct (Hin "Consumer Staples") as [cs Hcs]; [simpl; tauto|].
  destruct (Hin "Health Care") as [hc Hhc]; [simpl; tauto|].
  destruct (Hin "Energy") as [en Hen]; [simpl; tauto|].
  destruct (Hin "Materials") as [ma Hma]; [simpl; tauto|].
  exists cs, hc, en, ma, c3, c5.
  do 4 (split; [assumption|]).
  assert (R3 : rule c3 = 3 /\ rule c4 = 4 /\ rule c5 = 5).
  { apply rule3_inv in H3. apply rule4_inv in H4. apply rule5_inv in H5.
    destruct H3 as (? & _ & ? & _). destruct H4 as (? & _ & ? & _).
    destruct H5 as (? & _ & ? & _). tauto. }
  destruct R3 as (R3 & R4 & R5).
  split; [unfold finding_of; rewrite Hc; simpl; now rewrite R1, R2, R3|].
  split; [unfold finding_of; rewrite Hc; simpl; now rewrite R1, R2, R3, R4, R5|].
  unfold rule3, defensive in H3. unfold rule5 in H5.
  cbn [filter] in H3, H5.
  rewrite (Hs "Consumer Staples"), (Hs "Health Care") in H3 by (simpl; tauto).
  rewrite (Hs "Energy"), (Hs "Materials") in H5 by (simpl; tauto).
  unfold series_select in H3, H5. cbn [rmap] in H3, H5.
  rewrite Hen, Hma in H5. cbn [rbind] in H5.
  inversion H5; subst c5; clear H5.
  destruct (str_in "Utilities" (dict_keys d)) eqn:Eu.
  - destruct (getitem_present (input_weights r) "Utilities") as [u Hu];
      [now rewrite Hk|].
    cbn [rmap] in H3. rewrite Hcs, Hhc, Hu in H3. cbn [rbind] in H3.
    inversion H3; subst c3; clear H3. rewrite Hu. simpl. repeat split.
  - destruct (getitem_absent (input_weights r) "Utilities") as [e He];
      [now rewrite Hk|].
    cbn [rmap] in H3. rewrite Hcs, Hhc in H3. cbn [rbind] in H3.
    inversion H3; subst c3; clear H3. rewrite He. simpl. repeat split.
Qed.

Lemma defensive_and_energy_sums_witness :
  exists r cs hc en ma c3 c5,
    evaluate Portfolios.on_thresholds false Portfolios.noon = Ok r
    /\ dict_getitem (input_weights r) "Consumer Staples" = Ok cs
    /\ dict_getitem (input_weights r) "Health Care" = Ok hc
    /\ dict_getitem (input_weights r) "Energy" = Ok en
    /\ dict_getitem (input_weights r) "Materials" = Ok ma
    /\ finding_of 3 r = Some c3
    /\ finding_of 5 r = Some c5
    /\ status c3 = rule3_status (pd_sum [cs; hc])
    /\ status c5 = rule5_status (pd_sum [en; ma]).
Proof.
  destruct (evaluate Portfolios.on_thresholds false Portfolios.noon)
    as [r|e] eqn:E; [|vm_compute in E; discriminate].
  destruct (defensive_and_energy_sums Portfolios.on_thresholds false
              Portfolios.noon r E)
    as (cs & hc & en & ma & c3 & c5 & H1 & H2 & H3 & H4 & H5 & H6 & H7).
  exists r, cs, hc, en, ma, c3, c5.
  assert (Hu : dict_getitem (input_weights r) "Utilities"
               = Raise (KeyError "Utilities")).
  { vm_compute in E. inversion E. reflexivity. }
  rewrite Hu in H7. cbv zeta in H7.
  repeat (split; [first [reflexivity|assumption]|]). tauto.
Defined.



(** X9.  A verbose call prints only once every rule has been evaluated: when
    it returns a report it has written the header, the line with the number
    of sectors and the rounded sum of the normalised weights, and one line
    for each of Rules 1 to 5 in this order, each with the status and message
    of the finding in the report; when it raises it has printed nothing. *)
Theorem verbose_prints_after_all_rules {F : Type} {N : Number F}
    (w : World F) :
  match check_portfolio_rules true w with
  | (Ok r, w') =>
      stdout w'
      = stdout w
        ++ @LineHeader F
           :: LineTotals (length (input_weights r))
                (np_round 2 (np_sum (map snd (input_weights r))))
           :: map (fun chk => LineRule (rule chk) (status chk) (message chk))
                  (checks r)
      /\ map (@rule F) (checks r) = [1; 2; 3; 4; 5]
  | (Raise _, w') => stdout w' = stdout w
  end.
Proof.
  rewrite check_portfolio_rules_run.
  destruct (read_raw_ok (sector_weights w)) as [raw [Hraw Hlen]].
  rewrite Hraw.
  destruct (run_rules _ raw _) as [r|e] eqn:E; [|reflexivity].
  pose proof E as E'. apply run_rules_inv in E'.
  destruct E' as (c1 & c2 & c3 & c4 & c5 & H1 & H2 & H3 & H4 & H5 & Hr).
  assert (Hl : length (normalize raw) = length (dict_keys (sector_weights w))).
  { rewrite normalize_length. unfold dict_keys. now rewrite length_map. }
  assert (Hsnd : map snd (input_weights r) = normalize raw
                 /\ length (input_weights r)
                    = length (dict_keys (sector_weights w))).
  { rewrite Hr. simpl. unfold pd_Series. revert Hl.
    generalize (normalize raw) as ws.
    generalize (dict_keys (sector_weights w)) as ks.
    induction ks as [|k ks IH]; intros [|x ws] Hl; simpl in *;
      try discriminate; [split; reflexivity|].
    destruct (IH ws) as [IH1 IH2]; [lia|]. now rewrite IH1, IH2. }
  destruct Hsnd as [Hsnd Hlen'].
  split.
  - unfold add_stdout, trace_of. simpl. now rewrite Hsnd, Hlen'.
  - rewrite Hr. simpl.
    apply rule1_inv in H1. destruct H1 as (? & _ & -> & _).
    apply rule2_inv in H2. destruct H2 as (? & _ & -> & _).
    apply rule3_inv in H3. destruct H3 as (? & _ & -> & _).
    apply rule4_inv in H4. destruct H4 as (? & _ & -> & _).
    apply rule5_inv in H5. destruct H5 as (? & _ & -> & _).
    reflexivity.
Qed.

(** X10.  On a non-empty mapping that lacks a sector of the correlation
    table, the call raises what [sectors.index] raises for the first absent
    sector in the order of the table's loop (the first name of a pair before
    the second, pair by pair): it is that sector's lookup that fails. *)
Theorem first_absent_sector_raises {F : Type} {N : Number F}
    (d : dict F) (verbose : bool) (now : string) (s : string) :
  d <> [] ->
  first_absent (dict_keys d) = Some s ->
  exists e,
    list_index (dict_keys d) s = Raise e
    /\ evaluate d verbose now = Raise e.
Proof.
  intros Hne Habs. rewrite evaluate_run.
  destruct (read_raw_ok d) as [raw [Hraw Hlen]]. rewrite Hraw.
  destruct (fill_pairs_first_absent (dict_keys d) high_corr_pairs
              (np_identity (length (dict_keys d))) s Habs)
    as (e & He & Hfill).
  exists e. split; [assumption|].
  unfold run_rules, rbind.
  pose proof (rule1_ok (dict_keys d) (normalize raw)) as H1.
  rewrite normalize_length, Hlen in H1.
  destruct (rule1 _ _) as [c1|]; simpl in H1.
  - unfold rule2, correlated_clusters, rbind. now rewrite Hfill.
  - destruct d; [congruence|discriminate].
Qed.

Lemma first_absent_sector_raises_witness :
  exists e,
    list_index (dict_keys Portfolios.only_energy) "Information Technology"
    = Raise e
    /\ evaluate Portfolios.only_energy true Portfolios.noon = Raise e.
Proof.
  apply (first_absent_sector_raises Portfolios.only_energy true Portfolios.noon
           "Information Technology").
  - discriminate.
  - reflexivity.
Defined.

(* ===================================================================== *)
(** * The average correlation of a cluster *)
(* ===================================================================== *)

Lemma class_members (s t : string) :
  sector_group t = sector_group s <-> In t (class_of s).
Proof.
  unfold class_of, sector_group.
  repeat match goal with
         | |- context [String.eqb s ?x] =>
             destruct (String.eqb_spec s x) as [->|?]
         end;
  repeat match goal with
         | |- context [String.eqb t ?x] =>
             destruct (String.eqb_spec t x) as [->|?]
         end;
  cbn [String.eqb Ascii.eqb Bool.eqb In];
  repeat match goal with
         | |- context [String.eqb s ?x] =>
             destruct (String.eqb_spec s x) as [->|?]
         end;
  cbn [In]; split; intros H; intuition congruence.
Qed.

Lemma class_of_present (sectors : list string) (s t : string) :
  forallb (fun p => str_in (fst p) sectors && str_in (snd p) sectors)
          high_corr_pairs = true ->
  In s sectors -> In t (class_of s) -> In t sectors.
Proof.
  intros Hp Hs. unfold class_of.
  assert (Htab : forall x, In x table_sectors -> In x sectors).
  { intros x Hx. unfold table_sectors in Hx. apply in_flat_map in Hx.
    destruct Hx as (p & Hin & Hx). rewrite forallb_forall in Hp.
    apply Hp in Hin. apply andb_prop in Hin. apply str_in_In.
    destruct Hx as [<-|[<-|[]]]; tauto. }
  destruct (String.eqb _ "Information Technology");
    [|destruct (String.eqb _ "Energy");
      [|destruct (String.eqb _ "Consumer Staples");
        [|destruct (String.eqb _ "Industrials")]]];
    simpl; intros Ht;
    repeat (destruct Ht as [<-|Ht];
            [first [assumption|apply Htab; simpl; tauto]|]);
    contradiction.
Qed.

Lemma class_of_NoDup (s : string) : NoDup (class_of s).
Proof.
  unfold class_of.
  destruct (String.eqb _ "Information Technology");
    [|destruct (String.eqb _ "Energy");
      [|destruct (String.eqb _ "Consumer Staples");
        [|destruct (String.eqb _ "Industrials")]]];
    apply nodupb_NoDup; reflexivity.
Qed.

Section AverageCorrelation.

Context {F : Type} {N : Number F}.

Hypothesis above : ltb lit_0_6 lit_0_7 = true.
Hypothesis below : ltb lit_0_6 (fromZ 0) = false.

Lemma eqb_nth (sectors : list string) (a i : nat) :
  NoDup sectors -> a < length sectors -> i < length sectors ->
  (a =? i) = String.eqb (nth a sectors "") (nth i sectors "").
Proof.
  intros Hnd Ha Hi. destruct (Nat.eqb_spec a i) as [->|Hne].
  - now rewrite String.eqb_refl.
  - symmetry. apply String.eqb_neq. intros E. apply Hne.
    now apply (proj1 (NoDup_nth sectors "") Hnd).
Qed.

(** Two positions hold a listed pair exactly when their names are listed. *)
Lemma pairedb_names (sectors : list string) (pairs : list (string * string))
    (a b : nat) :
  NoDup sectors -> a < length sectors -> b < length sectors ->
  forallb (fun p => str_in (fst p) sectors && str_in (snd p) sectors) pairs
  = true ->
  pairedb sectors pairs a b
  = listedb pairs (nth a sectors "") (nth b sectors "").
Proof.
  intros Hnd Ha Hb. unfold pairedb, listedb.
  induction pairs as [|[s1 s2] pairs IH]; intros Hp; simpl in *;
    [reflexivity|].
  apply andb_prop in Hp. destruct Hp as [Hp Hps].
  apply andb_prop in Hp. destruct Hp as [H1 H2].
  rewrite <- list_index_ok in H1, H2.
  destruct (list_index sectors s1) as [i|] eqn:E1; [|discriminate].
  destruct (list_index sectors s2) as [j|] eqn:E2; [|discriminate].
  destruct (list_index_range _ _ _ E1) as [Hi Hs1].
  destruct (list_index_range _ _ _ E2) as [Hj Hs2].
  rewrite (IH Hps).
  rewrite (eqb_nth sectors a i), (eqb_nth sectors b j),
          (eqb_nth sectors a j), (eqb_nth sectors b i) by assumption.
  now rewrite Hs1, Hs2.
Qed.

(** The entries of the correlation matrix off the diagonal. *)
Lemma entry_by_names (sectors : list string) (m : @matrix F) (a b : nat) :
  NoDup sectors ->
  fill_pairs sectors high_corr_pairs (np_identity (length sectors)) = Ok m ->
  a < length sectors -> b < length sectors -> a <> b ->
  matrix_get m a b
  = if listedb high_corr_pairs (nth a sectors "") (nth b sectors "")
    then lit_0_7 else fromZ 0.
Proof.
  intros Hnd Hm Ha Hb Hne.
  destruct (fill_pairs_get sectors high_corr_pairs _ m a b
              (np_identity_square _) Hm) as [_ Hget].
  rewrite Hget, np_identity_get by assumption.
  assert (Hok : is_ok (fill_pairs sectors high_corr_pairs
                         (np_identity (length sectors))) = true)
    by now rewrite Hm.
  rewrite fill_pairs_ok in Hok.
  rewrite (pairedb_names sectors high_corr_pairs a b Hnd Ha Hb Hok).
  destruct (Nat.eqb_spec a b); [congruence|reflexivity].
Qed.

Lemma upper_pairs_names (sectors : list string) (comp : list nat) :
  map (fun ab => (nth (fst ab) sectors "", nth (snd ab) sectors ""))
      (upper_pairs comp)
  = pairs_above (map (fun i => nth i sectors "") comp).
Proof.
  induction comp as [|a comp IH]; simpl; [reflexivity|].
  rewrite map_app, IH, !map_map. reflexivity.
Qed.

Lemma upper_pairs_distinct (comp : list nat) (a b : nat) :
  NoDup comp -> In (a, b) (upper_pairs comp) ->
  a <> b /\ In a comp /\ In b comp.
Proof.
  induction comp as [|x comp IH]; simpl; intros Hnd H; [contradiction|].
  inversion Hnd as [|? ? Hx Hnd']; subst.
  apply in_app_or in H. destruct H as [H|H].
  - apply in_map_iff in H. destruct H as (y & E & Hy). inversion E; subst.
    split; [intros ->; contradiction|]. tauto.
  - destruct (IH Hnd' H) as (Hne & Ha & Hb). tauto.
Qed.

Lemma NoDup_concat_in {A} (ls : list (list A)) (l : list A) :
  NoDup (concat ls) -> In l ls -> NoDup l.
Proof.
  induction ls as [|l' ls IH]; [contradiction|]. simpl. intros Hnd [->|Hin].
  - now apply NoDup_app_remove_r in Hnd.
  - apply IH; [|assumption]. now apply NoDup_app_remove_l in Hnd.
Qed.

(** The average recorded for a cluster is determined by the names of its
    members. *)
Lemma cluster_avg_by_names (sectors : list string) (weights : list F)
    (clusters : list (@Cluster F)) (c : @Cluster F) :
  NoDup sectors -> length weights = length sectors ->
  correlated_clusters sectors (pd_Series weights sectors) = Ok clusters ->
  In c clusters ->
  cl_avg_corr c = avg_by_names (comp_sectors c)
  /\ NoDup (comp_sectors c)
  /\ comp_sectors c <> [].
Proof.
  intros Hnd Hlen H Hc.
  destruct (clusters_partition _ _ _ Hnd Hlen H) as (Hperm & _ & _).
  assert (Hndc : NoDup (comp_sectors c)).
  { apply (NoDup_concat_in (map (@comp_sectors F) clusters)).
    - eapply Permutation_NoDup; [symmetry; exact Hperm|exact Hnd].
    - now apply in_map. }
  unfold correlated_clusters, rbind in H.
  destruct (fill_pairs _ _ _) as [m|] eqn:Em; [|discriminate].
  assert (Hn : length (adjacency_of m) = length sectors).
  { rewrite adjacency_of_length. apply fill_pairs_length in Em.
    now rewrite np_identity_length in Em. }
  apply rmap_inv in H.
  assert (Hcomp : exists comp,
             In comp (connected_components_from_adj (adjacency_of m))
             /\ cluster_of sectors (pd_Series weights sectors) m comp = Ok c).
  { clear -H Hc. induction H as [|comp c' comps cls Hcc _ IH];
      [contradiction|].
    destruct Hc as [->|Hc].
    - exists comp. split; [now left|assumption].
    - destruct (IH Hc) as (comp' & Hin & E). exists comp'.
      split; [now right|assumption]. }
  destruct Hcomp as (comp & Hin & Ec).
  assert (Hr : forall i, In i comp -> i < length sectors).
  { intros i Hi. pose proof (components_in_range _ _ _ Hin Hi). lia. }
  assert (Hne : comp <> []).
  { destruct (components_at_end (adjacency_of m)) as (_ & _ & Hcomps & _).
    destruct (Hcomps comp Hin) as (h & rest & -> & _). discriminate. }
  unfold cluster_of, rbind in Ec.
  destruct (series_select _ _) as [sel|]; [|discriminate].
  inversion Ec; subst c; clear Ec. cbn [comp_sectors cl_avg_corr] in *.
  split; [|split; [assumption|destruct comp; [congruence|discriminate]]].
  assert (Hndcomp : NoDup comp).
  { clear -Hndc. induction comp as [|a comp IH]; constructor.
    - simpl in Hndc. inversion Hndc as [|? ? Ha _]; subst.
      intros Hin. apply Ha.
      exact (in_map (fun i => nth i sectors "") comp a Hin).
    - apply IH. simpl in Hndc. now inversion Hndc. }
  unfold avg_by_names. rewrite length_map.
  destruct (1 <? length comp); [|reflexivity].
  f_equal. f_equal. rewrite <- upper_pairs_names, map_map.
  apply map_ext_in. intros [a b] Hab. cbn [fst snd].
  destruct (upper_pairs_distinct comp a b Hndcomp Hab) as (Hab' & Ha & Hb).
  apply entry_by_names; auto.
Qed.

(** The members of a cluster are the sectors of the portfolio that share the
    group of any one of them. *)
Lemma cluster_is_class (sectors : list string) (weights : list F)
    (clusters : list (@Cluster F)) (c : @Cluster F) (s t : string) :
  NoDup sectors -> length weights = length sectors ->
  correlated_clusters sectors (pd_Series weights sectors) = Ok clusters ->
  In c clusters -> In s (comp_sectors c) ->
  (In t (comp_sectors c)
   <-> In t sectors /\ sector_group t = sector_group s).
Proof using above below.
  intros Hnd Hlen H Hc Hs.
  destruct (clusters_partition _ _ _ Hnd Hlen H) as (Hperm & Hone & _).
  assert (Hsec : forall x, In x (comp_sectors c) -> In x sectors).
  { intros x Hx. eapply Permutation_in; [exact Hperm|]. apply in_concat.
    exists (comp_sectors c). split; [now apply in_map|assumption]. }
  split.
  - intros Ht. split; [now apply Hsec|]. symmetry.
    apply (clusters_by_group above below sectors weights clusters s t);
      auto.
    exists c. auto.
  - intros [Ht G].
    assert (Hex : exists c', In c' clusters /\ In s (comp_sectors c')
                             /\ In t (comp_sectors c')).
    { apply (clusters_by_group above below sectors weights clusters s t);
        auto. }
    destruct Hex as (c' & Hc' & Hs' & Ht').
    assert (E : c' = c); [|now subst].
    pose proof (Hone s (Hsec s Hs)) as Hlen1.
    assert (In1 : In c (filter (fun c => str_in s (comp_sectors c)) clusters)).
    { apply filter_In. split; [assumption|now apply str_in_In]. }
    assert (In2 : In c' (filter (fun c => str_in s (comp_sectors c)) clusters)).
    { apply filter_In. split; [assumption|now apply str_in_In]. }
    destruct (filter _ clusters) as [|x [|y l]]; simpl in Hlen1;
      try discriminate.
    destruct In1 as [<-|[]], In2 as [<-|[]]. reflexivity.
Qed.

(** The members of a cluster are, in some order, the sectors of one group
    of the table, or one sector that the table does not name. *)
Lemma cluster_perm_class (sectors : list string) (weights : list F)
    (clusters : list (@Cluster F)) (c : @Cluster F) :
  NoDup sectors -> length weights = length sectors ->
  correlated_clusters sectors (pd_Series weights sectors) = Ok clusters ->
  In c clusters ->
  exists s, In s sectors /\ Permutation (comp_sectors c) (class_of s).
Proof using above below.
  intros Hnd Hlen H Hc.
  destruct (cluster_avg_by_names sectors weights clusters c Hnd Hlen H Hc)
    as (_ & Hndc & Hne).
  destruct (comp_sectors c) as [|s rest] eqn:Es; [congruence|].
  assert (Hs : In s (comp_sectors c)) by (rewrite Es; now left).
  pose proof (fun t => cluster_is_class sectors weights clusters c s t
                         Hnd Hlen H Hc Hs) as Hclass.
  assert (Hp : forallb (fun p => str_in (fst p) sectors
                                 && str_in (snd p) sectors)
                       high_corr_pairs = true).
  { assert (Hok : is_ok (correlated_clusters sectors
                           (pd_Series weights sectors)) = true)
      by now rewrite H.
    rewrite correlated_clusters_ok in Hok; [exact Hok|].
    now apply pd_Series_keys. }
  assert (Hsin : In s sectors) by (apply (Hclass s); assumption).
  exists s. split; [assumption|].
  rewrite <- Es. apply NoDup_Permutation;
    [rewrite Es; assumption|apply class_of_NoDup|].
  intros t. rewrite Hclass, class_members. split; [tauto|].
  intros Ht. split; [|assumption].
  now apply (class_of_present sectors s t).
Qed.

End AverageCorrelation.

Lemma Permutation_length_3_inv {A} (a b c : A) (l : list A) :
  Permutation l [a; b; c] ->
  l = [a; b; c] \/ l = [a; c; b] \/ l = [b; a; c]
  \/ l = [b; c; a] \/ l = [c; a; b] \/ l = [c; b; a].
Proof.
  intros H. pose proof (Permutation_length H) as Hl.
  destruct l as [|x [|y [|z [|w l]]]]; try discriminate. clear Hl.
  assert (Hx : In x [a; b; c]).
  { eapply Permutation_in; [exact H|now left]. }
  destruct Hx as [<-|[<-|[<-|[]]]].
  - apply Permutation_cons_inv in H.
    apply Permutation_sym, Permutation_length_2_inv in H.
    destruct H as [E|E]; inversion E; subst; tauto.
  - assert (H' : Permutation (b :: [y; z]) (b :: [a; c])).
    { eapply Permutation_trans; [exact H|apply perm_swap]. }
    apply Permutation_cons_inv in H'.
    apply Permutation_sym, Permutation_length_2_inv in H'.
    destruct H' as [E|E]; inversion E; subst; tauto.
  - assert (H' : Permutation (c :: [y; z]) (c :: [a; b])).
    { eapply Permutation_trans; [exact H|].
      eapply Permutation_trans; [apply perm_skip, perm_swap|].
      apply perm_swap. }
    apply Permutation_cons_inv in H'.
    apply Permutation_sym, Permutation_length_2_inv in H'.
    destruct H' as [E|E]; inversion E; subst; tauto.
Qed.

(** In binary64 the rounded average of a group of the table, its members in
    any order, is one of three constants. *)
Lemma avg_of_class (s : string) (names : list string) :
  Permutation names (class_of s) ->
  (length names = 1 /\ @avg_by_names float binary64 names = 1%float)
  \/ (length names = 2
      /\ @avg_by_names float binary64 names = PrimFloat.div 7 10)
  \/ (length names = 3
      /\ @avg_by_names float binary64 names = PrimFloat.div 467 1000).
Proof.
  unfold class_of.
  destruct (String.eqb _ "Information Technology");
    [|destruct (String.eqb _ "Energy");
      [|destruct (String.eqb _ "Consumer Staples");
        [|destruct (String.eqb _ "Industrials")]]];
    intros H.
  - right. right. apply Permutation_length_3_inv in H.
    repeat (destruct H as [->|H]; [split; reflexivity|]).
    subst. split; reflexivity.
  - right. left. apply Permutation_sym, Permutation_length_2_inv in H.
    destruct H as [->| ->]; split; reflexivity.
  - right. left. apply Permutation_sym, Permutation_length_2_inv in H.
    destruct H as [->| ->]; split; reflexivity.
  - right. left. apply Permutation_sym, Permutation_length_2_inv in H.
    destruct H as [->| ->]; split; reflexivity.
  - left. apply Permutation_sym, Permutation_length_1_inv in H. subst.
    split; reflexivity.
Qed.

(** X13.  In binary64 the [avg_corr] recorded for a cluster is one of three
    constants, whatever the weights and the order of the keys: 1.0 for a
    cluster of one sector, 0.7 for a cluster of two, and 0.467 for the
    cluster of three (two correlated pairs and one uncorrelated pair,
    averaged and rounded to three decimals); no cluster has more than three
    members. *)
Theorem avg_corr_is_constant
    (d : dict float) (clusters : list (@Cluster float)) (c : @Cluster float) :
  NoDup (dict_keys d) ->
  clusters_of d = Ok clusters ->
  In c clusters ->
  (length (comp_sectors c) = 1 /\ cl_avg_corr c = 1%float)
  \/ (length (comp_sectors c) = 2 /\ cl_avg_corr c = PrimFloat.div 7 10)
  \/ (length (comp_sectors c) = 3 /\ cl_avg_corr c = PrimFloat.div 467 1000).
Proof.
  intros Hnd H Hc.
  destruct binary64_correlation_levels as [Ha Hb].
  assert (Hlen : length (normalize (map snd d)) = length (dict_keys d)).
  { rewrite normalize_length. unfold dict_keys. now rewrite !length_map. }
  unfold clusters_of in H.
  destruct (cluster_avg_by_names (dict_keys d) (normalize (map snd d))
              clusters c Hnd Hlen H Hc) as (Havg & _ & _).
  destruct (cluster_perm_class Ha Hb (dict_keys d) (normalize (map snd d))
              clusters c Hnd Hlen H Hc) as (s & _ & Hperm).
  rewrite Havg. now apply (avg_of_class s).
Qed.

Lemma avg_corr_is_constant_witness :
  exists clusters c,
    clusters_of Portfolios.example_weights = Ok clusters
    /\ In c clusters
    /\ length (comp_sectors c) = 3
    /\ ((length (comp_sectors c) = 1 /\ cl_avg_corr c = 1%float)
        \/ (length (comp_sectors c) = 2 /\ cl_avg_corr c = PrimFloat.div 7 10)
        \/ (length (comp_sectors c) = 3
            /\ cl_avg_corr c = PrimFloat.div 467 1000)).
Proof.
  assert (Hnd : NoDup (dict_keys Portfolios.example_weights))
    by (apply nodupb_NoDup; reflexivity).
  destruct (clusters_of Portfolios.example_weights) as [clusters|e] eqn:E;
    [|vm_compute in E; discriminate].
  assert (Hc : exists c, In c clusters /\ length (comp_sectors c) = 3).
  { vm_compute in E. inversion E. eexists. split; [left; reflexivity|].
    reflexivity. }
  destruct Hc as (c & Hc & Hl).
  exists clusters, c. split; [reflexivity|]. split; [assumption|].
  split; [assumption|].
  exact (avg_corr_is_constant Portfolios.example_weights clusters c Hnd E Hc).
Defined.

(* ===================================================================== *)
(** * The number of clusters *)
(* ===================================================================== *)

Lemma filter_length_perm {A} (f : A -> bool) (l l' : list A) :
  Permutation l l' -> length (filter f l) = length (filter f l').
Proof.
  induction 1 as [|x l l' _ IH|x y l|l l' l'' _ IH1 _ IH2]; simpl.
  - reflexivity.
  - destruct (f x); simpl; now rewrite IH.
  - destruct (f x), (f y); reflexivity.
  - now rewrite IH1.
Qed.

(** Each group has one representative. *)
Lemma class_of_rep (s : string) :
  length (filter is_rep (class_of s)) = 1.
Proof.
  unfold class_of, is_rep, sector_group.
  repeat match goal with
         | |- context [String.eqb s ?x] =>
             destruct (String.eqb_spec s x) as [->|?]
         end;
  cbn [String.eqb Ascii.eqb Bool.eqb filter length];
  repeat match goal with
         | |- context [String.eqb s ?x] =>
             destruct (String.eqb_spec s x) as [->|?]
         end;
  cbn [String.eqb Ascii.eqb Bool.eqb filter length];
  try reflexivity; try congruence.
  all: rewrite ?String.eqb_refl; try reflexivity.
Qed.

(** The sectors that do not stand for their group are five names. *)
Lemma not_rep_names (t : string) :
  is_rep t = false
  <-> In t ["Communication Services"; "Consumer Discretionary"; "Materials";
            "Health Care"; "Financials"].
Proof.
  unfold is_rep, sector_group.
  repeat match goal with
         | |- context [String.eqb t ?x] =>
             destruct (String.eqb_spec t x) as [->|?]
         end;
  cbn [String.eqb Ascii.eqb Bool.eqb In];
  rewrite ?String.eqb_refl;
  split; intros H; try discriminate; try tauto; intuition congruence.
Qed.

Section ClusterCount.

Context {F : Type} {N : Number F}.

Hypothesis above : ltb lit_0_6 lit_0_7 = true.
Hypothesis below : ltb lit_0_6 (fromZ 0) = false.

(** A portfolio has five clusters fewer than sectors: the table's nine
    sectors form four clusters and every other sector one. *)
Lemma cluster_count (sectors : list string) (weights : list F)
    (clusters : list (@Cluster F)) :
  NoDup sectors -> length weights = length sectors ->
  correlated_clusters sectors (pd_Series weights sectors) = Ok clusters ->
  length clusters + 5 = length sectors.
Proof using above below.
  intros Hnd Hlen H.
  destruct (clusters_partition _ _ _ Hnd Hlen H) as (Hperm & _ & _).
  assert (Hone : forall c, In c clusters ->
                   length (filter is_rep (comp_sectors c)) = 1).
  { intros c Hc.
    destruct (cluster_perm_class above below sectors weights clusters c
                Hnd Hlen H Hc) as (s & _ & Hp).
    rewrite (filter_length_perm is_rep _ _ Hp). apply class_of_rep. }
  assert (Hreps : length (filter is_rep
                            (concat (map (@comp_sectors F) clusters)))
                  = length clusters).
  { clear -Hone. induction clusters as [|c cs IH]; [reflexivity|].
    simpl. rewrite filter_app, length_app, Hone by now left.
    rewrite IH; [reflexivity|]. intros c' Hc'. apply Hone. now right. }
  rewrite (filter_length_perm is_rep _ _ Hperm) in Hreps.
  assert (Hp : forallb (fun p => str_in (fst p) sectors
                                 && str_in (snd p) sectors)
                       high_corr_pairs = true).
  { assert (Hok : is_ok (correlated_clusters sectors
                           (pd_Series weights sectors)) = true)
      by now rewrite H.
    rewrite correlated_clusters_ok in Hok; [exact Hok|].
    now apply pd_Series_keys. }
  assert (Hfive : length (filter (fun s => negb (is_rep s)) sectors) = 5).
  { change 5 with (length ["Communication Services"; "Consumer Discretionary";
                           "Materials"; "Health Care"; "Financials"]).
    apply Permutation_length. apply NoDup_Permutation.
    - now apply NoDup_filter.
    - apply nodupb_NoDup. reflexivity.
    - intros t. rewrite filter_In, negb_true_iff, not_rep_names.
      split; [tauto|]. intros Ht. split; [|assumption].
      rewrite forallb_forall in Hp. apply str_in_In.
      simpl in Ht.
      destruct Ht as [<-|[<-|[<-|[<-|[<-|[]]]]]].
      + specialize (Hp ("Information Technology", "Communication Services")).
        simpl in Hp. apply andb_prop in Hp; tauto.
      + specialize (Hp ("Consumer Discretionary", "Communication Services")).
        simpl in Hp. apply andb_prop in Hp; tauto.
      + specialize (Hp ("Energy", "Materials")).
        simpl in Hp. apply andb_prop in Hp; tauto.
      + specialize (Hp ("Consumer Staples", "Health Care")).
        simpl in Hp. apply andb_prop in Hp; tauto.
      + specialize (Hp ("Industrials", "Financials")).
        simpl in Hp. apply andb_prop in Hp; tauto. }
  pose proof (filter_length is_rep sectors) as Hsplit.
  lia.
Qed.

End ClusterCount.

(** X14.  In binary64, every report has five clusters fewer than the
    portfolio has sectors: the nine sectors of the table always form four
    clusters and each other sector one, so Rule 2 lists [len(sectors) - 5]
    components and its message states that number. *)
Theorem clusters_are_five_fewer
    (d : dict float) (verbose : bool) (now : string) (r : Report float) :
  NoDup (dict_keys d) ->
  evaluate d verbose now = Ok r ->
  exists c2 comps viols,
    finding_of 2 r = Some c2
    /\ detail c2 = Clusters comps viols
    /\ length comps + 5 = length d
    /\ message c2 = MsgClusters (length d - 5).
Proof.
  intros Hnd H. rewrite evaluate_nodup in H by assumption.
  apply run_rules_inv in H.
  destruct H as (c1 & c2 & c3 & c4 & c5 & H1 & H2 & _ & _ & _ & ->).
  apply rule1_inv in H1. destruct H1 as (x1 & _ & R1 & _).
  unfold rule2, rbind in H2.
  destruct (correlated_clusters _ _) as [clusters|] eqn:E; [|discriminate].
  inversion H2; subst c2; clear H2.
  destruct binary64_correlation_levels as [Ha Hb].
  assert (Hlen : length (normalize (map snd d)) = length (dict_keys d)).
  { rewrite normalize_length. unfold dict_keys. now rewrite !length_map. }
  pose proof (cluster_count Ha Hb _ _ _ Hnd Hlen E) as Hcount.
  unfold dict_keys in Hcount. rewrite length_map in Hcount.
  do 3 eexists. unfold finding_of. cbn [checks find rule]. rewrite R1.
  cbn [Nat.eqb]. split; [reflexivity|]. cbn [detail message].
  split; [reflexivity|]. rewrite length_map.
  split; [assumption|]. f_equal. lia.
Qed.

Lemma clusters_are_five_fewer_witness :
  exists r c2 comps viols,
    evaluate Portfolios.example_weights false Portfolios.noon = Ok r
    /\ finding_of 2 r = Some c2
    /\ detail c2 = Clusters comps viols
    /\ length comps + 5 = length Portfolios.example_weights
    /\ message c2 = MsgClusters (length Portfolios.example_weights - 5).
Proof.
  assert (Hnd : NoDup (dict_keys Portfolios.example_weights))
    by (apply nodupb_NoDup; reflexivity).
  destruct (evaluate Portfolios.example_weights false Portfolios.noon)
    as [r|e] eqn:E; [|vm_compute in E; discriminate].
  destruct (clusters_are_five_fewer Portfolios.example_weights false
              Portfolios.noon r Hnd E) as (c2 & comps & viols & H).
  exists r, c2, comps, viols. split; [reflexivity|exact H].
Defined.
